(** * parse-nested-form-data

    A shallow embedding of [src/index.ts] (the library [parse-nested-form-data])
    and the properties of its path tokenizer, entry transformer, tree inserter
    and compaction pass.

    Modelling conventions.
    - JavaScript strings are [string]s; the regular expression of
      [extractPathParts] works on characters one by one.
    - The output tree is mutable and arrays are compared by identity (the set
      [arraysWithOrder]), so containers live in a heap addressed by locations.
      A [JsonValue] is a leaf or a reference into that heap.
    - A [JsonObject] is used as a dictionary: its own properties are a
      [gmap string JsonValue]. It is a plain object, so a read
      [currentObject[key]] that finds no own property goes on to
      [Object.prototype]: [getProperty] answers with the function that
      [Object.prototype] holds under the key, or with [Object.prototype]
      itself for [__proto__]. [Object.prototype] is taken as the language
      defines it when [parseFormData] is called.
    - A walk that goes through [__proto__] stands in [Object.prototype]. When
      it then assigns a property of [Object.prototype], every object of the
      program inherits that property from then on: the run ends here with
      the outcome [Pollutes], which names the property, and is not followed
      further.
    - A [JsonArray] is a JavaScript array: a list of slots, each either set or
      a hole, together with the properties whose name is not an array index.
    - [throw] is the [Throw] constructor of [Result]; the state at the moment
      of a [throw] is dropped, as the caller never sees it.
    - The builtin [Number] is a parameter of the development: every general
      theorem holds for whatever [Number] computes. The examples instantiate
      it with [NumberOfLiteral], which covers decimal integer literals. *)

From Stdlib Require Import ZArith NArith Ascii String Floats.SpecFloat.
From stdpp Require Import base strings gmap list sorting.

Set Warnings "-register-all".


(** ** Values *)

(** A JavaScript number is an IEEE 754 binary64 value. *)
Definition number := spec_float.

#[global] Instance number_eq_dec : EqDecision number.
Proof. solve_decision. Defined.

(** [File] from [@remix-run/web-file]: an opaque payload with a name. *)
Record File := { fileBits : list string; fileName : string }.

#[global] Instance File_eq_dec : EqDecision File.
Proof. solve_decision. Defined.

(** [string | File], the value of a form data entry. *)
Inductive FormDataEntryValue :=
  | Text (s : string)
  | Blob (f : File).

#[global] Instance FormDataEntryValue_eq_dec : EqDecision FormDataEntryValue.
Proof. solve_decision. Defined.

(** [JsonLeafValue = Exclude<JsonValue, JsonArray | JsonObject>]. *)
Inductive JsonLeafValue :=
  | LString (s : string)
  | LNumber (n : number)
  | LBoolean (b : bool)
  | LNull
  | LFile (f : File).

#[global] Instance JsonLeafValue_eq_dec : EqDecision JsonLeafValue.
Proof. solve_decision. Defined.

(** Identity of a container (an object or an array) in the heap. *)
Definition loc := nat.

(** What a plain object inherits: the functions of [Object.prototype], and
    [Object.prototype] itself, which the accessor [__proto__] gives. *)
Inductive Builtin :=
  | BuiltinFunction (name : string)
  | ObjectPrototype.

#[global] Instance Builtin_eq_dec : EqDecision Builtin.
Proof. solve_decision. Defined.

(** A value as the walk meets it: a leaf, a container of the tree, or what
    a property read has found in [Object.prototype]. The tree itself only
    ever holds leaves and containers. *)
Inductive JsonValue :=
  | Leaf (v : JsonLeafValue)
  | Ref (l : loc)
  | Inherited (b : Builtin).

#[global] Instance JsonValue_eq_dec : EqDecision JsonValue.
Proof. solve_decision. Defined.

(** ** Errors *)

(** What a [throw] carries: the two error classes of the library, each with
    its [key] field, or whatever a user callback threw. *)
Inductive Thrown :=
  | DuplicateKeyError (key : string)
  | MixedArrayError (key : string)
  | ForeignError (what : string).

(** How a run ends: it returns, it throws, or it assigns the property [key]
    of [Object.prototype], after which it is not followed. *)
Inductive Result (A : Type) :=
  | Ok (a : A)
  | Throw (e : Thrown)
  | Pollutes (key : string).
Arguments Ok {A} a.
Arguments Throw {A} e.
Arguments Pollutes {A} key.

#[global] Instance Result_ret : MRet Result := λ A a, Ok a.

#[global] Instance Result_bind : MBind Result := λ A B k r,
  match r with
  | Ok a => k a
  | Throw e => Throw e
  | Pollutes key => Pollutes key
  end.

(** ** Path tokenizer: [extractPathParts] *)

Inductive PartType := object | array.

#[global] Instance PartType_eq_dec : EqDecision PartType.
Proof. solve_decision. Defined.

(** The field [default] of a path part is a fresh [{}] or a fresh [[]]. It is
    used at most once (when the walk descends through the part), so the model
    records which of the two it is and allocates it at that moment. *)
Inductive EmptyContainer := EmptyObject | EmptyArray.

#[global] Instance EmptyContainer_eq_dec : EqDecision EmptyContainer.
Proof. solve_decision. Defined.

Record PathPart := {
  path : string;
  type : PartType;
  default : EmptyContainer;
  pathToPart : string
}.

#[global] Instance PathPart_eq_dec : EqDecision PathPart.
Proof. solve_decision. Defined.

(** [\d] *)
Definition isDigit (c : ascii) : bool :=
  let n := nat_of_ascii c in (48 <=? n) && (n <=? 57).

(** [[^.[]] *)
Definition isKeyChar (c : ascii) : bool :=
  negb (Ascii.eqb c "." || Ascii.eqb c "[").

(** The longest prefix of [s] made of characters accepted by [p], as a greedy
    quantifier takes it, and what is left after it. *)
Fixpoint takeWhile (p : ascii → bool) (s : string) : string :=
  match s with
  | String c s' => if p c then String c (takeWhile p s') else ""
  | "" => ""
  end.

Fixpoint dropWhile (p : ascii → bool) (s : string) : string :=
  match s with
  | String c s' => if p c then dropWhile p s' else s
  | "" => ""
  end.

(** The group [(?<nextType>\[|\.|$)] tried at the start of [s]. *)
Definition matchNextType (s : string) : option string :=
  match s with
  | "" => Some ""
  | String c _ =>
      if Ascii.eqb c "[" then Some "["
      else if Ascii.eqb c "." then Some "."
      else None
  end.

(** The named groups [array] and [pathPart]: exactly one of them is defined,
    as in the type the source casts each match to. *)
Inductive Groups :=
  | GArray (array : string)
  | GPathPart (pathPart : string).

Record RegExpMatch := {
  index : nat;          (* match.index *)
  match1 : string;      (* match[1] *)
  groups : Groups;
  nextType : string;    (* groups.nextType *)
  matchLength : nat     (* match[0].length *)
}.

(** The regular expression [re] of [extractPathParts] is group 1 followed by
    the group [nextType]; group 1 is either the group [array] (any number of
    digits) followed by a closing bracket, or the group [pathPart] (one or
    more characters other than [.] and [[]). The functions below try [re] at
    position [index], where [s] is the input from that position on.

    First alternative: the digits are taken greedily; giving some back cannot
    help, since the character after a shorter run is a digit and not a closing
    bracket. *)
Definition matchArray (index : nat) (s : string) : option RegExpMatch :=
  let digits := takeWhile isDigit s in
  match dropWhile isDigit s with
  | String c rest =>
      if Ascii.eqb c "]" then
        match matchNextType rest with
        | Some nt =>
            Some {| index := index;
                    match1 := digits +:+ "]";
                    groups := GArray digits;
                    nextType := nt;
                    matchLength := String.length digits + 1 + String.length nt |}
        | None => None
        end
      else None
  | "" => None
  end.

(** Second alternative: the longest run is taken; what follows it is the end
    of the input, [.] or [[] (lemma [matchNextType_dropWhile]), so [nextType]
    matches at once and no shorter run is ever tried. *)
Definition matchPathPart (index : nat) (s : string) : option RegExpMatch :=
  let run := takeWhile isKeyChar s in
  match run with
  | "" => None
  | String _ _ =>
      match matchNextType (dropWhile isKeyChar s) with
      | Some nt =>
          Some {| index := index;
                  match1 := run;
                  groups := GPathPart run;
                  nextType := nt;
                  matchLength := String.length run + String.length nt |}
      | None => None
      end
  end.

(** The second alternative is tried when the first fails, be it at the
    bracket or at [nextType]. *)
Definition matchAt (index : nat) (s : string) : option RegExpMatch :=
  match matchArray index s with
  | Some m => Some m
  | None => matchPathPart index s
  end.

(** [path.matchAll(re)]: scan from [lastIndex]; at each position try a match,
    on failure move one character on, on success continue after the match.
    [skip] is the number of characters of the last match that still lie ahead
    ([lastIndex] minus the current position). A match is never empty. *)
Fixpoint matchAll (skip : nat) (index : nat) (s : string) : list RegExpMatch :=
  match s with
  | "" => []
  | String _ s' =>
      match skip with
      | S k => matchAll k (S index) s'
      | O =>
          match matchAt index s with
          | Some m => m :: matchAll (matchLength m - 1) (S index) s'
          | None => matchAll 0 (S index) s'
          end
      end
  end.

(** The callback of [.map] in [extractPathParts]. *)
Definition toPathPart (path : string) (m : RegExpMatch) : PathPart :=
  let type := match groups m with GArray _ => array | GPathPart _ => object end in
  let nextDefault := if String.eqb (nextType m) "[" then EmptyArray else EmptyObject in
  {| path := match groups m with GArray a => a | GPathPart p => p end;
     type := type;
     default := nextDefault;
     pathToPart := String.substring 0 (index m + String.length (match1 m)) path |}.

Definition extractPathParts (path : string) : list PathPart :=
  toPathPart path <$> matchAll 0 0 path.

(** ** The heap of containers *)

(** A property key of an array: an array index (an integer below
    [2^32 - 1]), or any other property name. A number used as a key names the
    property [ToString] of it; a name that is not an array index is
    represented by the number itself. *)
Inductive PropertyKey :=
  | Index (i : nat)
  | Name (n : number).

(** A JavaScript array: [elems] are the slots [0 .. length - 1], [None] being
    a hole; [named] are the properties that are not array indices, in
    insertion order. *)
Record JsonArray := {
  elems : list (option JsonValue);
  named : list (number * JsonValue)
}.

Inductive Container :=
  | CObject (o : gmap string JsonValue)
  | CArray (a : JsonArray).

(** [arraysWithOrder] is a [Set] of arrays compared by identity, iterated in
    insertion order. *)
Record State := {
  heap : gmap loc Container;
  next : loc;
  arraysWithOrder : list loc
}.

(** The integer a number stands for, when it is a non-negative integer. *)
Definition integerValue (x : number) : option N :=
  match x with
  | S754_zero _ => Some 0%N
  | S754_finite false m e =>
      match e with
      | Z0 => Some (Npos m)
      | Zpos p => Some (Npos m * 2 ^ Npos p)%N
      | Zneg p =>
          if (Npos m mod 2 ^ Npos p =? 0)%N then Some (Npos m / 2 ^ Npos p)%N
          else None
      end
  | _ => None
  end.

(** [2^32 - 1]: array indices are the integers below it. *)
Definition maxArrayLength : N := 4294967295.

(** The key [a[x]] addresses for a number [x]. *)
Definition ToPropertyKey (x : number) : PropertyKey :=
  match integerValue x with
  | Some n => if (n <? maxArrayLength)%N then Index (N.to_nat n) else Name x
  | None => Name x
  end.

(** A length as a number. *)
Definition NumberOfNat (n : nat) : number :=
  binary_normalize 53 1024 (Z.of_nat n) 0 false.

Fixpoint namedGet (n : number) (ps : list (number * JsonValue)) : option JsonValue :=
  match ps with
  | [] => None
  | (m, v) :: ps' => if decide (m = n) then Some v else namedGet n ps'
  end.

Fixpoint namedSet (n : number) (v : JsonValue) (ps : list (number * JsonValue))
  : list (number * JsonValue) :=
  match ps with
  | [] => [(n, v)]
  | (m, w) :: ps' => if decide (m = n) then (m, v) :: ps' else (m, w) :: namedSet n v ps'
  end.

(** [a[k]]: [None] is [undefined] (a hole, a slot beyond the length, or a
    missing property). *)
Definition arrayGet (a : JsonArray) (k : PropertyKey) : option JsonValue :=
  match k with
  | Index i => mjoin (elems a !! i)
  | Name n => namedGet n (named a)
  end.

(** [a[k] = v]: writing an index at or beyond the length extends the array,
    leaving holes in between. *)
Definition arraySet (a : JsonArray) (k : PropertyKey) (v : JsonValue) : JsonArray :=
  match k with
  | Index i =>
      {| elems :=
           if decide (i < length (elems a)) then <[i := Some v]> (elems a)
           else elems a ++ replicate (i - length (elems a)) None ++ [Some v];
         named := named a |}
  | Name n => {| elems := elems a; named := namedSet n v (named a) |}
  end.

(** [Array.isArray] on a container. *)
Definition isArray (st : State) (l : loc) : bool :=
  match heap st !! l with
  | Some (CArray _) => true
  | _ => false
  end.

(** The object, respectively the array, a location holds. A location that
    holds nothing, or a container of the other kind, reads as empty; the walk
    only reads a location after it has tested its kind. *)
Definition objectAt (st : State) (l : loc) : gmap string JsonValue :=
  match heap st !! l with
  | Some (CObject o) => o
  | _ => ∅
  end.

Definition emptyArray : JsonArray := {| elems := []; named := [] |}.

Definition arrayAt (st : State) (l : loc) : JsonArray :=
  match heap st !! l with
  | Some (CArray a) => a
  | _ => emptyArray
  end.

Definition setContainer (l : loc) (c : Container) (st : State) : State :=
  {| heap := <[l := c]> (heap st);
     next := next st;
     arraysWithOrder := arraysWithOrder st |}.

(** [arraysWithOrder.add(l)] *)
Definition addOrdered (l : loc) (st : State) : State :=
  {| heap := heap st;
     next := next st;
     arraysWithOrder :=
       if decide (l ∈ arraysWithOrder st) then arraysWithOrder st
       else arraysWithOrder st ++ [l] |}.

(** Allocation of the [{}] or [[]] of a path part. *)
Definition newContainer (d : EmptyContainer) : Container :=
  match d with
  | EmptyObject => CObject ∅
  | EmptyArray => CArray emptyArray
  end.

Definition alloc (d : EmptyContainer) (st : State) : loc * State :=
  (next st,
   {| heap := <[next st := newContainer d]> (heap st);
      next := S (next st);
      arraysWithOrder := arraysWithOrder st |}).

(** [const result: JsonObject = {}] and [new Set()] *)
Definition root : loc := 0.

Definition initialState : State :=
  {| heap := {[ root := CObject ∅ ]}; next := 1; arraysWithOrder := [] |}.

(** ** [Object.prototype] *)

(** The names under which [Object.prototype] holds a function. *)
Definition functionNames : list string :=
  ["constructor"; "hasOwnProperty"; "isPrototypeOf";
   "propertyIsEnumerable"; "toLocaleString"; "toString"; "valueOf";
   "__defineGetter__"; "__defineSetter__"; "__lookupGetter__";
   "__lookupSetter__"].

(** The names an object inherits from [Object.prototype]: the accessor
    [__proto__] and the functions. *)
Definition inheritedNames : list string := "__proto__" :: functionNames.

(** [Object.prototype[key]]: the accessor [__proto__] gives the prototype of
    [Object.prototype], which is [null]. *)
Definition objectPrototypeMember (key : string) : option JsonValue :=
  if decide (key = "__proto__") then Some (Leaf LNull)
  else if decide (key ∈ functionNames) then Some (Inherited (BuiltinFunction key))
  else None.

(** [currentObject[key]] on a plain object of the tree: its own property;
    failing that, for [__proto__] the prototype of the object, which is
    [Object.prototype], and for another key what [Object.prototype] holds. *)
Definition getProperty (st : State) (l : loc) (key : string) : option JsonValue :=
  match objectAt st l !! key with
  | Some val => Some val
  | None =>
      if decide (key = "__proto__") then Some (Inherited ObjectPrototype)
      else if decide (key ∈ functionNames)
           then Some (Inherited (BuiltinFunction key))
           else None
  end.

(** The setters [handlePathPart] returns: closures over the container and
    the key, run on the heap as it is when they are called. *)
Definition Setter := JsonValue → State → State.

(** [currentObject[key] = val]. Under [__proto__] the assignment runs the
    setter that the object inherits and creates no own property; the walk
    assigns there only the prototype it has just read, which leaves the
    object as it is. *)
Definition setProperty (l : loc) (key : string) : Setter :=
  λ val st,
    if decide (key = "__proto__") then st
    else setContainer l (CObject (<[key := val]> (objectAt st l))) st.

Definition setElement (l : loc) (order : PropertyKey) : Setter :=
  λ val st, setContainer l (CArray (arraySet (arrayAt st l) order val)) st.

(** [String.prototype.startsWith] with a one character argument, and
    [slice(1)]. *)
Definition startsWith (s : string) (c : ascii) : bool :=
  match s with
  | String c' _ => Ascii.eqb c' c
  | "" => false
  end.

Definition slice1 (s : string) : string :=
  match s with
  | String _ s' => s'
  | "" => ""
  end.

(** [Boolean(x)] for a number: false for zero and NaN. *)
Definition BooleanOfNumber (x : number) : bool :=
  match x with
  | S754_zero _ | S754_nan => false
  | _ => true
  end.

(** ** The type guard [isJsonObject] *)

(** [typeof] on a value: [null] and a [File] are of type [object], as
    containers and [Object.prototype] are. *)
Inductive TypeOf :=
  | TypeofString | TypeofNumber | TypeofBoolean | TypeofObject | TypeofFunction.

#[global] Instance TypeOf_eq_dec : EqDecision TypeOf.
Proof. solve_decision. Defined.

Definition typeof (val : JsonValue) : TypeOf :=
  match val with
  | Leaf (LString _) => TypeofString
  | Leaf (LNumber _) => TypeofNumber
  | Leaf (LBoolean _) => TypeofBoolean
  | Leaf LNull | Leaf (LFile _) | Ref _ | Inherited ObjectPrototype => TypeofObject
  | Inherited (BuiltinFunction _) => TypeofFunction
  end.

(** [Array.isArray] on a value. *)
Definition ArrayIsArray (st : State) (val : JsonValue) : bool :=
  match val with
  | Ref l => isArray st l
  | _ => false
  end.

(** [val instanceof File] *)
Definition instanceofFile (val : JsonValue) : bool :=
  match val with
  | Leaf (LFile _) => true
  | _ => false
  end.

Definition isJsonObject (st : State) (val : JsonValue) : bool :=
  bool_decide (typeof val = TypeofObject)
  && negb (ArrayIsArray st val)
  && negb (bool_decide (val = Leaf LNull))
  && negb (instanceofFile val).

(** The test of [parseFormData] before it descends through a part that is
    not the last: the value is defined, and is neither an object nor an
    array. *)
Definition isLeafConflict (st : State) (nextPathValue : option JsonValue) : bool :=
  match nextPathValue with
  | Some val => negb (isJsonObject st val) && negb (ArrayIsArray st val)
  | None => false
  end.

Definition Entry : Type := string * FormDataEntryValue.

Definition leafOfEntryValue (v : FormDataEntryValue) : JsonLeafValue :=
  match v with
  | Text s => LString s
  | Blob f => LFile f
  end.

(** [transformEntry]: it gets the entry and the default transform, and
    returns a path and a value, or throws. *)
Definition TransformEntry : Type :=
  Entry → (Entry → string * JsonLeafValue) → Result (string * JsonLeafValue).

Section Parser.

(** The builtin [Number], applied by the source to entry values and to the
    digits of an array segment. *)
Variable Number : FormDataEntryValue → number.

(** ** Entry transformer: [defaultTransform] *)

Definition defaultTransform (entry : Entry) : string * JsonLeafValue :=
  let path := entry.1 in
  let value := entry.2 in
  if startsWith path "+" then
    (slice1 path, LNumber (Number value))
  else if startsWith path "&" then
    (slice1 path,
     LBoolean (bool_decide (value = Text "on") || bool_decide (value = Text "true")
               || BooleanOfNumber (Number value)))
  else if startsWith path "-" then
    (slice1 path, LNull)
  else (path, leafOfEntryValue value).

(** The default of the option [transformEntry]: the second argument is
    ignored and nothing is thrown. *)
Definition defaultTransformEntry : TransformEntry :=
  λ entry _, Ok (defaultTransform entry).

(** ** Tree inserter: [handlePathPart] and the loops of [parseFormData] *)

Definition handlePathPart (pathPart : PathPart) (currentPathObject : loc) (st : State)
  : Result (option JsonValue * Setter * State) :=
  match type pathPart with
  | object =>
      if isArray st currentPathObject then
        Throw (DuplicateKeyError (pathToPart pathPart))
      else
        Ok (getProperty st currentPathObject (path pathPart),
            setProperty currentPathObject (path pathPart),
            st)
  | array =>
      if negb (isArray st currentPathObject) then
        Throw (DuplicateKeyError (pathToPart pathPart))
      else
        let currentArray := arrayAt st currentPathObject in
        let isOrdered := negb (String.eqb (path pathPart) "") in
        let isOrderedArray := bool_decide (currentPathObject ∈ arraysWithOrder st) in
        let st := if isOrdered then addOrdered currentPathObject st else st in
        if (negb isOrdered && isOrderedArray)
           || (isOrdered && negb isOrderedArray
               && bool_decide (0 < length (elems currentArray)))
        then Throw (MixedArrayError (pathToPart pathPart))
        else
          let order :=
            if isOrdered then Number (Text (path pathPart))
            else NumberOfNat (length (elems currentArray)) in
          Ok (arrayGet currentArray (ToPropertyKey order),
              setElement currentPathObject (ToPropertyKey order),
              st)
  end.

(** The iterations of [pathParts.forEach] in which [currentPathObject] is
    [Object.prototype]. [handlePathPart] throws for an array part, since
    [Object.prototype] is no array, and reads [Object.prototype[path]] for
    an object part. A function or the [null] of [__proto__] is defined and
    is neither an object nor an array, so both branches of the loop body
    throw; where nothing is defined, the last part assigns the value and a
    part before the last assigns its default: a property of
    [Object.prototype] is written. *)
Definition inObjectPrototype (pathParts : list PathPart) (st : State)
  : Result State :=
  match pathParts with
  | [] => Ok st
  | pathPart :: _ =>
      match type pathPart with
      | array => Throw (DuplicateKeyError (pathToPart pathPart))
      | object =>
          match objectPrototypeMember (path pathPart) with
          | Some _ => Throw (DuplicateKeyError (pathToPart pathPart))
          | None => Pollutes (path pathPart)
          end
      end
  end.

(** The body of [pathParts.forEach]. The test [pathParts.length - 1 === idx]
    is the test that no part follows. In the other branch a value that is
    defined and is neither an object nor an array throws; [undefined] is
    replaced by the default of the part, and the walk goes on from the
    value, which is assigned again where it was read. An object that is no
    container of the tree is [Object.prototype]. *)
Fixpoint forEachPart (pathParts : list PathPart) (value : JsonLeafValue)
    (currentPathObject : loc) (st : State) : Result State :=
  match pathParts with
  | [] => Ok st
  | pathPart :: rest =>
      '(nextPathValue, setNextPathValue, st) ←
        handlePathPart pathPart currentPathObject st;
      match rest with
      | [] =>
          match nextPathValue with
          | Some _ => Throw (DuplicateKeyError (pathToPart pathPart))
          | None => Ok (setNextPathValue (Leaf value) st)
          end
      | _ :: _ =>
          if isLeafConflict st nextPathValue then
            Throw (DuplicateKeyError (pathToPart pathPart))
          else
            match nextPathValue with
            | Some (Ref nextPathObject) =>
                forEachPart rest value nextPathObject
                  (setNextPathValue (Ref nextPathObject) st)
            | Some nextPathObject =>
                inObjectPrototype rest (setNextPathValue nextPathObject st)
            | None =>
                let '(nextPathObject, st) := alloc (default pathPart) st in
                forEachPart rest value nextPathObject
                  (setNextPathValue (Ref nextPathObject) st)
            end
      end
  end.

(** [entry[1] === ''] *)
Definition isEmptyString (v : FormDataEntryValue) : bool :=
  bool_decide (v = Text "").

(** The loop over [Array.from(formData)]. *)
Fixpoint forEntries (removeEmptyString : bool) (transformEntry : TransformEntry)
    (entries : list Entry) (st : State) : Result State :=
  match entries with
  | [] => Ok st
  | entry :: rest =>
      if removeEmptyString && isEmptyString entry.2 then
        forEntries removeEmptyString transformEntry rest st
      else
        '(path, value) ← transformEntry entry defaultTransform;
        st ← forEachPart (extractPathParts path) value root st;
        forEntries removeEmptyString transformEntry rest st
  end.

(** ** Compaction *)

(** [a.flat(0)]: the values of the slots that are set, in index order. *)
Definition flat0 (slots : list (option JsonValue)) : list JsonValue :=
  omap id slots.

(** [orderedArray.splice(0, orderedArray.length, ...orderedArray.flat(0))]:
    every slot is removed and the values of [flat(0)] are put in their place.
    Properties that are not array indices are not touched. *)
Definition compact (a : JsonArray) : JsonArray :=
  {| elems := Some <$> flat0 (elems a); named := named a |}.

Definition squash (orderedArray : loc) (st : State) : State :=
  match heap st !! orderedArray with
  | Some (CArray a) => setContainer orderedArray (CArray (compact a)) st
  | _ => st
  end.

Definition squashAll (st : State) : State :=
  foldl (λ st orderedArray, squash orderedArray st) st (arraysWithOrder st).

(** [parseFormData(formData, {removeEmptyString, transformEntry})]: the
    result is the object at [root] in the returned heap. *)
Definition parseFormData (removeEmptyString : bool) (transformEntry : TransformEntry)
    (formData : list Entry) : Result State :=
  st ← forEntries removeEmptyString transformEntry formData initialState;
  Ok (squashAll st).

End Parser.

(** ** Reading a result back as a tree *)

(** The value a caller sees: the tree below a reference, with the heap
    followed. An array shows its slots and, after them, its other
    properties. *)
Inductive Json :=
  | JLeaf (v : JsonLeafValue)
  | JObject (props : gmap string Json)
  | JArray (items : list (option Json)) (others : list (number * Json)).

(** [fuel] bounds the depth; the trees of a parse hold at most [next st]
    containers. *)
Fixpoint snapshot (fuel : nat) (st : State) (v : JsonValue) : option Json :=
  match v with
  | Leaf x => Some (JLeaf x)
  | Inherited _ => None
  | Ref l =>
      match fuel with
      | O => None
      | S fuel =>
          match heap st !! l with
          | Some (CObject o) =>
              kvs ← mapM (λ kv : string * JsonValue,
                            j ← snapshot fuel st kv.2; Some (kv.1, j))
                         (map_to_list o);
              Some (JObject (list_to_map kvs))
          | Some (CArray a) =>
              items ← mapM (λ slot : option JsonValue,
                              match slot with
                              | Some w => j ← snapshot fuel st w; Some (Some j)
                              | None => Some None
                              end)
                           (elems a);
              others ← mapM (λ nv : number * JsonValue,
                               j ← snapshot fuel st nv.2; Some (nv.1, j))
                            (named a);
              Some (JArray items others)
          | None => None
          end
      end
  end.

(** The outcome of a parse as the caller sees it. *)
Definition resultOf (r : Result State) : Result (option Json) :=
  st ← r; Ok (snapshot (next st) st (Ref root)).

(** ** A concrete [Number] for the examples *)

(** The value of a string of decimal digits. *)
Fixpoint digitsValue (acc : N) (s : string) : option N :=
  match s with
  | "" => Some acc
  | String c s' =>
      if isDigit c then digitsValue (acc * 10 + N.of_nat (nat_of_ascii c - 48)) s'
      else None
  end.

(** [Number] on the literals the examples use: the empty string is [+0], a
    string of decimal digits is its value rounded to the nearest binary64
    (ties to even), a [File] is [NaN]. Signs, fractions, exponents, white
    space, radix prefixes and [Infinity] are outside this fragment, which
    answers [NaN] for them as for a word that is no number at all. *)
Definition NumberOfLiteral (v : FormDataEntryValue) : number :=
  match v with
  | Text "" => S754_zero false
  | Text s =>
      match digitsValue 0 s with
      | Some n => binary_normalize 53 1024 (Z.of_N n) 0 false
      | None => S754_nan
      end
  | Blob _ => S754_nan
  end.

(** [parseFormData(formData)] and [parseFormData(formData, {removeEmptyString: true})]
    with the default transform. *)
Definition parseDefault (removeEmptyString : bool) (formData : list Entry)
  : Result (option Json) :=
  resultOf (parseFormData NumberOfLiteral removeEmptyString
              (defaultTransformEntry NumberOfLiteral) formData).

Definition JText (s : string) : Json := JLeaf (LString s).


(** ** The path grammar, as the documentation states it *)

(** [path := segment ('.' segment | array-segment)*] with
    [segment := [^.[]+] and [array-segment := '[' digit* ']']. *)
Inductive Step :=
  | Dot (segment : string)
  | Bracket (digits : string).

Record GrammarPath := {
  first : string;
  steps : list Step
}.

Fixpoint allChars (p : ascii → bool) (s : string) : bool :=
  match s with
  | "" => true
  | String c s' => p c && allChars p s'
  end.

(** A segment of the grammar: one or more characters other than [.] and [[]. *)
Definition isSegment (s : string) : Prop :=
  s ≠ "" ∧ allChars isKeyChar s = true.

(** A segment that reads as the inside and the closing bracket of an array
    segment: digits, then a closing bracket, then nothing. *)
Definition bracketLike (s : string) : Prop :=
  dropWhile isDigit s = "]".

Definition wfStep (x : Step) : Prop :=
  match x with
  | Dot s => isSegment s ∧ ¬ bracketLike s
  | Bracket d => allChars isDigit d = true
  end.

Definition wfPath (p : GrammarPath) : Prop :=
  (isSegment (first p) ∧ ¬ bracketLike (first p)) ∧ Forall wfStep (steps p).

Definition renderStep (x : Step) : string :=
  match x with
  | Dot s => "." +:+ s
  | Bracket d => "[" +:+ d +:+ "]"
  end.

Fixpoint renderSteps (xs : list Step) : string :=
  match xs with
  | [] => ""
  | x :: xs' => renderStep x +:+ renderSteps xs'
  end.

Definition render (p : GrammarPath) : string :=
  first p +:+ renderSteps (steps p).

(** The default container of a segment: an array exactly when the character
    right after the segment is [[], that is when an array segment follows. *)
Definition defaultBefore (xs : list Step) : EmptyContainer :=
  match xs with
  | Bracket _ :: _ => EmptyArray
  | _ => EmptyObject
  end.

(** The segments the grammar describes, each with the prefix of the path that
    ends with it. *)
Fixpoint partsOfSteps (prefix : string) (xs : list Step) : list PathPart :=
  match xs with
  | [] => []
  | x :: xs' =>
      {| path := match x with Dot s => s | Bracket d => d end;
         type := match x with Dot _ => object | Bracket _ => array end;
         default := defaultBefore xs';
         pathToPart := prefix +:+ renderStep x |}
      :: partsOfSteps (prefix +:+ renderStep x) xs'
  end.

Definition partsOf (p : GrammarPath) : list PathPart :=
  {| path := first p;
     type := object;
     default := defaultBefore (steps p);
     pathToPart := first p |}
  :: partsOfSteps (first p) (steps p).

(** What may follow a segment in a path of the grammar: nothing, or the
    separator that opens the next segment. *)
Definition startsStep (r : string) : Prop :=
  r = "" ∨ ∃ r', r = String "." r' ∨ r = String "[" r'.

(** The text of [nextType] when the rest of the input is [r]. *)
Definition separatorOf (r : string) : string :=
  match r with
  | "" => ""
  | String c _ => String c ""
  end.


(** ** Notions used to state the properties of the inserter *)

(** The position a path part addresses in the current container: a property
    of an object, or a key of an array. For an array part with digits it is
    the key of the number the digits denote; for the empty key it is the key
    of the current length. *)
Inductive Position :=
  | PropertyOf (key : string)
  | ElementOf (order : PropertyKey).

Definition positionOf (Number : FormDataEntryValue → number)
    (st : State) (cur : loc) (p : PathPart) : Position :=
  match type p with
  | object => PropertyOf (path p)
  | array =>
      ElementOf
        (ToPropertyKey
           (if String.eqb (path p) "" then NumberOfNat (length (elems (arrayAt st cur)))
            else Number (Text (path p))))
  end.

(** The key of a length: the index of the slot after the last one, as long
    as that is an array index. *)
Definition lengthKey (n : nat) : PropertyKey :=
  if (N.of_nat n <? maxArrayLength)%N then Index n else Name (NumberOfNat n).

(** A key that is an index is below [2^32 - 1]. *)
Definition validKey (k : PropertyKey) : Prop :=
  match k with
  | Index i => (N.of_nat i < maxArrayLength)%N
  | Name _ => True
  end.

(** The value a read finds at a position of the container [cur], if any:
    for a property of an object this is [getProperty], which also finds
    what the object inherits. *)
Definition valueAt (st : State) (cur : loc) (pos : Position) : option JsonValue :=
  match pos with
  | PropertyOf key => getProperty st cur key
  | ElementOf order => arrayGet (arrayAt st cur) order
  end.

(** A number that [Boolean] maps to [true]: neither a zero nor NaN. *)
Definition nonZeroNumber (x : number) : Prop :=
  x ≠ S754_zero false ∧ x ≠ S754_zero true ∧ x ≠ S754_nan.

(** The type sigils of the default transform. *)
Definition hasSigil (s : string) : bool :=
  startsWith s "+" || startsWith s "&" || startsWith s "-".

(** The two error classes of the library. *)
Definition isCoreError (e : Thrown) : Prop :=
  match e with
  | DuplicateKeyError _ | MixedArrayError _ => True
  | ForeignError _ => False
  end.

(** An entry that [removeEmptyString] keeps. *)
Definition keptEntry (entry : Entry) : Prop := entry.2 ≠ Text "".

#[global] Instance keptEntry_dec entry : Decision (keptEntry entry).
Proof. unfold keptEntry. apply _. Defined.

(** ** Well-formed states *)

(** The values a container holds. *)
Definition holds (c : Container) (v : JsonValue) : Prop :=
  match c with
  | CObject o => ∃ key, o !! key = Some v
  | CArray a => Some v ∈ elems a ∨ ∃ n, (n, v) ∈ named a
  end.

(** A value that may be stored in the container [cur]: a leaf, or a
    reference that is allocated, and was allocated after [cur]. *)
Definition validValue (st : State) (cur : loc) (v : JsonValue) : Prop :=
  (∀ l, v = Ref l → is_Some (heap st !! l) ∧ cur < l)
  ∧ (∀ b, v ≠ Inherited b).

(** What holds of every state of a parse: locations are allocated in order,
    references point to allocated containers, and to younger ones, so that
    the heap below the root is a tree; the containers hold leaves and
    references only; [arraysWithOrder] holds arrays, the root is an object, an array that no
    index has addressed has no hole, and no array is longer than
    [2^32 - 1]. *)
Record wellFormed (st : State) : Prop := {
  wf_next : ∀ l, is_Some (heap st !! l) → l < next st;
  wf_values : ∀ l c b, heap st !! l = Some c → ¬ holds c (Inherited b);
  wf_refs : ∀ l c l',
    heap st !! l = Some c → holds c (Ref l') → is_Some (heap st !! l');
  wf_up : ∀ l c l', heap st !! l = Some c → holds c (Ref l') → l < l';
  wf_ordered : ∀ l, l ∈ arraysWithOrder st → isArray st l = true;
  wf_root : ∃ o, heap st !! root = Some (CObject o);
  wf_dense : ∀ l a,
    heap st !! l = Some (CArray a) → l ∉ arraysWithOrder st →
    Forall is_Some (elems a);
  wf_length : ∀ l a,
    heap st !! l = Some (CArray a) →
    (N.of_nat (length (elems a)) ≤ maxArrayLength)%N
}.

(** ** Pushing into [foo[]] *)

(** The parts of the path [foo[]]. *)
Definition fooParts : list PathPart := extractPathParts "foo[]".

(** The slot a pushed entry value fills. *)
Definition slotOf (v : FormDataEntryValue) : option JsonValue :=
  Some (Leaf (leafOfEntryValue v)).

(** The state after the values [vs] have been pushed into [foo[]], one entry
    each: the root object, and the array of [foo] with one slot per value. *)
Definition pushedState (vs : list FormDataEntryValue) : State :=
  {| heap := {[ 0 := CObject {[ "foo" := Ref 1 ]};
                1 := CArray {| elems := slotOf <$> vs; named := [] |} ]};
     next := 2;
     arraysWithOrder := [] |}.

(** The tree a caller sees then. *)
Definition pushedJson (vs : list FormDataEntryValue) : Json :=
  JObject {[ "foo" :=
    JArray ((λ v, Some (JLeaf (leafOfEntryValue v))) <$> vs) [] ]}.

(** ** Notions used to state further properties *)

(** The text of group 1 of the match a part comes from: the key of an object
    part, the digits and the closing bracket of an array part. *)
Definition partText (p : PathPart) : string :=
  match type p with
  | object => path p
  | array => path p +:+ "]"
  end.

(** ** Paths put together with a separator *)

(** The match [m] found in a path [u] that a separator [c] and more text
    follow, next to the match [m'] found at the same place in [u] alone:
    same place and same text; when the text ends before the end of [u] the
    two are the same match, and when it ends with [u], [m'] has matched the
    end of the input where [m] has matched the separator. [last] is the
    position at which [u] ends. *)
Definition sameMatch (c : ascii) (last : nat) (m m' : RegExpMatch) : Prop :=
  index m = index m' ∧ match1 m = match1 m' ∧ groups m = groups m'
  ∧ ((index m' + String.length (match1 m') < last
      ∧ nextType m = nextType m' ∧ matchLength m = matchLength m')
     ∨ (index m' + String.length (match1 m') = last
        ∧ nextType m' = "" ∧ nextType m = String c ""
        ∧ matchLength m' = String.length (match1 m')
        ∧ matchLength m = S (matchLength m'))).

(** The outcomes of the two match attempts at a position: both fail, or
    both succeed with matches that are the same in the sense above. *)
Definition sameAttempt (c : ascii) (last : nat)
    (r r' : option RegExpMatch) : Prop :=
  match r, r' with
  | Some m, Some m' => sameMatch c last m m'
  | None, None => True
  | _, _ => False
  end.

(** A match found [n] characters further on. *)
Definition shiftMatch (n : nat) (m : RegExpMatch) : RegExpMatch :=
  {| index := n + index m;
     match1 := match1 m;
     groups := groups m;
     nextType := nextType m;
     matchLength := matchLength m |}.

(** A part of a path [s], as it is when the separator [c] and more text
    follow [s]: the part that ends with [s], if there is one, has the
    default that [c] asks for. *)
Definition followedBy (c : ascii) (s : string) (p : PathPart) : PathPart :=
  if decide (pathToPart p = s) then
    {| path := path p;
       type := type p;
       default := if Ascii.eqb c "[" then EmptyArray else EmptyObject;
       pathToPart := pathToPart p |}
  else p.

(** A part of a path, as it is when the text [pre] comes before the path. *)
Definition prefixPart (pre : string) (p : PathPart) : PathPart :=
  {| path := path p;
     type := type p;
     default := default p;
     pathToPart := pre +:+ pathToPart p |}.

(** The write a setter of [handlePathPart] does, told by the position it
    closes over. *)
Definition writeAt (cur : loc) (pos : Position) : Setter :=
  match pos with
  | PropertyOf key => setProperty cur key
  | ElementOf order => setElement cur order
  end.

(** [st'] extends [st]: the containers of [st] are still there and of the
    same kind, every position that holds a value in [st] holds the same
    value in [st'], and the arrays of [arraysWithOrder] are still in it. *)
Definition extends (st st' : State) : Prop :=
  (∀ l, is_Some (heap st !! l) →
        is_Some (heap st' !! l) ∧ isArray st' l = isArray st l)
  ∧ (∀ l pos v, valueAt st l pos = Some v → valueAt st' l pos = Some v)
  ∧ (∀ l, l ∈ arraysWithOrder st → l ∈ arraysWithOrder st').

(** ** Looking values up *)

(** The value [w] is a child of the container [cur] that the part [p] may
    address: the property named by an object part, the value under some key
    of the array for an array part. *)
Definition childAt (st : State) (cur : loc) (p : PathPart) (w : JsonValue) : Prop :=
  match type p with
  | object => isArray st cur = false ∧ objectAt st cur !! path p = Some w
  | array =>
      isArray st cur = true ∧ ∃ order, arrayGet (arrayAt st cur) order = Some w
  end.

(** Following parts from a value of the heap. *)
Fixpoint reaches (st : State) (v : JsonValue) (parts : list PathPart)
    (w : JsonValue) : Prop :=
  match parts with
  | [] => v = w
  | p :: rest => ∃ cur u, v = Ref cur ∧ childAt st cur p u ∧ reaches st u rest w
  end.

(** The values found in a tree by following parts: at an object part the
    property of that name, at an array part every element, be it in a slot
    or under another key. *)
Fixpoint valuesAt (parts : list PathPart) (j : Json) : list Json :=
  match parts with
  | [] => [j]
  | p :: rest =>
      match type p, j with
      | object, JObject props =>
          match props !! path p with
          | Some j' => valuesAt rest j'
          | None => []
          end
      | array, JArray items others =>
          (omap id items ++ others.*2) ≫= valuesAt rest
      | _, _ => []
      end
  end.

(** A part whose key is no name that an object inherits from
    [Object.prototype]. *)
Definition ownKey (p : PathPart) : bool :=
  match type p with
  | object => bool_decide (path p ∉ inheritedNames)
  | array => true
  end.

(** The parts of the path [transformEntry] gives for an entry. *)
Definition entryParts (Number : FormDataEntryValue → number)
    (transformEntry : TransformEntry) (entry : Entry) : list PathPart :=
  match transformEntry entry (defaultTransform Number) with
  | Ok (path, _) => extractPathParts path
  | _ => []
  end.

Definition ownKeysOnly (Number : FormDataEntryValue → number)
    (transformEntry : TransformEntry) (formData : list Entry) : Prop :=
  Forall (λ entry, forallb ownKey (entryParts Number transformEntry entry) = true)
         formData.

(** An entry that is walked: [removeEmptyString] keeps it, [transformEntry]
    gives it the path [path] and the value [value], and the path has a
    part. *)
Definition walked (Number : FormDataEntryValue → number) (removeEmptyString : bool)
    (transformEntry : TransformEntry) (entry : Entry)
    (path : string) (value : JsonLeafValue) : Prop :=
  removeEmptyString && isEmptyString entry.2 = false
  ∧ transformEntry entry (defaultTransform Number) = Ok (path, value)
  ∧ extractPathParts path ≠ [].

(** ** Flat form data *)

(** A key that is one object segment: no dot, no bracket, no sigil in
    front, and not a name inherited from [Object.prototype]. *)
Definition plainKey (key : string) : Prop :=
  isSegment key ∧ ¬ bracketLike key ∧ hasSigil key = false
  ∧ key ∉ inheritedNames.

#[global] Instance plainKey_dec key : Decision (plainKey key).
Proof. unfold plainKey, isSegment, bracketLike. apply _. Defined.

(** The entry of the result a flat entry stands for. *)
Definition leafEntry (entry : Entry) : string * JsonLeafValue :=
  (entry.1, leafOfEntryValue entry.2).

(** The state in which the root holds the leaves [m] and nothing else has
    been allocated. *)
Definition flatState (m : gmap string JsonLeafValue) : State :=
  {| heap := {[ root := CObject (Leaf <$> m) ]};
     next := 1;
     arraysWithOrder := [] |}.

(** ** Entries that address one array by index *)

(** An entry [key[digits]=content], with the index [slot] that the digits
    denote. *)
Record Indexed := {
  digits : string;
  slot : nat;
  content : FormDataEntryValue
}.

Definition indexedEntry (key : string) (x : Indexed) : Entry :=
  (key +:+ "[" +:+ digits x +:+ "]", content x).

(** The leaf an indexed entry writes, and the write itself on the slots of
    the array: within the length the slot is set, beyond it the array is
    extended with holes up to the slot. *)
Definition leafOf (x : Indexed) : JsonLeafValue := leafOfEntryValue (content x).

Definition writeLeaf (slots : list (option JsonLeafValue)) (x : Indexed)
  : list (option JsonLeafValue) :=
  if decide (slot x < length slots) then <[slot x := Some (leafOf x)]> slots
  else slots ++ replicate (slot x - length slots) None ++ [Some (leafOf x)].

(** A slot of leaves as a slot of an array. *)
Definition leafSlot (o : option JsonLeafValue) : option JsonValue := Leaf <$> o.

(** The state in which the root holds, under [key], an array that an index
    has addressed and whose slots hold leaves. *)
Definition indexedState (key : string) (slots : list (option JsonLeafValue)) : State :=
  {| heap := {[ 0 := CObject {[ key := Ref 1 ]};
                1 := CArray {| elems := leafSlot <$> slots; named := [] |} ]};
     next := 2;
     arraysWithOrder := [1] |}.

(** The order of the indices. *)
Definition bySlot (x y : Indexed) : Prop := slot x ≤ slot y.

#[global] Instance bySlot_dec x y : Decision (bySlot x y).
Proof. unfold bySlot. apply _. Defined.

(** The slots that are set, each with its index, from the index [i] on. *)
Fixpoint pairsFrom (i : nat) (slots : list (option JsonLeafValue))
  : list (nat * JsonLeafValue) :=
  match slots with
  | [] => []
  | Some v :: rest => (i, v) :: pairsFrom (S i) rest
  | None :: rest => pairsFrom (S i) rest
  end.

(** What is asked of an indexed entry: its digits are digits, and [Number]
    reads them as the index. *)
Definition indexedBy (Number : FormDataEntryValue → number) (x : Indexed) : Prop :=
  digits x ≠ "" ∧ allChars isDigit (digits x) = true
  ∧ ToPropertyKey (Number (Text (digits x))) = Index (slot x).

#[global] Instance PropertyKey_eq_dec : EqDecision PropertyKey.
Proof. solve_decision. Defined.

#[global] Instance indexedBy_dec Number x : Decision (indexedBy Number x).
Proof. unfold indexedBy. apply _. Defined.

(** A part as it is when its path ends with it: nothing follows, so its
    default is an object. *)
Definition asLast (p : PathPart) : PathPart :=
  {| path := path p;
     type := type p;
     default := EmptyObject;
     pathToPart := pathToPart p |}.

(** ** Where a value sits *)

(** The place a part addresses in a container: the property of its name in
    an object, an element in an array. Which element it is depends on the
    order of the entries and on the compaction, so the place leaves it
    out. *)
Inductive Place :=
  | AtProperty (key : string)
  | AtElement.

#[global] Instance Place_eq_dec : EqDecision Place.
Proof. solve_decision. Defined.





(** ** Entries that meet *)

(** A part that addresses the same position whatever the state: an object
    part, or an array part with digits. A part with the empty key addresses
    the end of the array, a new position each time. *)
Definition fixedPart (p : PathPart) : bool :=
  match type p with
  | object => true
  | array => negb (String.eqb (path p) "")
  end.

(** What a part addresses: its kind and its key. *)
Definition keyOf (p : PathPart) : PartType * string := (type p, path p).

(** The container [cur] holds [u] at the position of the part [p]; an array
    is then one that an index has addressed. *)
Definition standsAt (Number : FormDataEntryValue → number) (st : State)
    (cur : loc) (p : PathPart) (u : JsonValue) : Prop :=
  valueAt st cur (positionOf Number st cur p) = Some u
  ∧ match type p with
    | object => isArray st cur = false
    | array => isArray st cur = true ∧ cur ∈ arraysWithOrder st
    end.

(** Following the positions of parts from a value of the heap. *)
Fixpoint follows (Number : FormDataEntryValue → number) (st : State)
    (v : JsonValue) (parts : list PathPart) (w : JsonValue) : Prop :=
  match parts with
  | [] => v = w
  | p :: rest =>
      ∃ cur u, v = Ref cur ∧ standsAt Number st cur p u
               ∧ follows Number st u rest w
  end.
(** * Properties *)

(** ** Strings *)

Lemma append_cons (c : ascii) (s t : string) :
  String c s +:+ t = String c (s +:+ t).
Proof. reflexivity. Qed.

Lemma append_nil_l (t : string) : "" +:+ t = t.
Proof. reflexivity. Qed.

Lemma append_nil_r (s : string) : s +:+ "" = s.
Proof. induction s as [|c s IH]; [done|]. by rewrite append_cons, IH. Qed.

Lemma append_assoc (a b c : string) : (a +:+ b) +:+ c = a +:+ b +:+ c.
Proof. induction a as [|x a IH]; [done|]. by rewrite !append_cons, IH. Qed.

Lemma length_append (a b : string) :
  String.length (a +:+ b) = String.length a + String.length b.
Proof.
  induction a as [|x a IH]; [done|]. rewrite append_cons. simpl. by rewrite IH.
Qed.

Lemma substring_prefix (a b : string) :
  String.substring 0 (String.length a) (a +:+ b) = a.
Proof.
  induction a as [|x a IH].
  - by destruct b.
  - rewrite append_cons. simpl. by rewrite IH.
Qed.

(** ** The tokenizer *)


Lemma renderSteps_startsStep xs : startsStep (renderSteps xs).
Proof.
  destruct xs as [|[s|d] xs]; [by left|..]; right; cbn; eauto.
Qed.

Lemma takeWhile_app p s r :
  allChars p s = true →
  takeWhile p (s +:+ r) = s +:+ takeWhile p r.
Proof.
  induction s as [|c s IH]; [done|]. simpl. intros [Hc Hs]%andb_prop.
  rewrite !append_cons. simpl. by rewrite Hc, IH.
Qed.

Lemma dropWhile_app p s r :
  allChars p s = true →
  dropWhile p (s +:+ r) = dropWhile p r.
Proof.
  induction s as [|c s IH]; [done|]. simpl. intros [Hc Hs]%andb_prop.
  by rewrite Hc, IH.
Qed.

Lemma takeWhile_dropWhile p s : takeWhile p s +:+ dropWhile p s = s.
Proof.
  induction s as [|c s IH]; [done|]. simpl. destruct (p c); [|done].
  by rewrite append_cons, IH.
Qed.

Lemma allChars_takeWhile p s : allChars p (takeWhile p s) = true.
Proof.
  induction s as [|c s IH]; [done|]. cbn. destruct (p c) eqn:Hc; [|done].
  cbn. by rewrite Hc.
Qed.

(** After the longest run of key characters comes the end, [.] or [[]: the
    group [nextType] cannot fail there. *)
Lemma matchNextType_dropWhile s :
  is_Some (matchNextType (dropWhile isKeyChar s)).
Proof.
  induction s as [|c s IH]; [by eexists|]. cbn.
  destruct (isKeyChar c) eqn:Hc; [done|]. cbn.
  unfold isKeyChar in Hc.
  destruct (Ascii.eqb c "[") eqn:H1; [by eexists|].
  destruct (Ascii.eqb c ".") eqn:H2; [by eexists|]. done.
Qed.


Lemma startsStep_takeWhile_key r : startsStep r → takeWhile isKeyChar r = "".
Proof. by intros [->|[r' [->| ->]]]. Qed.

Lemma startsStep_dropWhile_key r : startsStep r → dropWhile isKeyChar r = r.
Proof. by intros [->|[r' [->| ->]]]. Qed.

Lemma startsStep_dropWhile_digit r : startsStep r → dropWhile isDigit r = r.
Proof. by intros [->|[r' [->| ->]]]. Qed.

Lemma startsStep_takeWhile_digit r : startsStep r → takeWhile isDigit r = "".
Proof. by intros [->|[r' [->| ->]]]. Qed.

Lemma startsStep_matchNextType r :
  startsStep r → matchNextType r = Some (separatorOf r).
Proof. by intros [->|[r' [->| ->]]]. Qed.

Lemma startsStep_not_bracket r c r' : startsStep r → r = String c r' → Ascii.eqb c "]" = false.
Proof. intros [->|[r'' [->| ->]]] [= <- _]; done. Qed.

Lemma dropWhile_head p s c t : dropWhile p s = String c t → p c = false.
Proof.
  induction s as [|x s IH]; [done|]. simpl.
  destruct (p x) eqn:Hx; [done|]. by intros [= <- _].
Qed.

Lemma allChars_dropWhile p q s :
  allChars q s = true → allChars q (dropWhile p s) = true.
Proof.
  induction s as [|x s IH]; [done|]. simpl. intros [Hx Hs]%andb_prop.
  destruct (p x); [by apply IH|]. simpl. by rewrite Hx, Hs.
Qed.

Lemma isKeyChar_matchNextType c s :
  isKeyChar c = true → matchNextType (String c s) = None.
Proof.
  unfold isKeyChar. simpl.
  destruct (Ascii.eqb c "."), (Ascii.eqb c "["); done.
Qed.

(** The first alternative fails on a segment of the grammar that is not
    bracket-like. *)
Lemma matchArray_segment i s r :
  isSegment s → ¬ bracketLike s → startsStep r →
  matchArray i (s +:+ r) = None.
Proof.
  intros [_ Hkey] Hnb Hr. unfold matchArray.
  assert (dropWhile isDigit (s +:+ r) = dropWhile isDigit (dropWhile isDigit s +:+ r))
    as ->.
  { rewrite <- (takeWhile_dropWhile isDigit s) at 1.
    by rewrite append_assoc, dropWhile_app by apply allChars_takeWhile. }
  pose proof (allChars_dropWhile isDigit _ _ Hkey) as Hsuf.
  unfold bracketLike in Hnb.
  destruct (dropWhile isDigit s) as [|c t] eqn:Hd.
  - rewrite append_nil_l, startsStep_dropWhile_digit by done.
    destruct r as [|c r']; [done|].
    by rewrite (startsStep_not_bracket _ c r' Hr).
  - rewrite append_cons. simpl. rewrite (dropWhile_head _ _ _ _ Hd).
    destruct (Ascii.eqb_spec c "]") as [->|]; [|done].
    destruct t as [|c' t']; [done|].
    simpl in Hsuf. apply andb_prop in Hsuf as [Hc' _].
    by rewrite append_cons, isKeyChar_matchNextType.
Qed.

Lemma matchAt_segment i s r :
  isSegment s → ¬ bracketLike s → startsStep r →
  matchAt i (s +:+ r) =
    Some {| index := i; match1 := s; groups := GPathPart s;
            nextType := separatorOf r;
            matchLength := String.length s + String.length (separatorOf r) |}.
Proof.
  intros Hs Hnb Hr. unfold matchAt. rewrite matchArray_segment by done.
  destruct Hs as [Hne Hkey]. unfold matchPathPart.
  rewrite takeWhile_app, dropWhile_app by done.
  rewrite startsStep_takeWhile_key, startsStep_dropWhile_key by done.
  rewrite append_nil_r, startsStep_matchNextType by done.
  by destruct s.
Qed.

Lemma matchAt_bracket i d r :
  allChars isDigit d = true → startsStep r →
  matchAt i (d +:+ "]" +:+ r) =
    Some {| index := i; match1 := d +:+ "]"; groups := GArray d;
            nextType := separatorOf r;
            matchLength := String.length d + 1 + String.length (separatorOf r) |}.
Proof.
  intros Hd Hr. unfold matchAt, matchArray.
  rewrite takeWhile_app, dropWhile_app by done.
  change ("]" +:+ r) with (String "]" r). simpl.
  by rewrite append_nil_r, startsStep_matchNextType.
Qed.

Lemma substring_prefix' n (a b : string) :
  n = String.length a → String.substring 0 n (a +:+ b) = a.
Proof. intros ->. apply substring_prefix. Qed.

Ltac string_length :=
  repeat first [rewrite length_append | progress simpl]; lia.

(** Passing over the characters of a match. *)
Lemma matchAll_skip a k i b :
  matchAll (String.length a + k) i (a +:+ b) = matchAll k (i + String.length a) b.
Proof.
  revert i. induction a as [|c a IH]; intros i.
  - simpl. by rewrite append_nil_l, Nat.add_0_r.
  - rewrite append_cons. simpl. rewrite IH. f_equal. lia.
Qed.

Lemma matchAll_separator i r :
  startsStep r →
  matchAll (String.length (separatorOf r)) i r =
  matchAll 0 (i + String.length (separatorOf r)) (slice1 r).
Proof.
  intros [->|[r' [->| ->]]]; simpl; [done|..]; f_equal; lia.
Qed.

(** A match at the start of [t +:+ r] that covers [t] and the separator. *)
Lemma matchAll_hit i t r m :
  t ≠ "" →
  matchAt i (t +:+ r) = Some m →
  matchLength m = String.length t + String.length (separatorOf r) →
  matchAll 0 i (t +:+ r) =
  m :: matchAll (String.length (separatorOf r)) (i + String.length t) r.
Proof.
  intros Hne Hm Hlen. destruct t as [|c t]; [done|].
  rewrite append_cons in *. simpl. rewrite Hm, Hlen. simpl.
  rewrite Nat.sub_0_r, matchAll_skip. do 2 f_equal. lia.
Qed.

Lemma separatorOf_renderSteps xs :
  (if String.eqb (separatorOf (renderSteps xs)) "[" then EmptyArray else EmptyObject)
  = defaultBefore xs.
Proof. by destruct xs as [|[s|d] xs]. Qed.

Lemma slice1_renderSteps_dot s xs :
  slice1 (renderSteps (Dot s :: xs)) = s +:+ renderSteps xs.
Proof. reflexivity. Qed.

Lemma slice1_renderSteps_bracket d xs :
  slice1 (renderSteps (Bracket d :: xs)) = d +:+ "]" +:+ renderSteps xs.
Proof. simpl. unfold renderStep. by rewrite !append_cons, append_nil_l, append_assoc. Qed.

Lemma extractPathParts_steps xs pre :
  Forall wfStep xs →
  toPathPart (pre +:+ renderSteps xs)
    <$> matchAll (String.length (separatorOf (renderSteps xs)))
                 (String.length pre) (renderSteps xs)
  = partsOfSteps pre xs.
Proof.
  intros Hwf. revert pre. induction Hwf as [|x xs Hx Hxs IH]; intros pre.
  { reflexivity. }
  rewrite matchAll_separator by apply renderSteps_startsStep.
  pose proof (renderSteps_startsStep xs) as Hr.
  assert (pre +:+ renderSteps (x :: xs) = (pre +:+ renderStep x) +:+ renderSteps xs)
    as -> by (simpl; by rewrite append_assoc).
  destruct x as [s|d]; simpl in Hx.
  - destruct Hx as [Hs Hnb].
    rewrite slice1_renderSteps_dot.
    rewrite (matchAll_hit _ _ _ _ (proj1 Hs) (matchAt_segment _ s _ Hs Hnb Hr) eq_refl).
    rewrite fmap_cons. simpl partsOfSteps. f_equal.
    + unfold toPathPart. simpl. rewrite separatorOf_renderSteps. f_equal.
      apply substring_prefix'. string_length.
    + rewrite <- IH. do 2 f_equal. string_length.
  - rewrite slice1_renderSteps_bracket.
    assert (d +:+ "]" ≠ "") as Hne by (by destruct d).
    rewrite <- (append_assoc d "]").
    change (String.length (separatorOf (renderSteps (Bracket d :: xs)))) with 1.
    pose proof (matchAt_bracket (String.length pre + 1) d _ Hx Hr) as Hm.
    rewrite <- append_assoc in Hm.
    rewrite (matchAll_hit _ (d +:+ "]") _ _ Hne Hm)
      by string_length.
    rewrite fmap_cons. simpl partsOfSteps. f_equal.
    + unfold toPathPart. simpl. rewrite separatorOf_renderSteps. f_equal.
      apply substring_prefix'. string_length.
    + rewrite <- IH. do 2 f_equal. string_length.
Qed.

(** The tokenizer on the paths of the grammar in which no segment is made of
    digits and a closing bracket: the parts are the segments in order, an
    object segment with its text as key, an array segment with its digits as
    key (none for a push); the default of a part is an array exactly when
    the next character is an opening bracket; [pathToPart] is the prefix of
    the path that ends with the part. *)
Lemma extractPathParts_grammar p :
  wfPath p → extractPathParts (render p) = partsOf p.
Proof.
  intros [[Hs Hnb] Hsteps]. unfold extractPathParts, render, partsOf.
  pose proof (renderSteps_startsStep (steps p)) as Hr.
  rewrite (matchAll_hit _ _ _ _ (proj1 Hs) (matchAt_segment _ _ _ Hs Hnb Hr) eq_refl).
  rewrite fmap_cons. f_equal.
  - unfold toPathPart. simpl. rewrite separatorOf_renderSteps. f_equal.
    apply substring_prefix.
  - by apply extractPathParts_steps.
Qed.

(** The path [a[0].b] of the documentation, through the lemma above. *)
Lemma extractPathParts_grammar_example :
  extractPathParts "a[0].b"
  = [ {| path := "a"; type := object; default := EmptyArray; pathToPart := "a" |};
      {| path := "0"; type := array; default := EmptyObject; pathToPart := "a[0]" |};
      {| path := "b"; type := object; default := EmptyObject; pathToPart := "a[0].b" |} ].
Proof.
  apply (extractPathParts_grammar {| first := "a"; steps := [Bracket "0"; Dot "b"] |}).
  split; [|repeat constructor]; by vm_compute.
Defined.

(** ** The default transform *)

Section TransformFacts.
Variable Number : FormDataEntryValue → number.

Lemma BooleanOfNumber_true x : BooleanOfNumber x = true ↔ nonZeroNumber x.
Proof.
  unfold nonZeroNumber. destruct x as [[]|[]| |[] m e]; simpl;
    split; try done; try (intros (? & ? & ?); done).
Qed.

Lemma defaultTransform_plain key value :
  hasSigil key = false →
  defaultTransform Number (key, value) = (key, leafOfEntryValue value).
Proof.
  unfold hasSigil, defaultTransform. simpl.
  intros [[-> ->]%orb_false_elim ->]%orb_false_elim. done.
Qed.

(** What the default transform gives for each sigil and without one. *)
Lemma defaultTransform_cases (key : string) (value : FormDataEntryValue) :
  defaultTransform Number ("+" +:+ key, value) = (key, LNumber (Number value))
  ∧ (Number value = S754_nan →
     defaultTransformEntry Number ("+" +:+ key, value) (defaultTransform Number)
     = Ok (key, LNumber S754_nan))
  ∧ (∃ b : bool,
       defaultTransform Number ("&" +:+ key, value) = (key, LBoolean b)
       ∧ (b = true ↔ value = Text "on" ∨ value = Text "true"
                     ∨ nonZeroNumber (Number value)))
  ∧ defaultTransform Number ("-" +:+ key, value) = (key, LNull)
  ∧ (hasSigil key = false →
     defaultTransform Number (key, value) = (key, leafOfEntryValue value)
     ∧ ∀ f, defaultTransform Number (key, Blob f) = (key, LFile f)).
Proof.
  split; [done|]. split.
  { intros HNaN. unfold defaultTransformEntry, defaultTransform. simpl.
    by rewrite HNaN. }
  split.
  { eexists. split; [reflexivity|].
    rewrite !orb_true_iff, !bool_decide_eq_true, BooleanOfNumber_true.
    tauto. }
  split; [done|].
  intros Hplain. split; [by apply defaultTransform_plain|].
  intros f. by apply defaultTransform_plain.
Qed.

End TransformFacts.


(** ** Lengths as numbers *)

Lemma iter_xO p k : Pos.iter xO p k = (p * 2 ^ k)%positive.
Proof.
  induction k as [|k IH] using Pos.peano_ind.
  - simpl. lia.
  - rewrite Pos.iter_succ, IH, Pos.pow_succ_r. lia.
Qed.

Lemma digits2_iter_xO p k :
  digits2_pos (Pos.iter xO p k) = (digits2_pos p + k)%positive.
Proof.
  induction k as [|k IH] using Pos.peano_ind.
  - simpl. lia.
  - rewrite Pos.iter_succ. simpl. rewrite IH. lia.
Qed.

Lemma digits2_pos_lower p : (2 ^ (Zpos (digits2_pos p) - 1) ≤ Zpos p)%Z.
Proof.
  induction p as [p IH|p IH|]; simpl digits2_pos.
  - rewrite Pos2Z.inj_succ.
    replace (Z.succ (Zpos (digits2_pos p)) - 1)%Z
      with (Z.succ (Zpos (digits2_pos p) - 1))%Z by lia.
    rewrite Z.pow_succ_r by lia. lia.
  - rewrite Pos2Z.inj_succ.
    replace (Z.succ (Zpos (digits2_pos p)) - 1)%Z
      with (Z.succ (Zpos (digits2_pos p) - 1))%Z by lia.
    rewrite Z.pow_succ_r by lia. lia.
  - simpl. lia.
Qed.

Lemma digits2_pos_bound p : (Zpos p < 2 ^ 53)%Z → (Zpos (digits2_pos p) ≤ 53)%Z.
Proof.
  intros Hp. destruct (Z.le_gt_cases (Zpos (digits2_pos p)) 53) as [|Hgt]; [done|].
  pose proof (digits2_pos_lower p).
  assert (2 ^ 53 ≤ 2 ^ (Zpos (digits2_pos p) - 1))%Z by (apply Z.pow_le_mono_r; lia).
  lia.
Qed.

(** The operations of [SpecFloat] on integers, as the lemmas of [ZArith] name
    them. *)
Ltac stdlib_Z :=
  change IntDef.Z.sub with Z.sub in *;
  change IntDef.Z.add with Z.add in *;
  change IntDef.Z.max with Z.max in *;
  change IntDef.Z.leb with Z.leb in *;
  change IntDef.Z.eqb with Z.eqb in *.

Lemma binary_round_exact p :
  (Zpos p < 2 ^ 53)%Z →
  ∃ m e, binary_round 53 1024 false p 0 = S754_finite false m e
    ∧ (-52 ≤ e ≤ 0)%Z ∧ (Zpos m = Zpos p * 2 ^ (- e))%Z.
Proof.
  intros Hp. pose proof (digits2_pos_bound p Hp) as Hd.
  unfold binary_round, shl_align, fexp, emin. stdlib_Z.
  rewrite Z.add_0_r, Z.sub_0_r.
  rewrite Z.max_l by lia.
  destruct (Zpos (digits2_pos p) - 53)%Z as [|k|k] eqn:Hk; [|lia|].
  - (* exactly 53 digits *)
    exists p, 0%Z. split; [|split; [lia|simpl; lia]].
    unfold binary_round_aux, shr_fexp, fexp, emin. simpl Zdigits2. stdlib_Z.
    rewrite Z.add_0_r, Z.sub_0_r, Z.max_l by lia.
    rewrite Hk. simpl. stdlib_Z. rewrite Z.add_0_r, Z.sub_0_r, Z.max_l by lia.
    rewrite Hk. reflexivity.
  - exists (Pos.iter xO p k), (Z.neg k). split; [|split; [lia|]].
    + unfold binary_round_aux, shr_fexp, fexp, emin. simpl Zdigits2. stdlib_Z.
      rewrite digits2_iter_xO.
      replace (Z.pos (digits2_pos p + k) + Z.neg k - 53)%Z with (Z.neg k) by lia.
      rewrite Z.max_l by lia. rewrite Z.sub_diag. simpl. stdlib_Z.
      rewrite digits2_iter_xO.
      replace (Z.pos (digits2_pos p + k) + Z.neg k - 53)%Z with (Z.neg k) by lia.
      rewrite Z.max_l by lia. rewrite Z.sub_diag. simpl. reflexivity.
    + rewrite iter_xO. simpl Z.opp. rewrite Pos2Z.inj_mul, Pos2Z.inj_pow. reflexivity.
Qed.

Lemma integerValue_NumberOfNat n :
  (N.of_nat n < 2 ^ 53)%N → integerValue (NumberOfNat n) = Some (N.of_nat n).
Proof.
  intros Hn. unfold NumberOfNat, binary_normalize.
  destruct n as [|n]; [done|].
  change (Z.of_nat (S n)) with (Zpos (Pos.of_succ_nat n)).
  change (N.of_nat (S n)) with (Npos (Pos.of_succ_nat n)) in *.
  set (p := Pos.of_succ_nat n) in *.
  destruct (binary_round_exact p) as (m & e & -> & He & Hm); [lia|].
  unfold integerValue. destruct e as [|k|k]; [|lia|].
  - f_equal. simpl in Hm. lia.
  - assert (N.pos m = N.pos p * 2 ^ N.pos k)%N as ->.
    { apply N2Z.inj. rewrite N2Z.inj_mul, N2Z.inj_pow. exact Hm. }
    rewrite N.Div0.mod_mul. simpl N.eqb. cbv iota.
    rewrite N.div_mul; [done|]. apply N.pow_nonzero. lia.
Qed.

(** The key of a length, as [a[a.length]] computes it. *)
Lemma ToPropertyKey_NumberOfNat n :
  (N.of_nat n ≤ maxArrayLength)%N →
  ToPropertyKey (NumberOfNat n) = lengthKey n.
Proof.
  intros Hn. unfold ToPropertyKey, lengthKey.
  rewrite integerValue_NumberOfNat by (unfold maxArrayLength in Hn; lia).
  by rewrite Nat2N.id.
Qed.

Lemma ToPropertyKey_valid x : validKey (ToPropertyKey x).
Proof.
  unfold ToPropertyKey. destruct (integerValue x) as [n|]; [|done].
  destruct (n <? maxArrayLength)%N eqn:Hn; [|done].
  simpl. rewrite N2Nat.id. by apply N.ltb_lt.
Qed.

(** ** Arrays *)

Lemma namedGet_namedSet n v ps : namedGet n (namedSet n v ps) = Some v.
Proof.
  induction ps as [|[m w] ps IH]; simpl.
  - by rewrite decide_True.
  - destruct (decide (m = n)) as [->|Hne]; simpl.
    + by rewrite decide_True.
    + by rewrite decide_False.
Qed.

(** Reading back what was written. *)
Lemma arrayGet_arraySet a k v : arrayGet (arraySet a k v) k = Some v.
Proof.
  destruct k as [i|n]; simpl; [|apply namedGet_namedSet].
  destruct (decide (i < length (elems a))) as [Hlt|Hge].
  - by rewrite list_lookup_insert_eq.
  - rewrite lookup_app_r by lia.
    rewrite lookup_app_r by (rewrite length_replicate; lia).
    rewrite length_replicate.
    by replace (i - length (elems a) - (i - length (elems a))) with 0 by lia.
Qed.

(** A write at the length appends. *)
Lemma arraySet_length a v :
  arraySet a (Index (length (elems a))) v
  = {| elems := elems a ++ [Some v]; named := named a |}.
Proof.
  simpl. rewrite decide_False by lia. by rewrite Nat.sub_diag.
Qed.

(** ** The heap *)

Lemma objectAt_setContainer l o st :
  objectAt (setContainer l (CObject o) st) l = o.
Proof. unfold objectAt, setContainer. simpl. by rewrite lookup_insert_eq. Qed.

Lemma arrayAt_setContainer l a st :
  arrayAt (setContainer l (CArray a) st) l = a.
Proof. unfold arrayAt, setContainer. simpl. by rewrite lookup_insert_eq. Qed.

Lemma heap_setContainer_ne l l' c st :
  l' ≠ l → heap (setContainer l c st) !! l' = heap st !! l'.
Proof. intros Hne. unfold setContainer. simpl. by rewrite lookup_insert_ne. Qed.

Lemma heap_setProperty_ne l l' key v st :
  l' ≠ l → heap (setProperty l key v st) !! l' = heap st !! l'.
Proof.
  intros Hne. unfold setProperty. case_decide; [done|].
  by apply heap_setContainer_ne.
Qed.

Lemma arrayAt_addOrdered l l' st : arrayAt (addOrdered l st) l' = arrayAt st l'.
Proof. reflexivity. Qed.

Lemma elem_of_addOrdered l l' st :
  l' ∈ arraysWithOrder (addOrdered l st) ↔ l' = l ∨ l' ∈ arraysWithOrder st.
Proof.
  unfold addOrdered. simpl. case_decide.
  - split; [by right|]. by intros [->|].
  - rewrite elem_of_app, list_elem_of_singleton. tauto.
Qed.

(** ** [handlePathPart] *)

Section InserterFacts.
Variable Number : FormDataEntryValue → number.

(** The outcome of [handlePathPart], case by case. *)
Lemma handlePathPart_object p cur st :
  type p = object →
  handlePathPart Number p cur st =
    if isArray st cur then Throw (DuplicateKeyError (pathToPart p))
    else Ok (getProperty st cur (path p), setProperty cur (path p), st).
Proof. intros Hty. unfold handlePathPart. by rewrite Hty. Qed.

Lemma handlePathPart_not_array p cur st :
  type p = array → isArray st cur = false →
  handlePathPart Number p cur st = Throw (DuplicateKeyError (pathToPart p)).
Proof. intros Hty Harr. unfold handlePathPart. by rewrite Hty, Harr. Qed.

Lemma handlePathPart_push p cur st :
  type p = array → isArray st cur = true → path p = "" →
  handlePathPart Number p cur st =
    if bool_decide (cur ∈ arraysWithOrder st)
    then Throw (MixedArrayError (pathToPart p))
    else
      let order := ToPropertyKey (NumberOfNat (length (elems (arrayAt st cur)))) in
      Ok (arrayGet (arrayAt st cur) order, setElement cur order, st).
Proof.
  intros Hty Harr Hpath. unfold handlePathPart. rewrite Hty, Harr, Hpath. simpl.
  by destruct (bool_decide (cur ∈ arraysWithOrder st)).
Qed.

Lemma handlePathPart_index p cur st :
  type p = array → isArray st cur = true → path p ≠ "" →
  handlePathPart Number p cur st =
    if bool_decide (cur ∉ arraysWithOrder st)
       && bool_decide (0 < length (elems (arrayAt st cur)))
    then Throw (MixedArrayError (pathToPart p))
    else
      let order := ToPropertyKey (Number (Text (path p))) in
      Ok (arrayGet (arrayAt st cur) order, setElement cur order,
          addOrdered cur st).
Proof.
  intros Hty Harr Hpath. unfold handlePathPart. rewrite Hty, Harr.
  apply String.eqb_neq in Hpath. rewrite Hpath. simpl.
  destruct (decide (cur ∈ arraysWithOrder st)) as [Hin|Hnin].
  - by rewrite (bool_decide_eq_true_2 _ Hin), (bool_decide_eq_false_2 (cur ∉ _)) by tauto.
  - by rewrite (bool_decide_eq_false_2 _ Hnin), (bool_decide_eq_true_2 (cur ∉ _)).
Qed.

(** What [handlePathPart] returns when it returns: the value at the position
    the part addresses, the setter of that position, and the state in which
    only the set of ordered arrays may have grown. *)
Lemma handlePathPart_Ok p cur st nv set st' :
  handlePathPart Number p cur st = Ok (nv, set, st') →
  nv = valueAt st cur (positionOf Number st cur p)
  ∧ heap st' = heap st ∧ next st' = next st
  ∧ match positionOf Number st cur p with
    | PropertyOf key => set = setProperty cur key ∧ isArray st cur = false
    | ElementOf order => set = setElement cur order ∧ isArray st cur = true
    end.
Proof.
  unfold positionOf. destruct (type p) eqn:Hty.
  - rewrite handlePathPart_object by done.
    destruct (isArray st cur) eqn:Harr; [done|]. by intros [= <- <- <-].
  - destruct (isArray st cur) eqn:Harr.
    2:{ by rewrite handlePathPart_not_array. }
    destruct (String.eqb_spec (path p) "") as [Hpath|Hpath].
    + rewrite handlePathPart_push by done.
      case_bool_decide; [done|]. by intros [= <- <- <-].
    + rewrite handlePathPart_index by done.
      destruct (_ && _); [done|]. by intros [= <- <- <-].
Qed.

Lemma handlePathPart_Throw p cur st e :
  handlePathPart Number p cur st = Throw e → isCoreError e.
Proof.
  unfold handlePathPart.
  repeat match goal with
         | |- context [match ?x with _ => _ end] => destruct x
         end; by intros [= <-].
Qed.


(** The walk stops at the first part that throws. *)
Lemma forEachPart_Throw_first p rest value cur st e :
  handlePathPart Number p cur st = Throw e →
  forEachPart Number (p :: rest) value cur st = Throw e.
Proof. intros H. simpl. by rewrite H. Qed.

(** The last part of a walk. *)
Lemma forEachPart_last p value cur st nv set st' :
  handlePathPart Number p cur st = Ok (nv, set, st') →
  forEachPart Number [p] value cur st =
    match nv with
    | Some _ => Throw (DuplicateKeyError (pathToPart p))
    | None => Ok (set (Leaf value) st')
    end.
Proof. intros H. simpl. by rewrite H. Qed.

(** A read that finds nothing is not a read of [__proto__]. *)
Lemma getProperty_None st l key :
  getProperty st l key = None →
  objectAt st l !! key = None ∧ key ∉ inheritedNames.
Proof.
  unfold getProperty. destruct (objectAt st l !! key); [done|].
  destruct (decide (key = "__proto__")); [done|].
  destruct (decide (key ∈ functionNames)); [done|]. intros _.
  split; [done|]. unfold inheritedNames. by intros [?|?]%elem_of_cons.
Qed.

(** Under a name that [Object.prototype] does not define, a read is a
    lookup and a write an insertion. *)
Lemma getProperty_lookup st l key :
  key ∉ inheritedNames → getProperty st l key = objectAt st l !! key.
Proof.
  intros Hown. unfold getProperty. destruct (objectAt st l !! key); [done|].
  assert (key ≠ "__proto__") by (intros ->; apply Hown; by left).
  assert (key ∉ functionNames) by (intros ?; apply Hown; by right).
  by rewrite !decide_False.
Qed.

Lemma setProperty_own l key v st :
  key ∉ inheritedNames →
  setProperty l key v st
  = setContainer l (CObject (<[key := v]> (objectAt st l))) st.
Proof.
  intros Hown. unfold setProperty. rewrite decide_False; [done|].
  intros ->. apply Hown. by left.
Qed.

(** What a read finds in the tree is an own property. *)
Lemma getProperty_own st l key v :
  getProperty st l key = Some v → (∀ b, v ≠ Inherited b) →
  objectAt st l !! key = Some v.
Proof.
  unfold getProperty. destruct (objectAt st l !! key) as [w|]; [done|].
  destruct (decide (key = "__proto__"));
    [intros [= <-] H; by destruct (H ObjectPrototype)|].
  destruct (decide (key ∈ functionNames)); [|done].
  intros [= <-] H. by destruct (H (BuiltinFunction key)).
Qed.


(** ** The test before the walk descends *)

Lemma isLeafConflict_Leaf st x : isLeafConflict st (Some (Leaf x)) = true.
Proof. by destruct x. Qed.

Lemma isLeafConflict_Ref st l : isLeafConflict st (Some (Ref l)) = false.
Proof.
  unfold isLeafConflict, isJsonObject. simpl. by destruct (isArray st l).
Qed.

(** A part before the last, once [handlePathPart] has resolved it: a leaf
    or a function at its position throws, a container of the tree is
    entered, [Object.prototype] is entered, and where nothing is defined
    the default of the part is allocated and entered. *)
Lemma forEachPart_next p q rest value cur st nv set st1 :
  handlePathPart Number p cur st = Ok (nv, set, st1) →
  forEachPart Number (p :: q :: rest) value cur st =
    match nv with
    | Some (Leaf _) | Some (Inherited (BuiltinFunction _)) =>
        Throw (DuplicateKeyError (pathToPart p))
    | Some (Ref l) => forEachPart Number (q :: rest) value l (set (Ref l) st1)
    | Some (Inherited ObjectPrototype) =>
        inObjectPrototype (q :: rest) (set (Inherited ObjectPrototype) st1)
    | None =>
        forEachPart Number (q :: rest) value (alloc (default p) st1).1
          (set (Ref (alloc (default p) st1).1) (alloc (default p) st1).2)
    end.
Proof.
  intros H. cbn [forEachPart]. rewrite H. cbn [mbind Result_bind].
  destruct nv as [[x|l|[name|]]|]; try done.
  - by rewrite isLeafConflict_Leaf.
  - by rewrite isLeafConflict_Ref.
Qed.


(** A part whose kind differs from the kind of the current
    container makes the walk throw [DuplicateKeyError] with the [pathToPart]
    of that part, wherever the part stands in the path; so does a part that
    is not the last and whose position holds a leaf, be it a text, a number,
    a boolean, null or a [File]. *)
Lemma kind_or_leaf_conflict p rest value cur st :
  ((type p = object ∧ isArray st cur = true)
   ∨ (type p = array ∧ isArray st cur = false) →
   forEachPart Number (p :: rest) value cur st = Throw (DuplicateKeyError (pathToPart p)))
  ∧ (∀ x set st',
       handlePathPart Number p cur st = Ok (Some (Leaf x), set, st') →
       rest ≠ [] →
       valueAt st cur (positionOf Number st cur p) = Some (Leaf x)
       ∧ forEachPart Number (p :: rest) value cur st
         = Throw (DuplicateKeyError (pathToPart p))).
Proof.
  split.
  - intros [[Hty Harr]|[Hty Harr]]; apply forEachPart_Throw_first.
    + by rewrite handlePathPart_object, Harr.
    + by apply handlePathPart_not_array.
  - intros x set st' H Hrest. split.
    + by apply handlePathPart_Ok in H as (<- & _).
    + destruct rest as [|q rest]; [done|].
      by rewrite (forEachPart_next _ _ _ _ _ _ _ _ _ H).
Qed.

(** On an array that is in [arraysWithOrder], that is one
    that an index has addressed before, a part with the empty key throws
    [MixedArrayError]; on an array that is not in it and is not empty, a
    part with an index throws it too. The error carries the [pathToPart] of
    the part. *)
Lemma mixed_addressing p rest value cur st :
  type p = array → isArray st cur = true →
  (path p = "" ∧ cur ∈ arraysWithOrder st)
  ∨ (path p ≠ "" ∧ (cur ∉ arraysWithOrder st)
     ∧ 0 < length (elems (arrayAt st cur))) →
  forEachPart Number (p :: rest) value cur st = Throw (MixedArrayError (pathToPart p)).
Proof.
  intros Hty Harr Hmix. apply forEachPart_Throw_first.
  destruct Hmix as [[Hpath Hin]|(Hpath & Hnin & Hlen)].
  - rewrite handlePathPart_push by done. by rewrite bool_decide_eq_true_2.
  - rewrite handlePathPart_index by done.
    by rewrite !bool_decide_eq_true_2.
Qed.

(** An index registers the array it addresses. *)
Lemma handlePathPart_registers p cur st nv set st' :
  type p = array → path p ≠ "" →
  handlePathPart Number p cur st = Ok (nv, set, st') →
  cur ∈ arraysWithOrder st'.
Proof.
  intros Hty Hpath H.
  destruct (isArray st cur) eqn:Harr.
  2:{ by rewrite handlePathPart_not_array in H. }
  rewrite handlePathPart_index in H by done.
  destruct (_ && _); [done|]. injection H as _ _ <-.
  apply elem_of_addOrdered. by left.
Qed.

End InserterFacts.

(** ** The loop over the entries *)

Section EntriesFacts.
Variable Number : FormDataEntryValue → number.

Lemma forEntries_app rm te pre post st :
  forEntries Number rm te (pre ++ post) st =
  forEntries Number rm te pre st ≫= forEntries Number rm te post.
Proof.
  revert st. induction pre as [|entry pre IH]; intros st; [done|]. simpl.
  destruct (rm && isEmptyString entry.2); [apply IH|].
  destruct (te entry (defaultTransform Number)) as [[path value]|e|key];
    [|done..].
  simpl. destruct (forEachPart Number (extractPathParts path) value root st);
    [apply IH|done..].
Qed.

Lemma isEmptyString_kept entry : isEmptyString entry.2 = false ↔ keptEntry entry.
Proof. unfold isEmptyString, keptEntry. by rewrite bool_decide_eq_false. Qed.

(** With [removeEmptyString] the loop does what it does without the option
    on the entries whose value is not the empty string. *)
Lemma forEntries_removeEmptyString te formData st :
  forEntries Number true te formData st =
  forEntries Number false te (filter keptEntry formData) st.
Proof.
  revert st. induction formData as [|entry rest IH]; intros st; [done|].
  simpl forEntries at 1.
  destruct (isEmptyString entry.2) eqn:Hempty; simpl.
  - rewrite filter_cons_False; [apply IH|].
    rewrite <- isEmptyString_kept. by rewrite Hempty.
  - rewrite filter_cons_True by (by apply isEmptyString_kept). simpl.
    destruct (te entry (defaultTransform Number)) as [[path value]|e|key];
      [|done..].
    simpl. destruct (forEachPart Number (extractPathParts path) value root st);
      [apply IH|done..].
Qed.

(** The option [removeEmptyString] amounts to dropping the entries whose
    value is the empty text before anything else. *)
Lemma parseFormData_removeEmptyString te formData :
  parseFormData Number true te formData =
  parseFormData Number false te (filter keptEntry formData).
Proof. unfold parseFormData. by rewrite forEntries_removeEmptyString. Qed.

(** An entry whose transformed path is empty changes nothing. *)
Lemma forEntries_empty_path rm te entry rest value st :
  te entry (defaultTransform Number) = Ok ("", value) →
  forEntries Number rm te (entry :: rest) st = forEntries Number rm te rest st.
Proof.
  intros Hte. simpl. destruct (rm && isEmptyString entry.2); [done|].
  by rewrite Hte.
Qed.

(** An entry whose transformed path is empty can be left out. *)
Lemma parseFormData_empty_path rm te pre entry post value :
  te entry (defaultTransform Number) = Ok ("", value) →
  extractPathParts "" = []
  ∧ (∀ st, forEachPart Number (extractPathParts "") value root st = Ok st)
  ∧ parseFormData Number rm te (pre ++ entry :: post)
    = parseFormData Number rm te (pre ++ post).
Proof.
  intros Hte. split; [done|]. split; [done|].
  unfold parseFormData. rewrite !forEntries_app.
  destruct (forEntries Number rm te pre initialState) as [st|e|key]; [|done..].
  unfold mbind, Result_bind.
  by rewrite (forEntries_empty_path _ _ _ _ _ _ Hte).
Qed.

(** ** Error kinds *)

Lemma inObjectPrototype_Throw parts st e :
  inObjectPrototype parts st = Throw e → isCoreError e.
Proof.
  destruct parts as [|p rest]; [done|]. simpl.
  destruct (type p); [|by intros [= <-]].
  destruct (objectPrototypeMember (path p)); [|done]. by intros [= <-].
Qed.

Lemma forEachPart_Throw parts value cur st e :
  forEachPart Number parts value cur st = Throw e → isCoreError e.
Proof.
  revert cur st. induction parts as [|p rest IH]; intros cur st; [done|].
  destruct (handlePathPart Number p cur st) as [[[nv set] st']|e'|key] eqn:H.
  2:{ rewrite (forEachPart_Throw_first Number _ _ _ _ _ _ H). intros [= <-].
      by eapply handlePathPart_Throw. }
  2:{ simpl. by rewrite H. }
  destruct rest as [|q rest].
  { rewrite (forEachPart_last Number _ _ _ _ _ _ _ H).
    destruct nv; [|done]. by intros [= <-]. }
  rewrite (forEachPart_next Number _ _ _ _ _ _ _ _ _ H).
  destruct nv as [[x|l|[name|]]|].
  - by intros [= <-].
  - apply IH.
  - by intros [= <-].
  - apply inObjectPrototype_Throw.
  - apply IH.
Qed.

(** An error of the loop is an error of the library or what the callback
    threw on some entry. *)
Lemma forEntries_Throw rm te formData st e :
  forEntries Number rm te formData st = Throw e →
  isCoreError e
  ∨ ∃ entry, entry ∈ formData ∧ te entry (defaultTransform Number) = Throw e.
Proof.
  revert st. induction formData as [|entry rest IH]; intros st; [done|].
  simpl. intros H.
  assert (forEntries Number rm te rest st = Throw e →
          isCoreError e ∨ ∃ entry0, entry0 ∈ entry :: rest
            ∧ te entry0 (defaultTransform Number) = Throw e) as Hrest.
  { intros [?|(entry0 & ? & ?)]%IH; [by left|right].
    exists entry0. split; [by right|done]. }
  destruct (rm && isEmptyString entry.2); [by apply Hrest|].
  destruct (te entry (defaultTransform Number)) as [[path value]|e'|key] eqn:Hte.
  2:{ injection H as <-. right. exists entry. split; [by left|done]. }
  2:{ done. }
  simpl in H.
  destruct (forEachPart Number (extractPathParts path) value root st)
    as [st'|e'|key] eqn:Hwalk; simpl in H.
  - destruct (IH _ H) as [?|(entry0 & ? & ?)]; [by left|right].
    exists entry0. split; [by right|done].
  - injection H as <-. left. by eapply forEachPart_Throw.
  - done.
Qed.


(** What the walk of an entry throws comes out of [parseFormData]. *)
Lemma parseFormData_walk_throws rm te pre entry post st path value e :
  forEntries Number rm te pre initialState = Ok st →
  rm && isEmptyString entry.2 = false →
  te entry (defaultTransform Number) = Ok (path, value) →
  forEachPart Number (extractPathParts path) value root st = Throw e →
  parseFormData Number rm te (pre ++ entry :: post) = Throw e.
Proof.
  intros Hpre Hkept Hte Hwalk. unfold parseFormData.
  rewrite forEntries_app, Hpre. unfold mbind, Result_bind.
  cbn [forEntries]. rewrite Hkept, Hte. unfold mbind, Result_bind.
  by rewrite Hwalk.
Qed.


End EntriesFacts.

(** ** Well-formedness is kept by every step *)

Lemma isArray_Some st l : isArray st l = true ↔ ∃ a, heap st !! l = Some (CArray a).
Proof.
  unfold isArray. destruct (heap st !! l) as [[o|a]|]; split; try done.
  - by intros [a' [=]].
  - by eexists.
  - by intros [a' [=]].
Qed.

Lemma isArray_false_Some st l c :
  heap st !! l = Some c → isArray st l = false → ∃ o, c = CObject o.
Proof. unfold isArray. intros ->. destruct c; [by eexists|done]. Qed.

Lemma wellFormed_initialState : wellFormed initialState.
Proof.
  split; simpl.
  - intros l [c Hc]. apply lookup_singleton_Some in Hc as [<- _]. unfold root. lia.
  - intros l c b [<- <-]%lookup_singleton_Some [key Hkey]. by rewrite lookup_empty in Hkey.
  - intros l c l' [<- <-]%lookup_singleton_Some [key Hkey]. by rewrite lookup_empty in Hkey.
  - intros l c l' [<- <-]%lookup_singleton_Some [key Hkey]. by rewrite lookup_empty in Hkey.
  - intros l Hl. by apply elem_of_nil in Hl.
  - eexists. apply lookup_singleton_eq.
  - intros l a [_ [=]]%lookup_singleton_Some.
  - intros l a [_ [=]]%lookup_singleton_Some.
Qed.

Lemma wellFormed_addOrdered st cur :
  wellFormed st → isArray st cur = true → wellFormed (addOrdered cur st).
Proof.
  intros [Hnext Hvalues Hrefs Hup Hord Hroot Hdense Hlen] Harr. split; try done.
  - intros l [->|Hl]%elem_of_addOrdered; [done|by apply Hord].
  - intros l a Hl Hnot. apply (Hdense l a Hl).
    intros Hin. apply Hnot, elem_of_addOrdered. by right.
Qed.

Lemma holds_newContainer d v : ¬ holds (newContainer d) v.
Proof.
  destruct d; simpl.
  - intros [key Hkey]. by rewrite lookup_empty in Hkey.
  - intros [Hin|[n Hin]]; by apply elem_of_nil in Hin.
Qed.

Lemma wellFormed_alloc d st :
  wellFormed st → wellFormed (alloc d st).2.
Proof.
  intros [Hnext Hvalues Hrefs Hup Hord Hroot Hdense Hlen]. split; simpl.
  - intros l [c Hc]. destruct (decide (l = next st)) as [->|Hne]; [lia|].
    rewrite lookup_insert_ne in Hc by done.
    assert (l < next st) by (apply Hnext; by eexists). lia.
  - intros l c b Hc Hholds. destruct (decide (l = next st)) as [->|Hne].
    + rewrite lookup_insert_eq in Hc. injection Hc as <-.
      by apply holds_newContainer in Hholds.
    + rewrite lookup_insert_ne in Hc by done. by eapply Hvalues.
  - intros l c l' Hc Hholds. destruct (decide (l = next st)) as [->|Hne].
    + rewrite lookup_insert_eq in Hc. injection Hc as <-.
      by apply holds_newContainer in Hholds.
    + rewrite lookup_insert_ne in Hc by done.
      rewrite lookup_insert_is_Some. right. split; [|by eapply Hrefs].
      intros <-. specialize (Hnext (next st) (Hrefs _ _ _ Hc Hholds)). lia.
  - intros l c l' Hc Hholds. destruct (decide (l = next st)) as [->|Hne].
    + rewrite lookup_insert_eq in Hc. injection Hc as <-.
      by apply holds_newContainer in Hholds.
    + rewrite lookup_insert_ne in Hc by done. by eapply Hup.
  - intros l Hl. specialize (Hord l Hl). unfold isArray in *. simpl.
    rewrite lookup_insert_ne; [done|].
    intros <-. apply isArray_Some in Hord as [a Ha].
    specialize (Hnext (next st) (ex_intro _ _ Ha)). lia.
  - destruct Hroot as [o Ho]. exists o. rewrite lookup_insert_ne; [done|].
    intros Heq. specialize (Hnext root (ex_intro _ _ Ho)). lia.
  - intros l a Hl Hnot. destruct (decide (l = next st)) as [->|Hne].
    + rewrite lookup_insert_eq in Hl. destruct d; [done|].
      injection Hl as <-. constructor.
    + rewrite lookup_insert_ne in Hl by done. by eapply Hdense.
  - intros l a Hl. destruct (decide (l = next st)) as [->|Hne].
    + rewrite lookup_insert_eq in Hl. destruct d; [done|].
      by injection Hl as <-.
    + rewrite lookup_insert_ne in Hl by done. by eapply Hlen.
Qed.

Lemma alloc_lookup d st l :
  wellFormed st → is_Some (heap st !! l) →
  heap (alloc d st).2 !! l = heap st !! l.
Proof.
  intros Hwf Hl. simpl. rewrite lookup_insert_ne; [done|].
  intros <-. pose proof (wf_next _ Hwf _ Hl). lia.
Qed.

Lemma alloc_fresh d st : is_Some (heap (alloc d st).2 !! (alloc d st).1).
Proof. simpl. rewrite lookup_insert_eq. by eexists. Qed.

Lemma wellFormed_setProperty st cur key v o :
  wellFormed st → heap st !! cur = Some (CObject o) → validValue st cur v →
  wellFormed (setProperty cur key v st).
Proof.
  intros Hwf Hcur Hv. unfold setProperty. case_decide; [done|].
  destruct Hwf as [Hnext Hvalues Hrefs Hup Hord Hroot Hdense Hlen].
  unfold objectAt. rewrite Hcur. split; simpl.
  - intros l Hl. apply Hnext. apply lookup_insert_is_Some in Hl as [<-|[_ Hl]]; [|done].
    by eexists.
  - intros l c b Hc Hholds.
    destruct (decide (l = cur)) as [->|Hne].
    + rewrite lookup_insert_eq in Hc. injection Hc as <-.
      destruct Hholds as [k Hk]. destruct (decide (k = key)) as [->|Hk'].
      * rewrite lookup_insert_eq in Hk. injection Hk as ->.
        by destruct (proj2 Hv b).
      * rewrite lookup_insert_ne in Hk by done. eapply Hvalues; [done|].
        by exists k.
    + rewrite lookup_insert_ne in Hc by done. by eapply Hvalues.
  - intros l c l' Hc Hholds. rewrite lookup_insert_is_Some'. right.
    destruct (decide (l = cur)) as [->|Hne].
    + rewrite lookup_insert_eq in Hc. injection Hc as <-.
      destruct Hholds as [k Hk]. destruct (decide (k = key)) as [->|Hk'].
      * rewrite lookup_insert_eq in Hk. injection Hk as ->. by apply (proj1 Hv).
      * rewrite lookup_insert_ne in Hk by done. eapply Hrefs; [done|]. by exists k.
    + rewrite lookup_insert_ne in Hc by done. by eapply Hrefs.
  - intros l c l' Hc Hholds.
    destruct (decide (l = cur)) as [->|Hne].
    + rewrite lookup_insert_eq in Hc. injection Hc as <-.
      destruct Hholds as [k Hk]. destruct (decide (k = key)) as [->|Hk'].
      * rewrite lookup_insert_eq in Hk. injection Hk as ->. by apply (proj1 Hv).
      * rewrite lookup_insert_ne in Hk by done. eapply Hup; [done|]. by exists k.
    + rewrite lookup_insert_ne in Hc by done. by eapply Hup.
  - intros l Hl. specialize (Hord l Hl). unfold isArray in *. simpl.
    rewrite lookup_insert_ne; [done|]. intros <-. by rewrite Hcur in Hord.
  - destruct (decide (cur = root)) as [->|Hne].
    + eexists. apply lookup_insert_eq.
    + destruct Hroot as [o' Ho']. exists o'. by rewrite lookup_insert_ne.
  - intros l a Hl Hnot. destruct (decide (l = cur)) as [->|Hne].
    + by rewrite lookup_insert_eq in Hl.
    + rewrite lookup_insert_ne in Hl by done. by eapply Hdense.
  - intros l a Hl. destruct (decide (l = cur)) as [->|Hne].
    + by rewrite lookup_insert_eq in Hl.
    + rewrite lookup_insert_ne in Hl by done. by eapply Hlen.
Qed.

Lemma elem_of_namedSet n v ps m w :
  (m, w) ∈ namedSet n v ps → w = v ∨ (m, w) ∈ ps.
Proof.
  induction ps as [|[m' w'] ps IH]; simpl.
  - intros [=]%list_elem_of_singleton. by left.
  - destruct (decide (m' = n)) as [->|Hne].
    + intros [[=]|Hin]%elem_of_cons; [by left|right]. by right.
    + intros [[= -> ->]|Hin]%elem_of_cons; [right; by left|].
      destruct (IH Hin) as [?|?]; [by left|right]. by right.
Qed.

Lemma holds_arraySet a k v w :
  holds (CArray (arraySet a k v)) w → w = v ∨ holds (CArray a) w.
Proof.
  destruct k as [i|n]; simpl.
  - intros [Hin|Hin]; [|right; by right].
    destruct (decide (i < length (elems a))) as [Hlt|Hge].
    + apply list_elem_of_lookup in Hin as [j Hj].
      destruct (decide (j = i)) as [->|Hne].
      * rewrite list_lookup_insert_eq in Hj by done. left. congruence.
      * rewrite list_lookup_insert_ne in Hj by done.
        right. left. by eapply list_elem_of_lookup_2.
    + rewrite !elem_of_app in Hin. destruct Hin as [Hin|[Hin|Hin]].
      * right. by left.
      * by apply elem_of_replicate in Hin as [[=] _].
      * apply list_elem_of_singleton in Hin. left. congruence.
  - intros [Hin|[m Hin]]; [right; by left|].
    apply elem_of_namedSet in Hin as [?|?]; [by left|right]. right. by exists m.
Qed.

Lemma Forall_is_Some_arraySet_length a v :
  Forall is_Some (elems a) →
  Forall is_Some (elems (arraySet a (lengthKey (length (elems a))) v)).
Proof.
  intros Ha. unfold lengthKey. destruct (_ <? _)%N; [|done].
  rewrite arraySet_length. simpl. apply Forall_app. split; [done|].
  by repeat constructor.
Qed.

Lemma length_arraySet a k v :
  validKey k → (N.of_nat (length (elems a)) ≤ maxArrayLength)%N →
  (N.of_nat (length (elems (arraySet a k v))) ≤ maxArrayLength)%N.
Proof.
  destruct k as [i|n]; simpl; [|done]. intros Hi Ha.
  destruct (decide (i < length (elems a))).
  - by rewrite length_insert.
  - rewrite !length_app, length_replicate. simpl. lia.
Qed.

Lemma wellFormed_setElement st cur order v a :
  wellFormed st → heap st !! cur = Some (CArray a) → validValue st cur v →
  validKey order →
  cur ∈ arraysWithOrder st ∨ order = lengthKey (length (elems a)) →
  wellFormed (setElement cur order v st).
Proof.
  intros [Hnext Hvalues Hrefs Hup Hord Hroot Hdense Hlen] Hcur Hv Hkey Horder.
  unfold setElement, arrayAt. rewrite Hcur. split; simpl.
  - intros l Hl. apply Hnext. apply lookup_insert_is_Some in Hl as [<-|[_ Hl]]; [|done].
    by eexists.
  - intros l c b Hc Hholds.
    destruct (decide (l = cur)) as [->|Hne].
    + rewrite lookup_insert_eq in Hc. injection Hc as <-.
      apply holds_arraySet in Hholds as [<-|Hholds];
        [by destruct (proj2 Hv b)|].
      by eapply Hvalues.
    + rewrite lookup_insert_ne in Hc by done. by eapply Hvalues.
  - intros l c l' Hc Hholds. rewrite lookup_insert_is_Some'. right.
    destruct (decide (l = cur)) as [->|Hne].
    + rewrite lookup_insert_eq in Hc. injection Hc as <-.
      apply holds_arraySet in Hholds as [<-|Hholds]; [by apply (proj1 Hv)|].
      by eapply Hrefs.
    + rewrite lookup_insert_ne in Hc by done. by eapply Hrefs.
  - intros l c l' Hc Hholds.
    destruct (decide (l = cur)) as [->|Hne].
    + rewrite lookup_insert_eq in Hc. injection Hc as <-.
      apply holds_arraySet in Hholds as [<-|Hholds]; [by apply (proj1 Hv)|].
      by eapply Hup.
    + rewrite lookup_insert_ne in Hc by done. by eapply Hup.
  - intros l Hl. specialize (Hord l Hl). unfold isArray in *. simpl.
    destruct (decide (l = cur)) as [->|Hne].
    + by rewrite lookup_insert_eq.
    + by rewrite lookup_insert_ne.
  - destruct Hroot as [o' Ho']. exists o'. rewrite lookup_insert_ne; [done|].
    intros ->. congruence.
  - intros l a' Hl Hnot. destruct (decide (l = cur)) as [->|Hne].
    + rewrite lookup_insert_eq in Hl. injection Hl as <-.
      destruct Horder as [?| ->]; [done|].
      apply Forall_is_Some_arraySet_length. by eapply Hdense.
    + rewrite lookup_insert_ne in Hl by done. by eapply Hdense.
  - intros l a' Hl. destruct (decide (l = cur)) as [->|Hne].
    + rewrite lookup_insert_eq in Hl. injection Hl as <-.
      apply length_arraySet; [done|]. by eapply Hlen.
    + rewrite lookup_insert_ne in Hl by done. by eapply Hlen.
Qed.

Lemma namedGet_elem_of n ps v : namedGet n ps = Some v → (n, v) ∈ ps.
Proof.
  induction ps as [|[m w] ps IH]; simpl; [done|].
  destruct (decide (m = n)) as [->|Hne].
  - intros [= ->]. by left.
  - intros H. right. by apply IH.
Qed.

Lemma arrayGet_holds a k v : arrayGet a k = Some v → holds (CArray a) v.
Proof.
  destruct k as [i|n]; simpl.
  - destruct (elems a !! i) as [[w|]|] eqn:Hi; simpl; try done.
    intros [= ->]. left. by eapply list_elem_of_lookup_2.
  - intros H. right. exists n. by apply namedGet_elem_of.
Qed.

Lemma arrayGet_emptyArray k : arrayGet emptyArray k = None.
Proof. by destruct k as [[|i]|n]. Qed.

(** A value of the tree found at a position is held by the current
    container. *)
Lemma valueAt_holds st cur pos v :
  valueAt st cur pos = Some v → (∀ b, v ≠ Inherited b) →
  ∃ c, heap st !! cur = Some c ∧ holds c v.
Proof.
  destruct pos as [key|order]; simpl.
  - intros H Hv. apply getProperty_own in H; [|done]. revert H.
    unfold objectAt. destruct (heap st !! cur) as [[o|a]|]; try by rewrite lookup_empty.
    intros H. eexists. split; [done|]. by exists key.
  - unfold arrayAt.
    destruct (heap st !! cur) as [[o|a]|]; try by rewrite arrayGet_emptyArray.
    intros H _. eexists. split; [done|]. by eapply arrayGet_holds.
Qed.

Lemma setProperty_frame l key v s :
  arraysWithOrder (setProperty l key v s) = arraysWithOrder s
  ∧ next (setProperty l key v s) = next s
  ∧ ∀ l', is_Some (heap s !! l') → is_Some (heap (setProperty l key v s) !! l').
Proof.
  unfold setProperty. case_decide; [done|]. repeat (split; [done|]).
  intros l' Hl'. simpl. rewrite lookup_insert_is_Some'. by right.
Qed.

Lemma validValue_Leaf st cur x : validValue st cur (Leaf x).
Proof. by split. Qed.

(** In [Object.prototype] a walk throws or writes: it does not return. *)
Lemma inObjectPrototype_Ok q rest st st' :
  inObjectPrototype (q :: rest) st ≠ Ok st'.
Proof.
  simpl. destruct (type q); [|done].
  by destruct (objectPrototypeMember (path q)).
Qed.

Section RunFacts.
Variable Number : FormDataEntryValue → number.

(** After [handlePathPart] the state is well formed, and so is every state
    its setter produces from a well-formed state in which the current
    container and the set of ordered arrays are as [handlePathPart] left
    them. *)
Lemma handlePathPart_wellFormed p cur st nv set st1 :
  handlePathPart Number p cur st = Ok (nv, set, st1) →
  wellFormed st → is_Some (heap st !! cur) →
  wellFormed st1
  ∧ heap st1 = heap st
  ∧ (∀ l, l ∈ arraysWithOrder st → l ∈ arraysWithOrder st1)
  ∧ (∀ l, nv = Some (Ref l) → is_Some (heap st !! l) ∧ cur < l)
  ∧ ∀ s v,
      wellFormed s → heap s !! cur = heap st !! cur →
      arraysWithOrder s = arraysWithOrder st1 → validValue s cur v →
      wellFormed (set v s)
      ∧ arraysWithOrder (set v s) = arraysWithOrder s
      ∧ next (set v s) = next s
      ∧ ∀ l, is_Some (heap s !! l) → is_Some (heap (set v s) !! l).
Proof.
  intros H Hwf [c Hc].
  assert (∀ l, nv = Some (Ref l) → is_Some (heap st !! l) ∧ cur < l) as Hnv.
  { intros l ->. apply handlePathPart_Ok in H as (Hval & _).
    symmetry in Hval. apply valueAt_holds in Hval as (c' & Hc' & Hholds);
      [|done].
    split; [exact (wf_refs _ Hwf _ _ _ Hc' Hholds)|].
    exact (wf_up _ Hwf _ _ _ Hc' Hholds). }
  assert (∀ l l' c' s, is_Some (heap s !! l) →
            is_Some (heap (setContainer l' c' s) !! l)) as Hkeep.
  { intros l l' c' s Hl. simpl. rewrite lookup_insert_is_Some'. by right. }
  destruct (type p) eqn:Hty.
  - rewrite handlePathPart_object in H by done.
    destruct (isArray st cur) eqn:Harr; [done|]. injection H as <- <- <-.
    destruct (isArray_false_Some _ _ _ Hc Harr) as [o ->].
    repeat (split; [done|]). intros s v Hs Hcur Hreg Hv.
    rewrite Hc in Hcur. split; [by eapply wellFormed_setProperty|].
    apply setProperty_frame.
  - destruct (isArray st cur) eqn:Harr.
    2:{ by rewrite handlePathPart_not_array in H. }
    apply isArray_Some in Harr as Ha. destruct Ha as [a Ha].
    assert (arrayAt st cur = a) as Hat by (unfold arrayAt; by rewrite Ha).
    destruct (String.eqb_spec (path p) "") as [Hpath|Hpath].
    + rewrite handlePathPart_push in H by done.
      case_bool_decide; [done|]. injection H as <- <- <-.
      repeat (split; [done|]). intros s v Hs Hcur Hreg Hv.
      rewrite Ha in Hcur. split.
      { eapply wellFormed_setElement; [done..|apply ToPropertyKey_valid|].
        right. rewrite Hat. apply ToPropertyKey_NumberOfNat.
        by eapply (wf_length _ Hwf). }
      repeat (split; [done|]). intros l. apply Hkeep.
    + rewrite handlePathPart_index in H by done.
      destruct (_ && _); [done|]. injection H as <- <- <-.
      split; [by apply wellFormed_addOrdered|]. split; [done|].
      split. { intros l Hl. apply elem_of_addOrdered. by right. }
      split; [done|]. intros s v Hs Hcur Hreg Hv.
      rewrite Ha in Hcur. split.
      { eapply wellFormed_setElement; [done..|apply ToPropertyKey_valid|].
        left. rewrite Hreg. apply elem_of_addOrdered. by left. }
      repeat (split; [done|]). intros l. apply Hkeep.
Qed.

(** The walk of an entry keeps the state well formed; it only adds to the
    allocated locations and to the set of ordered arrays. *)
Lemma forEachPart_wellFormed parts value cur st st' :
  forEachPart Number parts value cur st = Ok st' →
  wellFormed st → is_Some (heap st !! cur) →
  wellFormed st'
  ∧ (∀ l, l ∈ arraysWithOrder st → l ∈ arraysWithOrder st')
  ∧ (∀ l, is_Some (heap st !! l) → is_Some (heap st' !! l)).
Proof.
  revert cur st. induction parts as [|p rest IH]; intros cur st.
  { by intros [= <-]. }
  destruct (handlePathPart Number p cur st) as [[[nv set] st1]|e|key] eqn:H;
    [|by simpl; rewrite H..].
  intros Hwalk Hwf Hcur.
  destruct (handlePathPart_wellFormed _ _ _ _ _ _ H Hwf Hcur)
    as (Hwf1 & Hheap & Hreg & Hnv & Hset).
  destruct rest as [|q rest].
  { rewrite (forEachPart_last Number _ _ _ _ _ _ _ H) in Hwalk.
    destruct nv; [done|]. injection Hwalk as <-.
    destruct (Hset st1 (Leaf value)) as (Hwf' & Hreg' & _ & Halloc');
      [done|by rewrite Hheap|done|apply validValue_Leaf|].
    split; [done|]. split.
    - intros l Hl. rewrite Hreg'. by apply Hreg.
    - intros l Hl. apply Halloc'. by rewrite Hheap. }
  rewrite (forEachPart_next Number _ _ _ _ _ _ _ _ _ H) in Hwalk.
  destruct nv as [[x|l|[name|]]|]; [done| |done| |].
  - destruct (Hset st1 (Ref l)) as (Hwf' & Hreg' & _ & Halloc');
      [done|by rewrite Hheap|done|..].
    { split; [|done]. intros l' [= <-]. rewrite Hheap. by apply Hnv. }
    apply IH in Hwalk as (Hwf'' & Hreg'' & Halloc''); [|done|].
    2:{ apply Halloc'. rewrite Hheap. by apply Hnv. }
    split; [done|]. split.
    + intros l' Hl'. apply Hreg''. rewrite Hreg'. by apply Hreg.
    + intros l' Hl'. apply Halloc'', Halloc'. by rewrite Hheap.
  - by apply inObjectPrototype_Ok in Hwalk.
  - remember (alloc (default p) st1).1 as l eqn:Hl.
    remember (alloc (default p) st1).2 as st2 eqn:Hst2.
    assert (∀ l', is_Some (heap st1 !! l') → is_Some (heap st2 !! l')) as Hkeep.
    { intros l' Hl'. rewrite Hst2, alloc_lookup; done. }
    destruct (Hset st2 (Ref l)) as (Hwf' & Hreg' & _ & Halloc').
    + rewrite Hst2. by apply wellFormed_alloc.
    + rewrite Hst2, alloc_lookup; [by rewrite Hheap|done|by rewrite Hheap].
    + by rewrite Hst2.
    + split; [|done]. intros l' [= <-].
      split; [rewrite Hst2, Hl; apply alloc_fresh|].
      rewrite Hl. simpl. apply (wf_next _ Hwf1). by rewrite Hheap.
    + apply IH in Hwalk as (Hwf'' & Hreg'' & Halloc''); [|done|].
      2:{ apply Halloc'. rewrite Hst2, Hl. apply alloc_fresh. }
      split; [done|]. split.
      * intros l' Hl'. apply Hreg''. rewrite Hreg', Hst2. simpl. by apply Hreg.
      * intros l' Hl'. apply Halloc'', Halloc', Hkeep. by rewrite Hheap.
Qed.

Lemma forEntries_wellFormed rm te formData st st' :
  forEntries Number rm te formData st = Ok st' →
  wellFormed st →
  wellFormed st' ∧ (∀ l, l ∈ arraysWithOrder st → l ∈ arraysWithOrder st').
Proof.
  revert st. induction formData as [|entry rest IH]; intros st.
  { by intros [= <-]. }
  simpl. destruct (rm && isEmptyString entry.2); [apply IH|].
  destruct (te entry (defaultTransform Number)) as [[path value]|e|?]; [|done..].
  simpl.
  destruct (forEachPart Number (extractPathParts path) value root st)
    as [st1|e|?] eqn:Hwalk; [|done..].
  simpl. intros Hrest Hwf.
  apply forEachPart_wellFormed in Hwalk as (Hwf1 & Hreg1 & _); [|done|].
  2:{ destruct (wf_root _ Hwf) as [o Ho]. by eexists. }
  apply IH in Hrest as (Hwf' & Hreg'); [|done].
  split; [done|]. intros l Hl. by apply Hreg', Hreg1.
Qed.

End RunFacts.

(** ** Compaction *)

Lemma flat0_Some (xs : list JsonValue) : flat0 (Some <$> xs) = xs.
Proof.
  unfold flat0. induction xs as [|x xs IH]; [done|].
  rewrite fmap_cons. simpl. by f_equal.
Qed.

(** [flat(0)] followed by [splice] keeps the slots that are set, in their
    order, and nothing else. *)
Lemma compact_filter a : elems (compact a) = filter is_Some (elems a).
Proof.
  unfold compact, flat0. simpl.
  induction (elems a) as [|[x|] xs IH]; [done|..].
  - rewrite filter_cons_True by done. by rewrite <- IH.
  - rewrite filter_cons_False by (by intros [? [=]]). by rewrite <- IH.
Qed.

Lemma compact_idemp a : compact (compact a) = compact a.
Proof. unfold compact. simpl. by rewrite flat0_Some. Qed.

Lemma compact_dense a : Forall is_Some (elems a) → compact a = a.
Proof.
  intros Hdense. destruct a as [xs ns]. unfold compact, flat0. simpl in *.
  f_equal. induction Hdense as [|x xs [y ->] _ IH]; [done|].
  by rewrite <- IH at 2.
Qed.

Lemma heap_squash l st l' :
  heap (squash l st) !! l' =
    match heap st !! l' with
    | Some (CArray a) =>
        if decide (l' = l) then Some (CArray (compact a)) else Some (CArray a)
    | other => other
    end.
Proof.
  unfold squash. destruct (decide (l' = l)) as [->|Hne].
  - destruct (heap st !! l) as [[o|a]|] eqn:Hl; simpl; rewrite ?Hl; try done.
    by rewrite lookup_insert_eq.
  - destruct (heap st !! l) as [[o|a]|] eqn:Hl; simpl;
      rewrite ?lookup_insert_ne by done;
      by destruct (heap st !! l') as [[o'|a']|].
Qed.

Lemma heap_squash_list ls st l :
  heap (foldl (λ st l, squash l st) st ls) !! l =
    match heap st !! l with
    | Some (CArray a) =>
        if decide (l ∈ ls) then Some (CArray (compact a)) else Some (CArray a)
    | other => other
    end.
Proof.
  revert st. induction ls as [|l0 ls IH]; intros st; simpl.
  { by destruct (heap st !! l) as [[o|a]|]. }
  rewrite IH, heap_squash.
  destruct (heap st !! l) as [[o|a]|]; [done| |done].
  destruct (decide (l = l0)) as [->|Hne].
  - rewrite compact_idemp, (decide_True (P := l0 ∈ l0 :: ls)) by left.
    by destruct (decide (l0 ∈ ls)).
  - destruct (decide (l ∈ ls)) as [Hin|Hnin].
    + by rewrite decide_True by (by right).
    + rewrite decide_False; [done|]. by intros [?|?]%elem_of_cons.
Qed.

Lemma heap_squashAll st l :
  heap (squashAll st) !! l =
    match heap st !! l with
    | Some (CArray a) =>
        if decide (l ∈ arraysWithOrder st) then Some (CArray (compact a))
        else Some (CArray a)
    | other => other
    end.
Proof. apply heap_squash_list. Qed.

(** Compaction keeps the state well formed. *)
Lemma holds_compact a v : holds (CArray (compact a)) v → holds (CArray a) v.
Proof.
  simpl. intros [Hin|Hin]; [left|by right].
  change (Some <$> flat0 (elems a)) with (elems (compact a)) in Hin.
  rewrite compact_filter in Hin. by apply list_elem_of_filter in Hin as [_ ?].
Qed.

Lemma squash_frame l st :
  next (squash l st) = next st
  ∧ arraysWithOrder (squash l st) = arraysWithOrder st.
Proof. unfold squash. by destruct (heap st !! l) as [[o|a]|]. Qed.

Lemma squash_list_frame ls st :
  next (foldl (λ st l, squash l st) st ls) = next st
  ∧ arraysWithOrder (foldl (λ st l, squash l st) st ls) = arraysWithOrder st.
Proof.
  revert st. induction ls as [|l ls IH]; intros st; [done|]. simpl.
  destruct (IH (squash l st)) as [-> ->]. apply squash_frame.
Qed.

Lemma next_squashAll st : next (squashAll st) = next st.
Proof. apply squash_list_frame. Qed.

Lemma arraysWithOrder_squashAll st :
  arraysWithOrder (squashAll st) = arraysWithOrder st.
Proof. apply squash_list_frame. Qed.

Lemma wellFormed_squashAll st : wellFormed st → wellFormed (squashAll st).
Proof.
  intros [Hnext Hvalues Hrefs Hup Hord Hroot Hdense Hlen].
  assert (∀ l, is_Some (heap (squashAll st) !! l) ↔ is_Some (heap st !! l)) as Hdom.
  { intros l. rewrite heap_squashAll.
    destruct (heap st !! l) as [[o|a]|]; [done| |done].
    destruct (decide _); split; intros _; by eexists. }
  assert (∀ l c v, heap (squashAll st) !! l = Some c → holds c v →
            ∃ c', heap st !! l = Some c' ∧ holds c' v) as Hholds.
  { intros l c v. rewrite heap_squashAll.
    destruct (heap st !! l) as [[o|a]|]; [by eauto| |done].
    destruct (decide _); intros [= <-] Hv; eauto using holds_compact. }
  pose proof (next_squashAll st) as Hn.
  pose proof (arraysWithOrder_squashAll st) as Hr.
  split.
  - intros l Hl. rewrite Hn. by apply Hnext, Hdom.
  - intros l c b Hc Hv.
    destruct (Hholds _ _ _ Hc Hv) as (c' & Hc' & Hv'). by eapply Hvalues.
  - intros l c l' Hc Hv. apply Hdom.
    destruct (Hholds _ _ _ Hc Hv) as (c' & Hc' & Hv'). by eapply Hrefs.
  - intros l c l' Hc Hv.
    destruct (Hholds _ _ _ Hc Hv) as (c' & Hc' & Hv'). by eapply Hup.
  - intros l Hl. rewrite Hr in Hl. specialize (Hord l Hl).
    apply isArray_Some in Hord as [a Ha]. apply isArray_Some.
    rewrite heap_squashAll, Ha. destruct (decide _); by eexists.
  - destruct Hroot as [o Ho]. exists o. by rewrite heap_squashAll, Ho.
  - intros l a. rewrite heap_squashAll, Hr.
    destruct (heap st !! l) as [[o|a']|] eqn:Hl; [done| |done].
    destruct (decide _); [done|]. intros [= <-] _. by eapply Hdense.
  - intros l a. rewrite heap_squashAll.
    destruct (heap st !! l) as [[o|a']|] eqn:Hl; [done| |done].
    specialize (Hlen _ _ Hl).
    destruct (decide _); intros [= <-]; [|done].
    rewrite compact_filter. pose proof (length_filter is_Some (elems a')). lia.
Qed.

(** ** The tree of a well-formed state can be read back *)

Lemma snapshot_object fuel st l o :
  heap st !! l = Some (CObject o) →
  snapshot (S fuel) st (Ref l) =
    kvs ← mapM (λ kv : string * JsonValue,
                  j ← snapshot fuel st kv.2; Some (kv.1, j))
               (map_to_list o);
    Some (JObject (list_to_map kvs)).
Proof. intros H. cbn [snapshot]. by rewrite H. Qed.

Lemma snapshot_array fuel st l a :
  heap st !! l = Some (CArray a) →
  snapshot (S fuel) st (Ref l) =
    items ← mapM (λ slot : option JsonValue,
                    match slot with
                    | Some w => j ← snapshot fuel st w; Some (Some j)
                    | None => Some None
                    end)
                 (elems a);
    others ← mapM (λ nv : number * JsonValue,
                     j ← snapshot fuel st nv.2; Some (nv.1, j))
                  (named a);
    Some (JArray items others).
Proof. intros H. cbn [snapshot]. by rewrite H. Qed.


Lemma snapshot_total st fuel v :
  wellFormed st →
  (∀ l, v = Ref l → is_Some (heap st !! l) ∧ next st ≤ fuel + l) →
  (∀ b, v ≠ Inherited b) →
  is_Some (snapshot fuel st v).
Proof.
  intros Hwf. revert v. induction fuel as [|fuel IH]; intros [x|l|b] Hv Hnb;
    try (by eexists); try (by destruct (Hnb b)).
  - destruct (Hv l eq_refl) as [Hl Hfuel].
    pose proof (wf_next _ Hwf _ Hl). lia.
  - destruct (Hv l eq_refl) as [[c Hc] Hfuel].
    assert (∀ w, holds c w → is_Some (snapshot fuel st w)) as Hchild.
    { intros w Hw. apply IH.
      - intros l' ->. split.
        + by eapply (wf_refs _ Hwf).
        + pose proof (wf_up _ Hwf _ _ _ Hc Hw). lia.
      - intros b ->. by apply (wf_values _ Hwf _ _ _ Hc) in Hw. }
    cbn [snapshot]. rewrite Hc. destruct c as [o|a].
    + assert (is_Some (mapM (λ kv : string * JsonValue,
                               j ← snapshot fuel st kv.2; Some (kv.1, j))
                            (map_to_list o))) as [kvs ->]; [|by eexists].
      apply mapM_is_Some_2, Forall_forall. intros [k w] Hkw.
      apply elem_of_map_to_list in Hkw. simpl.
      destruct (Hchild w) as [j ->]; [by exists k|]. by eexists.
    + assert (is_Some (mapM (λ slot : option JsonValue,
                               match slot with
                               | Some w => j ← snapshot fuel st w; Some (Some j)
                               | None => Some None
                               end) (elems a))) as [items ->].
      { apply mapM_is_Some_2, Forall_forall. intros [w|] Hw; [|by eexists].
        simpl. destruct (Hchild w) as [j ->]; [by left|]. by eexists. }
      assert (is_Some (mapM (λ nv : number * JsonValue,
                               j ← snapshot fuel st nv.2; Some (nv.1, j))
                            (named a))) as [others ->]; [|by eexists].
      apply mapM_is_Some_2, Forall_forall. intros [n w] Hw. simpl.
      destruct (Hchild w) as [j ->]; [right; by exists n|]. by eexists.
Qed.

(** The result of a parse is a whole tree. *)
Lemma resultOf_total st :
  wellFormed st → ∃ j, resultOf (Ok st) = Ok (Some j).
Proof.
  intros Hwf. unfold resultOf. cbn [mbind Result_bind].
  destruct (snapshot_total st (next st) (Ref root) Hwf) as [j ->];
    [|done|by eexists].
  intros l [= <-]. destruct (wf_root _ Hwf) as [o Ho]. split; [by eexists|lia].
Qed.

Lemma resultOf_object st :
  wellFormed st → ∃ j, resultOf (Ok st) = Ok (Some (JObject j)).
Proof.
  intros Hwf. destruct (resultOf_total st Hwf) as [j Hj].
  unfold resultOf in *. cbn [mbind Result_bind] in *.
  destruct (wf_root _ Hwf) as [o Ho].
  destruct (next st) as [|fuel] eqn:Hnext.
  { pose proof (wf_next _ Hwf root (ex_intro _ _ Ho)). lia. }
  rewrite (snapshot_object _ _ _ _ Ho) in *.
  destruct (mapM _ _) as [kvs|]; [|done]. by eexists.
Qed.

(** ** Push writes *)

Lemma lengthKey_small n :
  (N.of_nat n < maxArrayLength)%N → lengthKey n = Index n.
Proof. intros H. unfold lengthKey. by apply N.ltb_lt in H as ->. Qed.

Lemma arrayGet_length a : arrayGet a (Index (length (elems a))) = None.
Proof. simpl. by rewrite lookup_ge_None_2. Qed.

Section PushFacts.
Variable Number : FormDataEntryValue → number.

(** A part with the empty key, on an array that no index has addressed and
    that is shorter than the longest array, appends the value. *)
Lemma push_appends p value cur st a :
  type p = array → path p = "" →
  heap st !! cur = Some (CArray a) → cur ∉ arraysWithOrder st →
  (N.of_nat (length (elems a)) < maxArrayLength)%N →
  forEachPart Number [p] value cur st =
    Ok (setContainer cur
          (CArray {| elems := elems a ++ [Some (Leaf value)]; named := named a |})
          st).
Proof.
  intros Hty Hpath Ha Hnin Hlen.
  assert (isArray st cur = true) as Harr by (apply isArray_Some; by eexists).
  assert (arrayAt st cur = a) as Hat by (unfold arrayAt; by rewrite Ha).
  pose proof (handlePathPart_push Number _ _ _ Hty Harr Hpath) as H.
  rewrite bool_decide_eq_false_2 in H by done. simpl in H.
  rewrite Hat, ToPropertyKey_NumberOfNat, lengthKey_small, arrayGet_length in H
    by lia.
  rewrite (forEachPart_last _ _ _ _ _ _ _ _ H).
  unfold setElement. by rewrite Hat, arraySet_length.
Qed.

Lemma fooParts_eq :
  fooParts =
    [ {| path := "foo"; type := object; default := EmptyArray; pathToPart := "foo" |};
      {| path := ""; type := array; default := EmptyObject; pathToPart := "foo[]" |} ].
Proof. reflexivity. Qed.

(** The first push into [foo[]] creates the array. *)
Lemma push_first v :
  forEachPart Number fooParts (leafOfEntryValue v) root initialState
  = Ok (pushedState [v]).
Proof. rewrite fooParts_eq. vm_compute. reflexivity. Qed.

Lemma forEachPart_descend p q rest value cur st l set st1 :
  handlePathPart Number p cur st = Ok (Some (Ref l), set, st1) →
  forEachPart Number (p :: q :: rest) value cur st
  = forEachPart Number (q :: rest) value l (set (Ref l) st1).
Proof. intros H. by rewrite (forEachPart_next Number _ _ _ _ _ _ _ _ _ H). Qed.

(** Every further push appends. *)
Lemma push_next vs v :
  (N.of_nat (length vs) < maxArrayLength)%N →
  forEachPart Number fooParts (leafOfEntryValue v) root (pushedState vs)
  = Ok (pushedState (vs ++ [v])).
Proof.
  intros Hlen. rewrite fooParts_eq.
  erewrite forEachPart_descend by (by rewrite handlePathPart_object).
  cbn [path].
  assert (setProperty root "foo" (Ref 1) (pushedState vs) = pushedState vs) as ->.
  { reflexivity. }
  erewrite push_appends; try done.
  - unfold setContainer, pushedState. simpl. by rewrite fmap_app.
  - apply not_elem_of_nil.
  - cbn [elems]. by rewrite length_fmap.
Qed.

Lemma forEntries_cons_plain key v rest st :
  hasSigil key = false →
  forEntries Number false (defaultTransformEntry Number) ((key, v) :: rest) st
  = forEachPart Number (extractPathParts key) (leafOfEntryValue v) root st
    ≫= forEntries Number false (defaultTransformEntry Number) rest.
Proof.
  intros Hplain. cbn [forEntries andb]. unfold defaultTransformEntry.
  by rewrite defaultTransform_plain.
Qed.

Lemma forEntries_push ws vs :
  (N.of_nat (length (ws ++ vs)) ≤ maxArrayLength)%N →
  forEntries Number false (defaultTransformEntry Number)
    ((λ v, ("foo[]", v)) <$> vs) (pushedState ws)
  = Ok (pushedState (ws ++ vs)).
Proof.
  revert ws. induction vs as [|v vs IH]; intros ws Hlen.
  { by rewrite app_nil_r. }
  rewrite length_app in Hlen. simpl in Hlen.
  rewrite fmap_cons, forEntries_cons_plain by done.
  change (extractPathParts "foo[]") with fooParts.
  rewrite push_next by lia. unfold mbind, Result_bind.
  rewrite IH by (rewrite !length_app; simpl; lia).
  by rewrite <- app_assoc.
Qed.

End PushFacts.

(** * Further properties *)

(** ** The tokenizer on any input *)

Lemma takeWhile_stop p s c r :
  p c = false → takeWhile p (s +:+ String c r) = takeWhile p s.
Proof.
  intros Hc. induction s as [|x s IH]; simpl.
  - by rewrite Hc.
  - destruct (p x); [by rewrite IH|done].
Qed.

Lemma dropWhile_stop p s c r :
  p c = false → dropWhile p (s +:+ String c r) = dropWhile p s +:+ String c r.
Proof.
  intros Hc. induction s as [|x s IH]; simpl.
  - by rewrite Hc.
  - destruct (p x); [by rewrite IH|done].
Qed.

Lemma length_takeWhile_dropWhile p s :
  String.length (takeWhile p s) + String.length (dropWhile p s) = String.length s.
Proof. by rewrite <- length_append, takeWhile_dropWhile. Qed.

Lemma matchNextType_Some r nt :
  matchNextType r = Some nt → startsStep r ∧ nt = separatorOf r.
Proof.
  destruct r as [|c r]; simpl.
  { intros [= <-]. split; [by left|done]. }
  destruct (Ascii.eqb_spec c "[") as [->|_].
  { intros [= <-]. split; [right; eauto|done]. }
  destruct (Ascii.eqb_spec c ".") as [->|_]; [|done].
  intros [= <-]. split; [right; eauto|done].
Qed.

Lemma eqb_separatorOf post :
  String.eqb (separatorOf post) "[" = startsWith post "[".
Proof. destruct post as [|c post]; [done|]. simpl. by destruct (Ascii.eqb c "["). Qed.

(** What a match at a position is: its text is at the start of the input,
    what follows is the end or a separator, and the text is a run of digits
    with a closing bracket or a segment. *)
Lemma matchAt_Some i s m :
  matchAt i s = Some m →
  ∃ post,
    s = match1 m +:+ post ∧ startsStep post ∧ index m = i
    ∧ nextType m = separatorOf post
    ∧ matchLength m = String.length (match1 m) + String.length (nextType m)
    ∧ match1 m ≠ ""
    ∧ match groups m with
      | GArray d => allChars isDigit d = true ∧ match1 m = d +:+ "]"
      | GPathPart r => isSegment r ∧ match1 m = r
      end.
Proof.
  unfold matchAt. destruct (matchArray i s) as [m'|] eqn:Harr.
  - intros [= <-]. unfold matchArray in Harr.
    destruct (dropWhile isDigit s) as [|c rest] eqn:Hd; [done|].
    destruct (Ascii.eqb_spec c "]") as [->|]; [|done].
    destruct (matchNextType rest) as [nt|] eqn:Hn; [|done].
    apply matchNextType_Some in Hn as [Hstep ->]. injection Harr as <-.
    exists rest. cbn [match1 index nextType matchLength groups].
    split.
    { rewrite append_assoc. change ("]" +:+ rest) with (String "]" rest).
      by rewrite <- Hd, takeWhile_dropWhile. }
    repeat (split; [done|]). split.
    { rewrite length_append. simpl. lia. }
    split; [by destruct (takeWhile isDigit s)|].
    split; [apply allChars_takeWhile|done].
  - clear Harr. unfold matchPathPart.
    destruct (takeWhile isKeyChar s) as [|c run] eqn:Hrun; [done|].
    destruct (matchNextType (dropWhile isKeyChar s)) as [nt|] eqn:Hn; [|done].
    apply matchNextType_Some in Hn as [Hstep ->]. intros [= <-].
    exists (dropWhile isKeyChar s). cbn [match1 index nextType matchLength groups].
    split; [by rewrite <- Hrun, takeWhile_dropWhile|].
    repeat (split; [done|]). split; [|done].
    split; [done|]. rewrite <- Hrun. apply allChars_takeWhile.
Qed.

(** Every match of [matchAll] is a match at some position of the input. *)
Lemma matchAll_elem k i s m :
  m ∈ matchAll k i s →
  ∃ a b, s = a +:+ b ∧ matchAt (i + String.length a) b = Some m.
Proof.
  revert k i. induction s as [|c s IH]; intros k i; simpl.
  { by intros ?%elem_of_nil. }
  assert (∀ k', m ∈ matchAll k' (S i) s →
            ∃ a b, String c s = a +:+ b ∧ matchAt (i + String.length a) b = Some m)
    as Hnext.
  { intros k' (a & b & -> & Hm)%IH. exists (String c a), b. split; [done|].
    simpl. by rewrite Nat.add_succ_r. }
  destruct k as [|k]; [|apply Hnext].
  destruct (matchAt i (String c s)) as [m0|] eqn:Hm0; [|apply Hnext].
  intros [->|Hin]%elem_of_cons; [|by eapply Hnext].
  exists "", (String c s). split; [done|]. simpl. by rewrite Nat.add_0_r.
Qed.

(** The matches start at or after the position [lastIndex] stands at. *)
Lemma matchAll_from k i s : Forall (λ m, i + k ≤ index m) (matchAll k i s).
Proof.
  revert k i. induction s as [|c s IH]; intros k i; simpl; [constructor|].
  destruct k as [|k].
  - destruct (matchAt i (String c s)) as [m0|] eqn:Hm0.
    + constructor.
      * apply matchAt_Some in Hm0 as (_ & _ & _ & -> & _). lia.
      * eapply Forall_impl; [apply IH|]. simpl. intros m Hm. lia.
    + eapply Forall_impl; [apply IH|]. simpl. intros m Hm. lia.
  - eapply Forall_impl; [apply IH|]. simpl. intros m Hm. lia.
Qed.

(** A match starts where the one before it has ended, or later. *)
Lemma matchAll_sorted k i s :
  StronglySorted (λ m m', index m + matchLength m ≤ index m') (matchAll k i s).
Proof.
  revert k i. induction s as [|c s IH]; intros k i; simpl; [constructor|].
  destruct k as [|k]; [|apply IH].
  destruct (matchAt i (String c s)) as [m0|] eqn:Hm0; [|apply IH].
  constructor; [apply IH|].
  apply matchAt_Some in Hm0 as (_ & _ & _ & Hi & _ & Hlen & Hne & _).
  assert (0 < String.length (match1 m0)) by (destruct (match1 m0); [done|simpl; lia]).
  eapply Forall_impl; [apply matchAll_from|]. simpl. intros m Hm. lia.
Qed.

Lemma substring_length_le n s :
  n ≤ String.length s → String.length (String.substring 0 n s) = n.
Proof.
  revert s. induction n as [|n IH]; intros [|c s]; simpl; try done; try lia.
  intros H. rewrite IH; lia.
Qed.

(** The part made of a match of the input. *)
Lemma toPathPart_at s a b m :
  s = a +:+ b → matchAt (0 + String.length a) b = Some m →
  ∃ post,
    s = (a +:+ match1 m) +:+ post
    ∧ pathToPart (toPathPart s m) = a +:+ match1 m
    ∧ index m = String.length a
    ∧ match1 m = partText (toPathPart s m)
    ∧ startsStep post
    ∧ default (toPathPart s m)
      = (if startsWith post "[" then EmptyArray else EmptyObject)
    ∧ match type (toPathPart s m) with
      | object => isSegment (path (toPathPart s m))
      | array => allChars isDigit (path (toPathPart s m)) = true
      end.
Proof.
  intros -> (post & -> & Hstep & Hi & Hnt & _ & _ & Hgroups)%matchAt_Some.
  simpl in Hi. exists post. split; [by rewrite append_assoc|].
  unfold toPathPart, partText. cbn [pathToPart default type path].
  split.
  { rewrite <- append_assoc. apply substring_prefix'. rewrite Hi. string_length. }
  split; [done|]. rewrite Hnt, eqb_separatorOf.
  destruct (groups m) as [d|r]; destruct Hgroups as [Hkey Htext]; by rewrite Htext.
Qed.

(** Every part of a path, whatever the path: the path is some text, then the
    text of the part, then the end or a separator; [pathToPart] is the path
    up to the end of the part; the default is an array exactly when an
    opening bracket follows; an object key is a segment (not empty, without
    dot and opening bracket) and an array key is made of digits. *)
Lemma extractPathParts_elem s p :
  p ∈ extractPathParts s →
  ∃ pre post,
    s = (pre +:+ partText p) +:+ post
    ∧ pathToPart p = pre +:+ partText p
    ∧ startsStep post
    ∧ default p = (if startsWith post "[" then EmptyArray else EmptyObject)
    ∧ match type p with
      | object => isSegment (path p)
      | array => allChars isDigit (path p) = true
      end.
Proof.
  unfold extractPathParts. intros (m & -> & Hm)%list_elem_of_fmap.
  apply matchAll_elem in Hm as (a & b & Hpath & Hm).
  destruct (toPathPart_at s a b m Hpath Hm)
    as (post & Hp & Hto & _ & Htext & Hrest).
  exists a, post. by rewrite <- Htext.
Qed.

Lemma length_pathToPart s m :
  m ∈ matchAll 0 0 s →
  String.length (pathToPart (toPathPart s m))
  = index m + String.length (match1 m)
  ∧ 0 < String.length (match1 m)
  ∧ index m + String.length (match1 m) ≤ String.length s
  ∧ String.length (match1 m) ≤ matchLength m.
Proof.
  intros (a & b & Hpath & Hm)%matchAll_elem.
  destruct (toPathPart_at s a b m Hpath Hm) as (post & Hp & Hto & Hi & _).
  apply matchAt_Some in Hm as (_ & _ & _ & _ & _ & Hlen & Hne & _).
  rewrite Hto, Hi, length_append. split; [done|].
  split; [destruct (match1 m); [done|simpl; lia]|].
  split; [|lia]. rewrite Hp, !length_append. lia.
Qed.

Lemma StronglySorted_fmap_elem {A B} (R : relation A) (R' : relation B)
    (f : A → B) (l : list A) :
  (∀ x y, x ∈ l → y ∈ l → R x y → R' (f x) (f y)) →
  StronglySorted R l → StronglySorted R' (f <$> l).
Proof.
  intros HR Hl. induction Hl as [|x l Hl IH Hx]; [constructor|].
  rewrite fmap_cons. constructor.
  - apply IH. intros y z Hy Hz. apply HR; by right.
  - apply Forall_fmap, Forall_forall. intros y Hy. simpl.
    apply HR; [by left|by right|]. by eapply Forall_forall in Hx.
Qed.

Lemma extractPathParts_sorted s :
  StronglySorted
    (λ p q, String.length (pathToPart p) < String.length (pathToPart q))
    (extractPathParts s).
Proof.
  unfold extractPathParts.
  apply (StronglySorted_fmap_elem (λ m m', index m + matchLength m ≤ index m'));
    [|apply matchAll_sorted].
  intros m m' Hm Hm' Hle.
  destruct (length_pathToPart _ _ Hm) as (-> & _ & _ & ?).
  destruct (length_pathToPart _ _ Hm') as (-> & ? & _). lia.
Qed.

Lemma length_matchAll k i s : length (matchAll k i s) ≤ String.length s.
Proof.
  revert k i. induction s as [|c s IH]; intros k i; simpl; [done|].
  destruct k as [|k].
  - destruct (matchAt i (String c s)) as [m0|]; simpl;
      [pose proof (IH (matchLength m0 - 1) (S i))|pose proof (IH 0 (S i))]; lia.
  - pose proof (IH k (S i)). lia.
Qed.

(** ** Paths put together with a separator *)

Lemma matchAll_short k i t : String.length t ≤ k → matchAll k i t = [].
Proof.
  revert k i. induction t as [|c t IH]; intros k i; simpl; [done|].
  destruct k as [|k]; [lia|]. intros H. apply IH. lia.
Qed.

Section Separator.
Variables (c : ascii) (t : string).
Hypothesis separator : c = "."%char ∨ c = "["%char.

Lemma separator_not_digit : isDigit c = false.
Proof. by destruct separator as [-> | ->]. Qed.

Lemma separator_not_key : isKeyChar c = false.
Proof. by destruct separator as [-> | ->]. Qed.

Lemma separator_not_bracket : Ascii.eqb c "]" = false.
Proof. by destruct separator as [-> | ->]. Qed.

Lemma matchNextType_separator : matchNextType (String c t) = Some (String c "").
Proof. by destruct separator as [-> | ->]. Qed.

Lemma matchNextType_sep r :
  match matchNextType (r +:+ String c t), matchNextType r with
  | Some nt, Some nt' => (r ≠ "" ∧ nt = nt') ∨ (r = "" ∧ nt' = "" ∧ nt = String c "")
  | None, None => r ≠ ""
  | _, _ => False
  end.
Proof.
  destruct r as [|x r].
  { rewrite append_nil_l, matchNextType_separator. simpl. by right. }
  rewrite append_cons. simpl.
  destruct (Ascii.eqb x "["); [by left|]. destruct (Ascii.eqb x "."); [by left|].
  done.
Qed.

Lemma matchPathPart_sep i u :
  sameAttempt c (i + String.length u)
    (matchPathPart i (u +:+ String c t)) (matchPathPart i u).
Proof.
  unfold matchPathPart.
  rewrite (takeWhile_stop isKeyChar u c t separator_not_key).
  rewrite (dropWhile_stop isKeyChar u c t separator_not_key).
  pose proof (length_takeWhile_dropWhile isKeyChar u) as Hlen.
  destruct (takeWhile isKeyChar u) as [|x run]; [done|].
  pose proof (matchNextType_sep (dropWhile isKeyChar u)) as Hnt.
  destruct (matchNextType (dropWhile isKeyChar u +:+ String c t)) as [nt|],
    (matchNextType (dropWhile isKeyChar u)) as [nt'|]; try done.
  unfold sameAttempt, sameMatch. cbn [index match1 groups nextType matchLength].
  repeat (split; [done|]).
  destruct Hnt as [[Hne ->]|(Hd & -> & ->)].
  - left. split; [|done]. destruct (dropWhile isKeyChar u); [done|].
    simpl in *. lia.
  - right. rewrite Hd in Hlen. simpl in *. repeat split; lia.
Qed.

Lemma matchArray_sep i u :
  sameAttempt c (i + String.length u)
    (matchArray i (u +:+ String c t)) (matchArray i u).
Proof.
  unfold matchArray.
  rewrite (takeWhile_stop isDigit u c t separator_not_digit).
  rewrite (dropWhile_stop isDigit u c t separator_not_digit).
  pose proof (length_takeWhile_dropWhile isDigit u) as Hlen.
  destruct (dropWhile isDigit u) as [|x rest].
  { rewrite append_nil_l. by rewrite separator_not_bracket. }
  rewrite append_cons. destruct (Ascii.eqb x "]"); [|done].
  pose proof (matchNextType_sep rest) as Hnt.
  destruct (matchNextType (rest +:+ String c t)) as [nt|],
    (matchNextType rest) as [nt'|]; try done.
  unfold sameAttempt, sameMatch. cbn [index match1 groups nextType matchLength].
  repeat (split; [done|]). rewrite length_append.
  destruct Hnt as [[Hne ->]|(-> & -> & ->)].
  - left. split; [|done]. destruct rest; [done|]. simpl in *. lia.
  - right. simpl in *. repeat split; lia.
Qed.

Lemma matchAt_sep i u :
  sameAttempt c (i + String.length u)
    (matchAt i (u +:+ String c t)) (matchAt i u).
Proof.
  unfold matchAt. pose proof (matchArray_sep i u) as Harr.
  destruct (matchArray i (u +:+ String c t)) as [m|], (matchArray i u) as [m'|];
    try done.
  apply matchPathPart_sep.
Qed.

(** The matches of a path that a separator and more text follow: those of
    the path, then those of the text. *)
Lemma matchAll_sep k i u :
  k ≤ String.length u + 1 →
  ∃ ms,
    matchAll k i (u +:+ String c t)
    = ms ++ matchAll 0 (i + String.length u + 1) t
    ∧ Forall2 (sameMatch c (i + String.length u)) ms (matchAll k i u).
Proof.
  revert k i. induction u as [|x u IH]; intros k i Hk.
  { exists []. split; [|constructor]. rewrite append_nil_l. simpl.
    replace (i + 0 + 1) with (S i) by lia. destruct k as [|k].
    - assert (matchAt i (String c t) = None) as ->; [|done].
      unfold matchAt, matchArray, matchPathPart. simpl.
      by rewrite separator_not_digit, separator_not_bracket, separator_not_key.
    - destruct k; [done|simpl in Hk; lia]. }
  assert (∀ k', k' ≤ String.length u + 1 →
            ∃ ms, matchAll k' (S i) (u +:+ String c t)
                  = ms ++ matchAll 0 (i + String.length (String x u) + 1) t
              ∧ Forall2 (sameMatch c (i + String.length (String x u))) ms
                  (matchAll k' (S i) u)) as IH'.
  { intros k' Hk'. destruct (IH k' (S i) Hk') as (ms & Hms & Hsame).
    exists ms. simpl. by replace (i + S (String.length u)) with (S i + String.length u) by lia. }
  pose proof (matchAt_sep i (String x u)) as Hat.
  rewrite append_cons in *. cbn [matchAll]. destruct k as [|k].
  2:{ apply IH'. simpl in Hk. lia. }
  unfold sameAttempt in Hat.
  destruct (matchAt i (String x (u +:+ String c t))) as [m|],
    (matchAt i (String x u)) as [m'|] eqn:Hm'; try done.
  2:{ apply IH'. lia. }
  apply matchAt_Some in Hm' as (post & Hu & _ & Hi & Hnt & Hlen & Hne & _).
  assert (matchLength m' ≤ String.length (String x u)) as Hle.
  { apply (f_equal String.length) in Hu. rewrite length_append in Hu.
    rewrite Hlen, Hnt. destruct post; simpl in *; lia. }
  assert (0 < matchLength m') as Hpos.
  { rewrite Hlen. destruct (match1 m'); [done|simpl; lia]. }
  destruct Hat as (Hidx & Htext & Hgroups & Hcase).
  destruct Hcase as [(Hlt & Hnext & Hsame)|(Hend & Hnt' & Hntm & Hlen' & Hlenm)].
  - rewrite Hsame. destruct (IH' (matchLength m' - 1)) as (ms & Hms & Hrest).
    { simpl in Hle. lia. }
    exists (m :: ms). rewrite Hms. split; [done|]. constructor; [|done].
    split; [done|]. split; [done|]. split; [done|]. left. by rewrite Hsame.
  - destruct (IH' (matchLength m - 1)) as (ms & Hms & Hrest).
    { simpl in Hle. lia. }
    assert (String.length u ≤ matchLength m' - 1) as Hshort.
    { rewrite Hi in Hend. simpl in Hend. lia. }
    rewrite matchAll_short in Hrest by lia. apply Forall2_nil_inv_r in Hrest as ->.
    rewrite (matchAll_short (matchLength m' - 1)) by done.
    exists [m]. rewrite Hms. split; [done|]. constructor; [|constructor].
    split; [done|]. split; [done|]. split; [done|]. right. by repeat split.
Qed.

End Separator.

(** A match does not depend on the position it is tried at, but for the
    index it records. *)
Lemma matchAt_shift n i s :
  matchAt (n + i) s = shiftMatch n <$> matchAt i s.
Proof.
  unfold matchAt, matchArray, matchPathPart.
  destruct (dropWhile isDigit s) as [|x rest].
  - destruct (takeWhile isKeyChar s); [done|].
    by destruct (matchNextType (dropWhile isKeyChar s)).
  - destruct (Ascii.eqb x "]").
    + destruct (matchNextType rest); [done|].
      destruct (takeWhile isKeyChar s); [done|].
      by destruct (matchNextType (dropWhile isKeyChar s)).
    + destruct (takeWhile isKeyChar s); [done|].
      by destruct (matchNextType (dropWhile isKeyChar s)).
Qed.

Lemma matchAll_shift n k i s :
  matchAll k (n + i) s = shiftMatch n <$> matchAll k i s.
Proof.
  revert k i. induction s as [|x s IH]; intros k i; [done|]. cbn [matchAll].
  replace (S (n + i)) with (n + S i) by lia.
  destruct k as [|k]; [|apply IH]. rewrite matchAt_shift.
  destruct (matchAt i (String x s)) as [m|]; simpl; [|apply IH].
  by rewrite IH.
Qed.

Lemma substring_app_le n (a b : string) :
  n ≤ String.length a → String.substring 0 n (a +:+ b) = String.substring 0 n a.
Proof.
  revert n. induction a as [|x a IH]; intros n; simpl.
  { intros H. replace n with 0 by lia. by destruct b. }
  destruct n as [|n]; [done|]. intros H. rewrite IH; [done|lia].
Qed.

Lemma substring_app_ge n (a b : string) :
  String.substring 0 (String.length a + n) (a +:+ b)
  = a +:+ String.substring 0 n b.
Proof. induction a as [|x a IH]; [done|]. simpl. by rewrite IH. Qed.

Lemma substring_all (s : string) : String.substring 0 (String.length s) s = s.
Proof. induction s as [|x s IH]; [done|]. simpl. by rewrite IH. Qed.

(** The parts made of the matches of the path, with the text after it. *)
Lemma toPathPart_sameMatch c s t ms ms' :
  Forall2 (sameMatch c (String.length s)) ms ms' →
  toPathPart (s +:+ String c t) <$> ms = followedBy c s <$> (toPathPart s <$> ms').
Proof.
  induction 1 as [|m m' ms ms' (Hi & Hm & Hg & Hcase) _ IH]; [done|].
  rewrite !fmap_cons. f_equal; [|exact IH].
  unfold toPathPart, followedBy. cbn [pathToPart path type default].
  rewrite Hi, Hm, Hg.
  destruct Hcase as [(Hlt & Hnext & _)|(Hend & Hnt' & Hntm & _)].
  - rewrite decide_False.
    + rewrite Hnext. f_equal. apply substring_app_le. lia.
    + intros Heq. apply (f_equal String.length) in Heq.
      rewrite substring_length_le in Heq; lia.
  - rewrite Hend, substring_all, decide_True by done.
    rewrite Hntm, (substring_prefix s). f_equal. simpl.
    by destruct (Ascii.eqb c "[").
Qed.

(** The parts made of the matches of the text after the path. *)
Lemma toPathPart_shift c s t ms :
  Forall (λ m, index m + String.length (match1 m) ≤ String.length t) ms →
  toPathPart (s +:+ String c t) <$> (shiftMatch (String.length s + 1) <$> ms)
  = prefixPart (s +:+ String c "") <$> (toPathPart t <$> ms).
Proof.
  induction 1 as [|m ms Hm _ IH]; [done|].
  rewrite !fmap_cons. f_equal; [|exact IH].
  unfold toPathPart, prefixPart, shiftMatch.
  cbn [pathToPart path type default index match1 groups nextType]. f_equal.
  assert (s +:+ String c t = (s +:+ String c "") +:+ t) as ->.
  { by rewrite append_assoc. }
  replace (String.length s + 1 + index m + String.length (match1 m))
    with (String.length (s +:+ String c "")
          + (index m + String.length (match1 m)))
    by (rewrite length_append; simpl; lia).
  apply substring_app_ge.
Qed.

(** A path, a separator and more text: the parts are those of the path,
    the one that ends with the path having the default the separator asks
    for, and then those of the text, with the path and the separator in
    front of their [pathToPart]. *)
Lemma extractPathParts_sep c s t :
  c = "."%char ∨ c = "["%char →
  extractPathParts (s +:+ String c t)
  = (followedBy c s <$> extractPathParts s)
    ++ (prefixPart (s +:+ String c "") <$> extractPathParts t).
Proof.
  intros Hc. unfold extractPathParts.
  destruct (matchAll_sep c t Hc 0 0 s) as (ms & -> & Hsame); [lia|].
  rewrite fmap_app. f_equal.
  - by apply toPathPart_sameMatch.
  - replace (0 + String.length s + 1) with (String.length s + 1 + 0) by lia.
    rewrite matchAll_shift. apply toPathPart_shift.
    apply Forall_forall. intros m Hm.
    by apply length_pathToPart in Hm as (_ & _ & ? & _).
Qed.

(** The part that ends with the path has matched the end of the input. *)
Lemma followedBy_dot s p :
  p ∈ extractPathParts s → followedBy "." s p = p.
Proof.
  intros Hp. unfold followedBy. destruct (decide _) as [Heq|]; [|done].
  destruct (extractPathParts_elem _ _ Hp) as (pre & post & Hs & Hto & _ & Hd & _).
  assert (post = "") as ->.
  { rewrite <- Hto, Heq in Hs. apply (f_equal String.length) in Hs.
    rewrite length_append in Hs. destruct post; [done|simpl in Hs; lia]. }
  destruct p as [k ty d to]. simpl in *. by rewrite Hd.
Qed.

Lemma extractPathParts_dot_app s t :
  extractPathParts (s +:+ "." +:+ t)
  = extractPathParts s ++ (prefixPart (s +:+ ".") <$> extractPathParts t).
Proof.
  change ("." +:+ t) with (String "." t).
  rewrite extractPathParts_sep by (by left). f_equal.
  rewrite <- (list_fmap_id (extractPathParts s)) at 2.
  apply list_fmap_ext. intros i p Hp. apply followedBy_dot.
  by eapply list_elem_of_lookup_2.
Qed.

Lemma extractPathParts_dot s : extractPathParts (s +:+ ".") = extractPathParts s.
Proof.
  pose proof (extractPathParts_dot_app s "") as H.
  change ("." +:+ "") with "." in H. rewrite H.
  change (extractPathParts "") with (@nil PathPart). by rewrite app_nil_r.
Qed.

Section DotFacts.
Variable Number : FormDataEntryValue → number.

(** Under the default transform the dot ends up at the end of the path, be
    there a sigil or not. *)
Lemma defaultTransform_dot key value :
  extractPathParts (defaultTransform Number (key +:+ ".", value)).1
  = extractPathParts (defaultTransform Number (key, value)).1
  ∧ (defaultTransform Number (key +:+ ".", value)).2
    = (defaultTransform Number (key, value)).2.
Proof.
  destruct key as [|x key]; [done|]. rewrite append_cons.
  unfold defaultTransform. cbn [fst snd startsWith slice1].
  destruct (Ascii.eqb x "+"); [split; [apply extractPathParts_dot|done]|].
  destruct (Ascii.eqb x "&"); [split; [apply extractPathParts_dot|done]|].
  destruct (Ascii.eqb x "-"); [split; [apply extractPathParts_dot|done]|].
  split; [|done]. cbn [fst]. rewrite <- append_cons. apply extractPathParts_dot.
Qed.

Lemma forEntries_dot rm formData st :
  forEntries Number rm (defaultTransformEntry Number)
    ((λ entry, (entry.1 +:+ ".", entry.2)) <$> formData) st
  = forEntries Number rm (defaultTransformEntry Number) formData st.
Proof.
  revert st. induction formData as [|[key value] rest IH]; intros st; [done|].
  rewrite fmap_cons. cbn [forEntries fst snd].
  destruct (rm && isEmptyString value); [apply IH|].
  unfold defaultTransformEntry. cbn [mbind Result_bind].
  destruct (defaultTransform_dot key value) as [Hparts Hvalue].
  destruct (defaultTransform Number (key +:+ ".", value)) as [path' value'],
    (defaultTransform Number (key, value)) as [path0 value0].
  simpl in Hparts, Hvalue. rewrite Hparts, Hvalue.
  destruct (forEachPart Number (extractPathParts path0) value0 root st); [apply IH|done..].
Qed.

End DotFacts.

(** ** The path up to a part, read as a path *)

(** In a list whose elements grow, an element that no other exceeds is the
    last one. *)
Lemma StronglySorted_last {A} (f : A → nat) (l : list A) i x :
  StronglySorted (λ a b, f a < f b) l →
  l !! i = Some x → Forall (λ y, f y ≤ f x) l →
  l = take i l ++ [x]
  ∧ Forall (λ y, f y < f x) (take i l).
Proof.
  intros Hsorted Hx Hmax.
  rewrite <- (take_drop_middle l i x Hx) in Hsorted, Hmax.
  apply StronglySorted_app in Hsorted as (Hbefore & _ & Htail).
  apply Forall_app in Hmax as [_ Hmax].
  apply StronglySorted_cons in Htail as [Hafter _].
  apply Forall_cons in Hmax as [_ Hmax].
  assert (drop (S i) l = []) as Hnil.
  { destruct (drop (S i) l) as [|y rest]; [done|].
    apply Forall_cons in Hafter as [Hy _]. apply Forall_cons in Hmax as [Hy' _].
    lia. }
  split.
  - rewrite <- (take_drop_middle l i x Hx) at 1. by rewrite Hnil.
  - apply Forall_forall. intros y Hy. apply (Hbefore y x Hy). by left.
Qed.

Lemma length_pathToPart_elem s p :
  p ∈ extractPathParts s → String.length (pathToPart p) ≤ String.length s.
Proof.
  unfold extractPathParts. intros (m & -> & Hm)%list_elem_of_fmap.
  destruct (length_pathToPart _ _ Hm) as (-> & _ & ? & _). done.
Qed.

(** The part that ends with the path is the last part, and nothing follows
    it. *)
Lemma extractPathParts_whole s i p :
  extractPathParts s !! i = Some p → pathToPart p = s →
  extractPathParts s = take i (extractPathParts s) ++ [p]
  ∧ Forall (λ q, pathToPart q ≠ s) (take i (extractPathParts s))
  ∧ default p = EmptyObject.
Proof.
  intros Hi Hto.
  destruct (StronglySorted_last (λ q, String.length (pathToPart q))
              (extractPathParts s) i p) as [Hlast Hshorter].
  - apply extractPathParts_sorted.
  - done.
  - apply Forall_forall. intros q Hq. rewrite Hto.
    by apply length_pathToPart_elem.
  - split; [done|]. split.
    + eapply Forall_impl; [exact Hshorter|]. simpl. intros q Hq Heq.
      rewrite Heq, Hto in Hq. lia.
    + apply list_elem_of_lookup_2 in Hi.
      destruct (extractPathParts_elem _ _ Hi)
        as (pre & post & Hs & Hto' & _ & Hd & _).
      assert (post = "") as ->; [|done].
      rewrite <- Hto', Hto in Hs. apply (f_equal String.length) in Hs.
      rewrite length_append in Hs. destruct post; [done|simpl in Hs; lia].
Qed.

Lemma followedBy_other c s q : pathToPart q ≠ s → followedBy c s q = q.
Proof. intros Hne. unfold followedBy. by rewrite decide_False. Qed.

Lemma asLast_followedBy c s p :
  pathToPart p = s → default p = EmptyObject → asLast (followedBy c s p) = p.
Proof.
  intros Hto Hd. unfold followedBy. rewrite decide_True by done.
  destruct p as [k ty d to]. unfold asLast. simpl in *. by rewrite Hd.
Qed.

(** The [pathToPart] of a part, read as a path, has the parts of the path
    up to that part. *)
Lemma extractPathParts_pathToPart s i p :
  extractPathParts s !! i = Some p →
  extractPathParts (pathToPart p) = take i (extractPathParts s) ++ [asLast p].
Proof.
  intros Hi. pose proof (list_elem_of_lookup_2 _ _ _ Hi) as Hp.
  destruct (extractPathParts_elem _ _ Hp) as (pre & post & Hs & Hto & Hstep & _).
  rewrite <- Hto in Hs. set (u := pathToPart p) in *.
  destruct Hstep as [->|(t & Hpost)].
  { rewrite append_nil_r in Hs. subst s.
    destruct (extractPathParts_whole _ _ _ Hi eq_refl) as (Hlast & _ & Hd).
    rewrite Hlast at 1. do 2 f_equal. destruct p as [k ty d to].
    unfold asLast. simpl in *. by rewrite Hd. }
  assert (∃ c, (c = "."%char ∨ c = "["%char) ∧ s = u +:+ String c t)
    as (c & Hc & ->).
  { destruct Hpost as [-> | ->]; [exists "."%char|exists "["%char];
      (split; [by auto|done]). }
  rewrite (extractPathParts_sep c u t Hc) in Hi |- *.
  assert (i < length (followedBy c u <$> extractPathParts u)) as Hlt.
  { destruct (decide (i < length (followedBy c u <$> extractPathParts u)));
      [done|exfalso].
    rewrite lookup_app_r in Hi by lia.
    apply list_elem_of_lookup_2, list_elem_of_fmap in Hi as (q & Hq & _).
    assert (String.length (pathToPart p) = String.length u) as Hlen by done.
    rewrite Hq in Hlen. unfold prefixPart in Hlen. simpl in Hlen.
    rewrite !length_append in Hlen. simpl in Hlen. lia. }
  rewrite lookup_app_l in Hi by done. rewrite take_app_le by lia.
  rewrite list_lookup_fmap in Hi.
  destruct (extractPathParts u !! i) as [p'|] eqn:Hi'; [|done].
  injection Hi as Hp'.
  assert (pathToPart p' = u) as Hto'.
  { unfold u. rewrite <- Hp'. unfold followedBy. by destruct (decide _). }
  destruct (extractPathParts_whole _ _ _ Hi' Hto') as (Hlast & Hother & Hd).
  rewrite <- fmap_take, <- Hp', (asLast_followedBy c u p' Hto' Hd).
  rewrite Hlast at 1. f_equal. symmetry.
  rewrite <- (list_fmap_id (take i (extractPathParts u))) at 2.
  apply list_fmap_ext. intros j q Hq. apply followedBy_other.
  eapply Forall_forall in Hother; [done|]. by eapply list_elem_of_lookup_2.
Qed.

(** ** A walk only adds to the tree *)

Lemma mjoin_lookup_Some {A} (l : list (option A)) i w :
  mjoin (l !! i) = Some w ↔ l !! i = Some (Some w).
Proof. destruct (l !! i) as [[x|]|]; simpl; naive_solver. Qed.

Lemma namedGet_namedSet_ne n n' v ps :
  n' ≠ n → namedGet n' (namedSet n v ps) = namedGet n' ps.
Proof.
  intros Hne. induction ps as [|[m w] ps IH]; simpl.
  - by rewrite decide_False.
  - destruct (decide (m = n)) as [->|Hm]; simpl.
    + by rewrite !decide_False.
    + destruct (decide (m = n')); [done|apply IH].
Qed.

(** Writing a key of an array that is not set, or writing the value it
    has, leaves what the other keys hold. *)
Lemma arrayGet_arraySet_keep a k v k' w :
  arrayGet a k' = Some w →
  arrayGet a k = None ∨ arrayGet a k = Some v →
  arrayGet (arraySet a k v) k' = Some w.
Proof.
  destruct k as [i|n], k' as [i'|n']; simpl; try done.
  - rewrite !mjoin_lookup_Some. intros Hw Hv.
    pose proof (lookup_lt_Some _ _ _ Hw) as Hlt.
    destruct (decide (i < length (elems a))) as [Hi|Hi].
    + destruct (decide (i' = i)) as [->|Hne].
      * rewrite Hw in Hv. destruct Hv as [[=]|[= <-]].
        by rewrite list_lookup_insert_eq.
      * by rewrite list_lookup_insert_ne.
    + by rewrite lookup_app_l.
  - intros Hw Hv. destruct (decide (n' = n)) as [->|Hne].
    + rewrite Hw in Hv. destruct Hv as [[=]|[= <-]]. apply namedGet_namedSet.
    + by rewrite namedGet_namedSet_ne.
Qed.

Lemma valueAt_heap_eq st st' l pos :
  heap st' !! l = heap st !! l → valueAt st' l pos = valueAt st l pos.
Proof. unfold valueAt, getProperty, objectAt, arrayAt. by intros ->. Qed.

Lemma isArray_heap_eq st st' l :
  heap st' !! l = heap st !! l → isArray st' l = isArray st l.
Proof. unfold isArray. by intros ->. Qed.

Lemma extends_refl st : extends st st.
Proof. by repeat split. Qed.

Lemma extends_trans st1 st2 st3 :
  extends st1 st2 → extends st2 st3 → extends st1 st3.
Proof.
  intros (Hk & Hv & Hr) (Hk' & Hv' & Hr'). split; [|split].
  - intros l Hl. destruct (Hk l Hl) as [Hl2 <-]. by apply Hk'.
  - intros l pos v H. by apply Hv', Hv.
  - intros l H. by apply Hr', Hr.
Qed.

Lemma extends_heap_eq st st' :
  heap st' = heap st →
  (∀ l, l ∈ arraysWithOrder st → l ∈ arraysWithOrder st') →
  extends st st'.
Proof.
  intros Hheap Hreg. split; [|split; [|done]].
  - intros l Hl. rewrite (isArray_heap_eq st st') by (by rewrite Hheap).
    by rewrite Hheap.
  - intros l pos v. by rewrite (valueAt_heap_eq st st') by (by rewrite Hheap).
Qed.

Lemma extends_alloc d st : wellFormed st → extends st (alloc d st).2.
Proof.
  intros Hwf.
  assert (∀ l, is_Some (heap st !! l) →
            heap (alloc d st).2 !! l = heap st !! l) as Hsame.
  { intros l Hl. simpl. rewrite lookup_insert_ne; [done|].
    intros <-. pose proof (wf_next _ Hwf _ Hl). lia. }
  split; [|split; [|done]].
  - intros l Hl. rewrite (isArray_heap_eq st _ l (Hsame l Hl)).
    by rewrite (Hsame l Hl).
  - intros l pos v Hv. destruct (heap st !! l) as [c|] eqn:Hl.
    + rewrite (valueAt_heap_eq st) by (apply Hsame; by rewrite Hl). done.
    + destruct pos as [key|order].
      * revert Hv. unfold valueAt, getProperty, objectAt. rewrite Hl.
        destruct (decide (l = next st)) as [->|Hne]; simpl.
        -- rewrite lookup_insert_eq. by destruct d.
        -- by rewrite lookup_insert_ne, Hl.
      * unfold valueAt, arrayAt in Hv. rewrite Hl in Hv.
        by rewrite arrayGet_emptyArray in Hv.
Qed.

(** Writing a position that is not set, or writing the value it has: the
    new state extends the old one and holds the value at the position. *)
Lemma extends_writeAt st cur pos v :
  is_Some (heap st !! cur) →
  match pos with
  | PropertyOf _ => isArray st cur = false
  | ElementOf _ => isArray st cur = true
  end →
  valueAt st cur pos = None ∨ valueAt st cur pos = Some v →
  extends st (writeAt cur pos v st)
  ∧ valueAt (writeAt cur pos v st) cur pos = Some v.
Proof.
  intros [c Hc] Hkind Hfree.
  assert (∀ l, l ≠ cur → heap (writeAt cur pos v st) !! l = heap st !! l) as Hne.
  { intros l Hl. destruct pos; simpl; [by apply heap_setProperty_ne|].
    by rewrite lookup_insert_ne. }
  assert (valueAt (writeAt cur pos v st) cur pos = Some v) as Hwritten.
  { destruct pos as [key|order]; simpl.
    - unfold setProperty. case_decide as Hkey.
      + destruct Hfree as [Hfree|Hfree]; [|done].
        apply getProperty_None in Hfree as [_ Hin]. subst key.
        exfalso. apply Hin. by left.
      + unfold getProperty. by rewrite objectAt_setContainer, lookup_insert_eq.
    - unfold setElement. by rewrite arrayAt_setContainer, arrayGet_arraySet. }
  split; [|done]. split; [|split].
  - intros l Hl. destruct (decide (l = cur)) as [->|Hl'].
    + split.
      * destruct pos; simpl; [unfold setProperty; case_decide; [by eexists|]|];
          simpl; rewrite lookup_insert_eq; by eexists.
      * destruct pos; [unfold writeAt, setProperty; case_decide; [done|]|];
          rewrite Hkind; unfold isArray; simpl; by rewrite lookup_insert_eq.
    + rewrite (isArray_heap_eq st _ l (Hne l Hl')). by rewrite (Hne l Hl').
  - intros l pos' w Hw. destruct (decide (l = cur)) as [->|Hl'].
    2:{ by rewrite (valueAt_heap_eq st _ l _ (Hne l Hl')). }
    destruct pos as [key|order], pos' as [key'|order']; simpl in *.
    + unfold setProperty. case_decide as Hkey; [done|].
      destruct (decide (key' = key)) as [->|Hk].
      * rewrite Hw in Hfree. destruct Hfree as [[=]|[= <-]].
        unfold getProperty. by rewrite objectAt_setContainer, lookup_insert_eq.
      * revert Hw. unfold getProperty. rewrite objectAt_setContainer.
        by rewrite lookup_insert_ne.
    + unfold arrayAt, isArray in *. rewrite Hc in *. destruct c; [|done].
      by rewrite arrayGet_emptyArray in Hw.
    + revert Hw. unfold setElement, getProperty, objectAt, isArray in *. simpl.
      rewrite lookup_insert_eq, Hc in *. by destruct c.
    + unfold setElement. rewrite arrayAt_setContainer.
      by apply arrayGet_arraySet_keep.
  - destruct pos; simpl; [unfold setProperty; by case_decide|done].
Qed.


Lemma arraysWithOrder_writeAt st cur pos v :
  arraysWithOrder (writeAt cur pos v st) = arraysWithOrder st.
Proof. destruct pos; simpl; [unfold setProperty; by case_decide|done]. Qed.

Section WalkFacts.
Variable Number : FormDataEntryValue → number.

(** One step of a walk that returns: [handlePathPart] resolves the part to a
    position of the current container; at the last part the position is
    free and receives the leaf; before it, the position holds a container
    or receives the fresh default of the part, and the walk goes on from
    that container. *)
Lemma forEachPart_inv p rest value cur st st' :
  forEachPart Number (p :: rest) value cur st = Ok st' →
  wellFormed st → is_Some (heap st !! cur) →
  let pos := positionOf Number st cur p in
  ∃ st1,
    handlePathPart Number p cur st = Ok (valueAt st cur pos, writeAt cur pos, st1)
    ∧ wellFormed st1 ∧ heap st1 = heap st ∧ next st1 = next st
    ∧ (∀ l, l ∈ arraysWithOrder st → l ∈ arraysWithOrder st1)
    ∧ match pos with
      | PropertyOf _ => isArray st cur = false
      | ElementOf _ => isArray st cur = true
      end
    ∧ match rest with
      | [] =>
          valueAt st cur pos = None
          ∧ st' = writeAt cur pos (Leaf value) st1
          ∧ wellFormed st'
      | _ :: _ =>
          ∃ l st2,
            ((valueAt st cur pos = Some (Ref l) ∧ st2 = st1)
             ∨ (valueAt st cur pos = None ∧ (l, st2) = alloc (default p) st1))
            ∧ wellFormed (writeAt cur pos (Ref l) st2)
            ∧ is_Some (heap (writeAt cur pos (Ref l) st2) !! l)
            ∧ forEachPart Number rest value l (writeAt cur pos (Ref l) st2)
              = Ok st'
      end.
Proof.
  intros Hwalk Hwf Hcur pos.
  destruct (handlePathPart Number p cur st) as [[[nv set] st1]|e|?] eqn:H.
  2,3: destruct rest; simpl in Hwalk; by rewrite H in Hwalk.
  destruct (handlePathPart_wellFormed _ _ _ _ _ _ _ H Hwf Hcur)
    as (Hwf1 & Hheap & Hreg & Hnv & Hset).
  pose proof (handlePathPart_Ok _ _ _ _ _ _ _ H) as (Hval & _ & Hnext & Hpos).
  fold pos in Hval, Hpos.
  assert (set = writeAt cur pos) as ->.
  { unfold writeAt. destruct pos; tauto. }
  exists st1. rewrite <- Hval. split; [done|]. split; [done|]. split; [done|].
  split; [done|]. split; [done|]. split; [destruct pos; tauto|].
  destruct rest as [|q rest].
  { rewrite (forEachPart_last Number _ _ _ _ _ _ _ H) in Hwalk.
    destruct nv; [done|]. injection Hwalk as <-.
    split; [done|]. split; [done|].
    by destruct (Hset st1 (Leaf value)) as (Hwf' & _);
      [done|by rewrite Hheap|done|apply validValue_Leaf|]. }
  rewrite (forEachPart_next Number _ _ _ _ _ _ _ _ _ H) in Hwalk.
  destruct nv as [[x|l|[name|]]|]; [done| |done| |].
  - exists l, st1. split; [by left|].
    assert (validValue st1 cur (Ref l)) as Hvalid.
    { split; [|done]. intros l' [= <-]. rewrite Hheap. by apply Hnv. }
    destruct (Hset st1 (Ref l)) as (Hwf' & _ & _ & Halloc');
      [done|by rewrite Hheap|done|done|].
    split; [done|]. split; [|done].
    apply Halloc'. rewrite Hheap. by apply Hnv.
  - by apply inObjectPrototype_Ok in Hwalk.
  - exists (alloc (default p) st1).1, (alloc (default p) st1).2.
    split; [by right|].
    remember (alloc (default p) st1).1 as l eqn:Hl.
    remember (alloc (default p) st1).2 as st2 eqn:Hst2.
    destruct (Hset st2 (Ref l)) as (Hwf' & _ & _ & Halloc').
    + rewrite Hst2. by apply wellFormed_alloc.
    + rewrite Hst2, alloc_lookup; [by rewrite Hheap|done|by rewrite Hheap].
    + by rewrite Hst2.
    + split; [|done].
      intros l' [= <-]. split; [rewrite Hst2, Hl; apply alloc_fresh|].
      rewrite Hl. simpl. apply (wf_next _ Hwf1). by rewrite Hheap.
    + split; [done|]. split; [|done].
      apply Halloc'. rewrite Hst2, Hl. apply alloc_fresh.
Qed.



(** What a step leaves in the tree: the state before the rest of the walk
    extends the state before the step, and holds the next container at the
    position of the part. *)
Lemma forEachPart_inv_extends p cur st st1 l st2 :
  wellFormed st → is_Some (heap st !! cur) →
  wellFormed st1 → heap st1 = heap st →
  (∀ l, l ∈ arraysWithOrder st → l ∈ arraysWithOrder st1) →
  match positionOf Number st cur p with
  | PropertyOf _ => isArray st cur = false
  | ElementOf _ => isArray st cur = true
  end →
  (valueAt st cur (positionOf Number st cur p) = Some (Ref l) ∧ st2 = st1)
  ∨ (valueAt st cur (positionOf Number st cur p) = None
     ∧ (l, st2) = alloc (default p) st1) →
  extends st (writeAt cur (positionOf Number st cur p) (Ref l) st2)
  ∧ valueAt (writeAt cur (positionOf Number st cur p) (Ref l) st2) cur
      (positionOf Number st cur p) = Some (Ref l).
Proof.
  intros Hwf Hcur Hwf1 Hheap Hreg Hkind Hcase.
  set (pos := positionOf Number st cur p) in *.
  pose proof (extends_heap_eq st st1 Hheap Hreg) as H01.
  assert (extends st1 st2 ∧ heap st2 !! cur = heap st !! cur) as [H12 Hcur2].
  { destruct Hcase as [[_ ->]|[_ Halloc]].
    - split; [apply extends_refl|by rewrite Hheap].
    - assert (st2 = (alloc (default p) st1).2) as -> by (by rewrite <- Halloc).
      split; [by apply extends_alloc|].
      rewrite alloc_lookup; [by rewrite Hheap|done|by rewrite Hheap]. }
  destruct (extends_writeAt st2 cur pos (Ref l)) as [H23 Hheld].
  - by rewrite Hcur2.
  - rewrite (isArray_heap_eq st st2) by done. exact Hkind.
  - rewrite (valueAt_heap_eq st st2) by done. destruct Hcase as [[-> _]|[-> _]]; auto.
  - split; [|done]. eauto using extends_trans.
Qed.

(** A walk that returns leaves a state that extends the one it started
    from. *)
Lemma forEachPart_extends parts value cur st st' :
  forEachPart Number parts value cur st = Ok st' →
  wellFormed st → is_Some (heap st !! cur) →
  extends st st'.
Proof.
  revert cur st. induction parts as [|p rest IH]; intros cur st Hwalk Hwf Hcur.
  { injection Hwalk as <-. apply extends_refl. }
  destruct (forEachPart_inv _ _ _ _ _ _ Hwalk Hwf Hcur)
    as (st1 & _ & Hwf1 & Hheap & _ & Hreg & Hkind & Hrest).
  destruct rest as [|q rest].
  - destruct Hrest as (Hfree & -> & _).
    eapply extends_trans; [by apply extends_heap_eq|].
    apply extends_writeAt.
    + by rewrite Hheap.
    + rewrite (isArray_heap_eq st st1) by (by rewrite Hheap). exact Hkind.
    + left. rewrite (valueAt_heap_eq st st1) by (by rewrite Hheap). done.
  - destruct Hrest as (l & st2 & Hcase & Hwf3 & Hl & Hgo).
    destruct (forEachPart_inv_extends p cur st st1 l st2) as [H03 _];
      try done.
    eapply extends_trans; [exact H03|]. by eapply IH.
Qed.

Lemma forEntries_extends rm te formData st st' :
  forEntries Number rm te formData st = Ok st' →
  wellFormed st → extends st st'.
Proof.
  revert st. induction formData as [|entry rest IH]; intros st.
  { intros [= <-] _. apply extends_refl. }
  simpl. destruct (rm && isEmptyString entry.2); [apply IH|].
  destruct (te entry (defaultTransform Number)) as [[path value]|e|?]; [|done..].
  simpl.
  destruct (forEachPart Number (extractPathParts path) value root st)
    as [st1|e|?] eqn:Hwalk; [|done..].
  simpl. intros Hrest Hwf.
  assert (is_Some (heap st !! root)) as Hroot.
  { destruct (wf_root _ Hwf) as [o Ho]. by eexists. }
  pose proof (forEachPart_extends _ _ _ _ _ Hwalk Hwf Hroot) as H1.
  apply forEachPart_wellFormed in Hwalk as (Hwf1 & _); [|done..].
  eapply extends_trans; [exact H1|]. by apply IH.
Qed.

End WalkFacts.

(** ** Every value of the form data is in the tree *)

Lemma childAt_valueAt Number st st' cur p w :
  valueAt st' cur (positionOf Number st cur p) = Some w →
  (∀ b, w ≠ Inherited b) →
  match positionOf Number st cur p with
  | PropertyOf _ => isArray st' cur = false
  | ElementOf _ => isArray st' cur = true
  end →
  childAt st' cur p w.
Proof.
  unfold positionOf, childAt. destruct (type p); simpl.
  - intros Hw Hown Harr. split; [done|]. by apply getProperty_own.
  - intros Hw _ Harr. split; [done|]. by eexists.
Qed.

Lemma childAt_is_Some st cur p w : childAt st cur p w → is_Some (heap st !! cur).
Proof.
  unfold childAt, isArray, objectAt.
  destruct (type p); destruct (heap st !! cur) as [[o|a]|];
    try (by eexists); by intros [? ?].
Qed.

Lemma childAt_extends st st' cur p w :
  extends st st' → (∀ b, w ≠ Inherited b) →
  childAt st cur p w → childAt st' cur p w.
Proof.
  intros (Hkind & Hval & _) Hown Hchild.
  destruct (Hkind cur (childAt_is_Some _ _ _ _ Hchild)) as [_ Harr].
  unfold childAt in *. rewrite Harr. destruct (type p).
  - destruct Hchild as [? Hw]. split; [done|].
    apply getProperty_own; [|done].
    apply (Hval cur (PropertyOf (path p)) w). simpl. unfold getProperty.
    by rewrite Hw.
  - destruct Hchild as [? [order Hw]]. split; [done|]. exists order.
    exact (Hval cur (ElementOf order) w Hw).
Qed.

Lemma reaches_extends st st' v parts w :
  extends st st' → (∀ b, w ≠ Inherited b) →
  reaches st v parts w → reaches st' v parts w.
Proof.
  intros Hext Hown. revert v. induction parts as [|p rest IH]; intros v; [done|].
  simpl. intros (cur & u & -> & Hchild & Hrest).
  exists cur, u. split; [done|]. split; [|by apply IH].
  apply (childAt_extends st); [done| |done].
  destruct rest as [|q rest]; simpl in Hrest.
  - by subst u.
  - by destruct Hrest as (cur' & u' & -> & _).
Qed.

(** The compaction keeps every child of every container. *)
Lemma childAt_squashAll st cur p w :
  childAt st cur p w → childAt (squashAll st) cur p w.
Proof.
  unfold childAt, isArray, objectAt, arrayAt. rewrite heap_squashAll.
  destruct (type p); destruct (heap st !! cur) as [[o|a]|];
    try done; try (by intros [? ?]).
  intros [_ [order Hw]]. destruct (decide _); [|by eauto].
  split; [done|]. destruct order as [i|n]; [|by exists (Name n)].
  simpl in Hw. apply mjoin_lookup_Some in Hw.
  assert (Some w ∈ elems (compact a)) as [i' Hi']%list_elem_of_lookup.
  { rewrite compact_filter. apply list_elem_of_filter. split; [by eexists|].
    by eapply list_elem_of_lookup_2. }
  exists (Index i'). simpl. by apply mjoin_lookup_Some.
Qed.

Lemma reaches_squashAll st v parts w :
  reaches st v parts w → reaches (squashAll st) v parts w.
Proof.
  revert v. induction parts as [|p rest IH]; intros v; [done|].
  simpl. intros (cur & u & -> & Hchild & Hrest).
  exists cur, u. eauto using childAt_squashAll.
Qed.

Section ReachFacts.
Variable Number : FormDataEntryValue → number.

(** After a walk that returns, following the parts of the walk from the
    container it started at leads to the leaf. *)
Lemma forEachPart_reaches parts value cur st st' :
  forEachPart Number parts value cur st = Ok st' →
  parts ≠ [] → wellFormed st → is_Some (heap st !! cur) →
  reaches st' (Ref cur) parts (Leaf value).
Proof.
  revert cur st. induction parts as [|p rest IH]; intros cur st Hwalk Hne Hwf Hcur;
    [done|].
  destruct (forEachPart_inv _ _ _ _ _ _ _ Hwalk Hwf Hcur)
    as (st1 & _ & Hwf1 & Hheap & _ & Hreg & Hkind & Hrest).
  assert (heap st1 !! cur = heap st !! cur) as Hcur1 by (by rewrite Hheap).
  exists cur. destruct rest as [|q rest].
  - destruct Hrest as (Hfree & -> & _). exists (Leaf value). split; [done|].
    split; [|done].
    destruct (extends_writeAt st1 cur (positionOf Number st cur p) (Leaf value))
      as [(Hk & _) Hheld].
    + by rewrite Hcur1.
    + rewrite (isArray_heap_eq st st1) by done. exact Hkind.
    + left. by rewrite (valueAt_heap_eq st st1).
    + apply (childAt_valueAt Number st); [done|done|].
      destruct (Hk cur) as [_ ->]; [by rewrite Hcur1|].
      rewrite (isArray_heap_eq st st1) by done. exact Hkind.
  - destruct Hrest as (l & st2 & Hcase & Hwf3 & Hl & Hgo).
    destruct (forEachPart_inv_extends Number p cur st st1 l st2)
      as [H03 Hheld]; try done.
    pose proof (forEachPart_extends _ _ _ _ _ _ Hgo Hwf3 Hl) as H3.
    exists (Ref l). split; [done|]. split.
    + apply (childAt_extends _ _ _ _ _ H3); [done|].
      apply (childAt_valueAt Number st); [done|done|].
      destruct H03 as (Hk & _). destruct (Hk cur Hcur) as [_ ->]. exact Hkind.
    + apply (IH _ _ Hgo); [done|done|done].
Qed.

(** When the loop over the entries returns, the value of every walked entry
    is reached from the root by the parts of its path. *)
Lemma forEntries_reaches rm te formData st st' entry path value :
  forEntries Number rm te formData st = Ok st' → wellFormed st →
  entry ∈ formData → walked Number rm te entry path value →
  reaches st' (Ref root) (extractPathParts path) (Leaf value).
Proof.
  intros Hloop Hwf (pre & post & ->)%list_elem_of_split (Hkept & Hte & Hparts).
  rewrite forEntries_app in Hloop.
  destruct (forEntries Number rm te pre st) as [st0| |?] eqn:Hpre; [|done..].
  apply forEntries_wellFormed in Hpre as [Hwf0 _]; [|done].
  cbn [mbind Result_bind forEntries] in Hloop. rewrite Hkept, Hte in Hloop.
  cbn [mbind Result_bind] in Hloop.
  destruct (forEachPart Number (extractPathParts path) value root st0)
    as [st1| |?] eqn:Hwalk; [|done..].
  cbn [mbind Result_bind] in Hloop.
  assert (is_Some (heap st0 !! root)) as Hroot.
  { destruct (wf_root _ Hwf0) as [o Ho]. by eexists. }
  pose proof (forEachPart_reaches _ _ _ _ _ Hwalk Hparts Hwf0 Hroot) as Hreach.
  apply forEachPart_wellFormed in Hwalk as (Hwf1 & _); [|done..].
  eapply reaches_extends; [|done|exact Hreach]. by eapply forEntries_extends.
Qed.

End ReachFacts.

(** ** Reading a tree back, value by value *)

Lemma mapM_elem_l {A B} (f : A → option B) l k x :
  mapM f l = Some k → x ∈ l → ∃ y, y ∈ k ∧ f x = Some y.
Proof.
  intros HF%mapM_Some [i Hi]%list_elem_of_lookup.
  destruct (Forall2_lookup_l _ _ _ _ _ HF Hi) as (y & Hy & Hxy).
  exists y. split; [by eapply list_elem_of_lookup_2|done].
Qed.

Lemma mapM_elem_r {A B} (f : A → option B) l k y :
  mapM f l = Some k → y ∈ k → ∃ x, x ∈ l ∧ f x = Some y.
Proof.
  intros HF%mapM_Some [i Hi]%list_elem_of_lookup.
  destruct (Forall2_lookup_r _ _ _ _ _ HF Hi) as (x & Hx & Hxy).
  exists x. split; [by eapply list_elem_of_lookup_2|done].
Qed.

Lemma mapM_fst {A B C} (g : B → option C) (l : list (A * B)) k :
  mapM (λ kv : A * B, j ← g kv.2; Some (kv.1, j)) l = Some k → k.*1 = l.*1.
Proof.
  revert k. induction l as [|[a b] l IH]; intros k; simpl.
  { by intros [= <-]. }
  destruct (g b) as [c|]; [|done]. simpl.
  destruct (mapM _ l) as [k'|]; [|done]. simpl. intros [= <-].
  rewrite !fmap_cons. simpl. f_equal. by apply IH.
Qed.

(** The properties of the tree of an object are the trees of its
    properties. *)
Lemma snapshot_object_lookup fuel st l o props key :
  heap st !! l = Some (CObject o) →
  snapshot (S fuel) st (Ref l) = Some (JObject props) →
  match o !! key with
  | Some u => ∃ ju, snapshot fuel st u = Some ju ∧ props !! key = Some ju
  | None => props !! key = None
  end.
Proof.
  intros Hl. rewrite (snapshot_object _ _ _ _ Hl).
  destruct (mapM _ (map_to_list o)) as [kvs|] eqn:Hkvs; [|done].
  simpl. intros [= <-].
  assert (NoDup (kvs.*1)) as Hnd.
  { rewrite (mapM_fst _ _ _ Hkvs). apply NoDup_fst_map_to_list. }
  destruct (o !! key) as [v|] eqn:Hv.
  - apply elem_of_map_to_list in Hv.
    destruct (mapM_elem_l _ _ _ _ Hkvs Hv) as ([k j] & Hin & Hj).
    simpl in Hj. destruct (snapshot fuel st v) as [j'|]; [|done].
    injection Hj as <- <-. exists j'. split; [done|].
    by apply elem_of_list_to_map_1.
  - apply not_elem_of_list_to_map_1. rewrite (mapM_fst _ _ _ Hkvs).
    intros ((k & v) & -> & Hin%elem_of_map_to_list)%list_elem_of_fmap.
    simpl in Hv. congruence.
Qed.

(** The elements of the tree of an array are the trees of its elements. *)
Lemma snapshot_array_elem fuel st l a items others j :
  heap st !! l = Some (CArray a) →
  snapshot (S fuel) st (Ref l) = Some (JArray items others) →
  j ∈ omap id items ++ others.*2 ↔
  ∃ v, holds (CArray a) v ∧ snapshot fuel st v = Some j.
Proof.
  intros Hl. rewrite (snapshot_array _ _ _ _ Hl).
  destruct (mapM _ (elems a)) as [items'|] eqn:Hitems; [|done]. simpl.
  destruct (mapM _ (named a)) as [others'|] eqn:Hothers; [|done]. simpl.
  intros [= <- <-]. rewrite elem_of_app, list_elem_of_omap, list_elem_of_fmap.
  split.
  - intros [(slot & Hslot & Hj)|([n j'] & -> & Hin)].
    + destruct slot as [j'|]; [|done]. injection Hj as ->.
      destruct (mapM_elem_r _ _ _ _ Hitems Hslot) as ([v|] & Hv & Hsnap);
        [|done].
      exists v. split; [by left|].
      destruct (snapshot fuel st v); [|done]. by injection Hsnap as ->.
    + destruct (mapM_elem_r _ _ _ _ Hothers Hin) as ([m v] & Hv & Hsnap).
      simpl in Hsnap. exists v.
      destruct (snapshot fuel st v); [|done]. injection Hsnap as -> ->.
      split; [right; by eexists|done].
  - intros (v & [Hv|[n Hv]] & Hsnap).
    + left. destruct (mapM_elem_l _ _ _ _ Hitems Hv) as (slot & Hslot & Hj).
      simpl in Hj. rewrite Hsnap in Hj. injection Hj as <-.
      by exists (Some j).
    + right. destruct (mapM_elem_l _ _ _ _ Hothers Hv) as (nj & Hin & Hj).
      simpl in Hj. rewrite Hsnap in Hj. injection Hj as <-.
      by exists (n, j).
Qed.

Lemma snapshot_Leaf fuel st x : snapshot fuel st (Leaf x) = Some (JLeaf x).
Proof. by destruct fuel. Qed.

Lemma snapshot_Ref_inv fuel st l j :
  snapshot fuel st (Ref l) = Some j →
  ∃ fuel' c, fuel = S fuel' ∧ heap st !! l = Some c
    ∧ match c with
      | CObject _ => ∃ props, j = JObject props
      | CArray _ => ∃ items others, j = JArray items others
      end.
Proof.
  destruct fuel as [|fuel]; [done|]. cbn [snapshot].
  destruct (heap st !! l) as [[o|a]|] eqn:Hl; [..|done].
  - destruct (mapM _ _); simpl; [|done]. intros [= <-].
    exists fuel, (CObject o). by eauto.
  - destruct (mapM _ (elems a)); simpl; [|done].
    destruct (mapM _ (named a)); simpl; [|done]. intros [= <-].
    exists fuel, (CArray a). by eauto.
Qed.

Lemma arrayGet_holds' a order w : arrayGet a order = Some w → holds (CArray a) w.
Proof. apply arrayGet_holds. Qed.

(** What is reached in the heap is found in the tree. *)
Lemma snapshot_reaches st parts fuel v j w :
  snapshot fuel st v = Some j → reaches st v parts w →
  ∃ fuel' j', snapshot fuel' st w = Some j' ∧ j' ∈ valuesAt parts j.
Proof.
  revert fuel v j. induction parts as [|p rest IH]; intros fuel v j Hj.
  { intros <-. exists fuel, j. split; [done|]. by apply list_elem_of_singleton. }
  simpl. intros (cur & u & -> & Hchild & Hrest).
  destruct (snapshot_Ref_inv _ _ _ _ Hj) as (fuel' & c & -> & Hc & Hshape).
  unfold childAt, isArray, objectAt, arrayAt in Hchild. rewrite Hc in Hchild.
  destruct (type p), c as [o|a]; try (by destruct Hchild).
  - destruct Hchild as [_ Hu]. destruct Hshape as [props ->].
    pose proof (snapshot_object_lookup _ _ _ _ _ (path p) Hc Hj) as Hprop.
    rewrite Hu in Hprop. destruct Hprop as (ju & Hju & ->).
    by eapply IH.
  - destruct Hchild as [_ [order Hu%arrayGet_holds]].
    destruct Hshape as (items & others & ->).
    assert (is_Some (snapshot fuel' st u)) as [ju Hju].
    { rewrite (snapshot_array _ _ _ _ Hc) in Hj.
      destruct (mapM _ (elems a)) as [items'|] eqn:Hitems; [|done].
      simpl in Hj.
      destruct (mapM _ (named a)) as [others'|] eqn:Hothers; [|done].
      destruct Hu as [Hu|[n Hu]].
      - destruct (mapM_elem_l _ _ _ _ Hitems Hu) as (y & _ & Hy). simpl in Hy.
        destruct (snapshot fuel' st u); [by eexists|done].
      - destruct (mapM_elem_l _ _ _ _ Hothers Hu) as (y & _ & Hy). simpl in Hy.
        destruct (snapshot fuel' st u); [by eexists|done]. }
    destruct (IH _ _ _ Hju Hrest) as (fuel'' & j' & Hj' & Hin).
    exists fuel'', j'. split; [done|].
    apply list_elem_of_bind. exists ju. split; [done|].
    apply (snapshot_array_elem _ _ _ _ _ _ _ Hc Hj). by exists u.
Qed.

(** What is found in the tree is the tree of a value of the heap: the value
    the tree was read from, or a value some container holds. *)
Lemma valuesAt_snapshot st parts fuel v j j' :
  snapshot fuel st v = Some j → j' ∈ valuesAt parts j →
  ∃ fuel' w, snapshot fuel' st w = Some j'
    ∧ (parts = [] ∧ w = v ∨ ∃ l c, heap st !! l = Some c ∧ holds c w).
Proof.
  revert fuel v j. induction parts as [|p rest IH]; intros fuel v j Hj.
  { intros ->%list_elem_of_singleton. exists fuel, v. by auto. }
  simpl. intros Hin.
  assert (∃ fuel' u ju l c, snapshot fuel' st u = Some ju
            ∧ heap st !! l = Some c ∧ holds c u ∧ j' ∈ valuesAt rest ju)
    as (fuel' & u & ju & l & c & Hju & Hc & Hu & Hin').
  { destruct v as [x|l|b]; [| |by destruct fuel].
    { rewrite snapshot_Leaf in Hj. injection Hj as <-.
      destruct (type p); by apply elem_of_nil in Hin. }
    destruct (snapshot_Ref_inv _ _ _ _ Hj) as (fuel' & c & -> & Hc & Hshape).
    destruct c as [o|a].
    - destruct Hshape as [props ->].
      destruct (type p); [|by apply elem_of_nil in Hin].
      pose proof (snapshot_object_lookup _ _ _ _ _ (path p) Hc Hj) as Hprop.
      destruct (o !! path p) as [u|] eqn:Hu.
      2:{ rewrite Hprop in Hin. by apply elem_of_nil in Hin. }
      destruct Hprop as (ju & Hju & Hprop). rewrite Hprop in Hin.
      exists fuel', u, ju, l, (CObject o). split; [done|]. split; [done|].
      split; [by exists (path p)|done].
    - destruct Hshape as (items & others & ->).
      destruct (type p); [by apply elem_of_nil in Hin|].
      apply list_elem_of_bind in Hin as (ju & Hin & Hju).
      apply (snapshot_array_elem _ _ _ _ _ _ _ Hc Hj) in Hju as (u & Hu & Hju).
      by exists fuel', u, ju, l, (CArray a). }
  destruct (IH _ _ _ Hju Hin') as (fuel'' & w & Hw & [[_ ->]|Hheld]).
  - exists fuel'', u. split; [done|]. right. by exists l, c.
  - exists fuel'', w. split; [done|]. by right.
Qed.

(** Along object parts there is one way through a tree. *)
Lemma valuesAt_objects parts j x :
  Forall (λ p, type p = object) parts →
  x ∈ valuesAt parts j → valuesAt parts j = [x].
Proof.
  intros Hparts. revert j. induction Hparts as [|p rest Hp _ IH]; intros j.
  { by intros ->%list_elem_of_singleton. }
  simpl. rewrite Hp. destruct j as [v|props|items others];
    try (by intros ?%elem_of_nil).
  destruct (props !! path p) as [j'|]; [apply IH|by intros ?%elem_of_nil].
Qed.

(** ** No array of the result has a hole *)

Lemma dense_squashAll st l a :
  wellFormed st → heap (squashAll st) !! l = Some (CArray a) →
  Forall is_Some (elems a).
Proof.
  intros Hwf. rewrite heap_squashAll.
  destruct (heap st !! l) as [[o|a']|] eqn:Hl; [done| |done].
  destruct (decide _) as [Hin|Hnin]; intros [= <-].
  - unfold compact. simpl. apply Forall_fmap, Forall_forall. intros v _.
    by eexists.
  - by eapply (wf_dense _ Hwf).
Qed.

(** The tree of an array whose slots are all set has no hole. *)
Lemma snapshot_array_dense fuel st l a items others :
  heap st !! l = Some (CArray a) → Forall is_Some (elems a) →
  snapshot (S fuel) st (Ref l) = Some (JArray items others) →
  Forall is_Some items ∧ length items = length (elems a).
Proof.
  intros Hl Hdense. rewrite (snapshot_array _ _ _ _ Hl).
  destruct (mapM _ (elems a)) as [items'|] eqn:Hitems; [|done]. simpl.
  destruct (mapM _ (named a)) as [others'|]; [|done]. simpl.
  intros [= <- <-]. split.
  - apply Forall_forall. intros item Hitem.
    destruct (mapM_elem_r _ _ _ _ Hitems Hitem) as (slot & Hslot & Hsnap).
    apply (proj1 (Forall_forall _ _) Hdense) in Hslot as [v ->].
    simpl in Hsnap. destruct (snapshot fuel st v); [|done].
    injection Hsnap as <-. by eexists.
  - symmetry. by eapply length_mapM.
Qed.


(** ** Every leaf of the tree sits at the path of its entry *)




Section PlacedFacts.
Variable Number : FormDataEntryValue → number.
Variable Q : list Place → JsonLeafValue → Prop.









End PlacedFacts.


(** ** Entries that meet *)

Lemma valueAt_is_Some st cur pos u :
  valueAt st cur pos = Some u → (∀ b, u ≠ Inherited b) →
  is_Some (heap st !! cur).
Proof.
  intros Hu Hown. apply valueAt_holds in Hu as (c & Hc & _); [|done].
  by eexists.
Qed.

Section MeetFacts.
Variable Number : FormDataEntryValue → number.

Lemma positionOf_fixed st st' cur cur' p :
  fixedPart p = true →
  positionOf Number st cur p = positionOf Number st' cur' p.
Proof.
  unfold fixedPart, positionOf. destruct (type p); [done|].
  by intros ->%negb_true_iff.
Qed.

Lemma standsAt_keyOf st cur p q u :
  keyOf p = keyOf q → standsAt Number st cur p u → standsAt Number st cur q u.
Proof.
  unfold keyOf, standsAt, positionOf. by intros [= -> ->].
Qed.

Lemma fixedPart_keyOf p q : keyOf p = keyOf q → fixedPart p = fixedPart q.
Proof. unfold keyOf, fixedPart. by intros [= -> ->]. Qed.

Lemma standsAt_extends st st' cur p u :
  extends st st' → fixedPart p = true → (∀ b, u ≠ Inherited b) →
  standsAt Number st cur p u → standsAt Number st' cur p u.
Proof.
  intros (Hkind & Hval & Hreg) Hfixed Hown [Hu Hcur].
  destruct (Hkind cur (valueAt_is_Some _ _ _ _ Hu Hown)) as [_ Harr].
  split.
  - rewrite (positionOf_fixed st' st cur cur p Hfixed). by apply Hval.
  - rewrite Harr. destruct (type p); [done|]. split; [tauto|]. apply Hreg. tauto.
Qed.

Lemma follows_extends st st' v parts w :
  extends st st' → Forall (λ p, fixedPart p = true) parts →
  (∀ b, w ≠ Inherited b) →
  follows Number st v parts w → follows Number st' v parts w.
Proof.
  intros Hext Hfixed Hown. revert v.
  induction Hfixed as [|p rest Hp _ IH]; intros v; [done|].
  simpl. intros (cur & u & -> & Hstands & Hrest).
  exists cur, u. split; [done|]. split; [|by apply IH].
  apply (standsAt_extends st); [done|done| |done].
  destruct rest as [|q rest]; simpl in Hrest.
  - by subst u.
  - by destruct Hrest as (cur' & u' & -> & _).
Qed.

(** After a walk that returns, along parts none of which is a push, the
    positions of the parts lead from the container the walk started at to
    the leaf. *)
Lemma forEachPart_follows parts value cur st st' :
  forEachPart Number parts value cur st = Ok st' →
  parts ≠ [] → Forall (λ p, fixedPart p = true) parts →
  wellFormed st → is_Some (heap st !! cur) →
  follows Number st' (Ref cur) parts (Leaf value).
Proof.
  revert cur st. induction parts as [|p rest IH];
    intros cur st Hwalk Hne Hfixed Hwf Hcur; [done|].
  apply Forall_cons in Hfixed as [Hp Hfixed].
  destruct (forEachPart_inv _ _ _ _ _ _ _ Hwalk Hwf Hcur)
    as (st1 & Hhandle & Hwf1 & Hheap & _ & Hreg & Hkind & Hrest).
  assert (heap st1 !! cur = heap st !! cur) as Hcur1 by (by rewrite Hheap).
  assert (type p = array → cur ∈ arraysWithOrder st1) as Hregistered.
  { intros Hty. eapply handlePathPart_registers; [exact Hty| |exact Hhandle].
    unfold fixedPart in Hp. rewrite Hty in Hp.
    by apply negb_true_iff, String.eqb_neq in Hp. }
  set (pos := positionOf Number st cur p) in *.
  assert (match type p with
          | object => isArray st cur = false
          | array => isArray st cur = true
          end) as Hkind'.
  { unfold pos, positionOf in Hkind. by destruct (type p). }
  exists cur. destruct rest as [|q rest].
  - destruct Hrest as (Hfree & -> & _). exists (Leaf value). split; [done|].
    split; [|done].
    destruct (extends_writeAt st1 cur pos (Leaf value)) as [(Hk & _) Hheld].
    + by rewrite Hcur1.
    + rewrite (isArray_heap_eq st st1) by done. exact Hkind.
    + left. by rewrite (valueAt_heap_eq st st1).
    + split.
      * by rewrite (positionOf_fixed _ st cur cur p Hp).
      * destruct (Hk cur) as [_ ->]; [by rewrite Hcur1|].
        rewrite (isArray_heap_eq st st1) by done.
        destruct (type p); [done|]. split; [done|].
        specialize (Hregistered eq_refl). by rewrite arraysWithOrder_writeAt.
  - destruct Hrest as (l & st2 & Hcase & Hwf3 & Hl & Hgo).
    destruct (forEachPart_inv_extends Number p cur st st1 l st2)
      as [H03 Hheld]; try done.
    fold pos in H03, Hheld.
    pose proof (forEachPart_extends _ _ _ _ _ _ Hgo Hwf3 Hl) as H3.
    exists (Ref l). split; [done|]. split.
    + apply (standsAt_extends _ _ _ _ _ H3 Hp); [done|]. split.
      * by rewrite (positionOf_fixed _ st cur cur p Hp).
      * destruct H03 as (Hk & _). destruct (Hk cur Hcur) as [_ ->].
        destruct (type p); [done|]. split; [done|].
        specialize (Hregistered eq_refl).
        rewrite arraysWithOrder_writeAt.
        destruct Hcase as [[_ ->]|[_ Halloc]]; [done|].
        assert (st2 = (alloc (default p) st1).2) as ->
          by (by rewrite <- Halloc).
        done.
    + by apply (IH _ _ Hgo).
Qed.

(** The part of a path that stands at a value: [handlePathPart] returns
    that value. *)
Lemma handlePathPart_standsAt p cur st u :
  fixedPart p = true → standsAt Number st cur p u →
  ∃ st1,
    handlePathPart Number p cur st
    = Ok (Some u, writeAt cur (positionOf Number st cur p), st1)
    ∧ heap st1 = heap st
    ∧ arraysWithOrder st1 = arraysWithOrder st.
Proof.
  unfold fixedPart, standsAt, positionOf. intros Hp [Hu Hcur].
  destruct (type p) eqn:Hty.
  - exists st. rewrite handlePathPart_object, Hcur by done. simpl in Hu.
    by rewrite Hu.
  - apply negb_true_iff in Hp. rewrite Hp in Hu |- *.
    apply String.eqb_neq in Hp. destruct Hcur as [Harr Hin].
    exists (addOrdered cur st). rewrite handlePathPart_index by done.
    rewrite (bool_decide_eq_false_2 (cur ∉ _)) by tauto. simpl in Hu |- *.
    rewrite Hu. split; [done|]. split; [done|]. by rewrite decide_True.
Qed.

(** A step of a walk through a container that is there. *)
Lemma forEachPart_through p rest value cur st l set st1 :
  rest ≠ [] →
  handlePathPart Number p cur st = Ok (Some (Ref l), set, st1) →
  forEachPart Number (p :: rest) value cur st
  = forEachPart Number rest value l (set (Ref l) st1).
Proof.
  intros Hne H. destruct rest; [done|].
  by rewrite (forEachPart_next Number _ _ _ _ _ _ _ _ _ H).
Qed.

(** The state after such a step extends the state before it, and no array
    is registered by it. *)
Lemma standsAt_step p cur st st1 l :
  standsAt Number st cur p (Ref l) →
  heap st1 = heap st → arraysWithOrder st1 = arraysWithOrder st →
  extends st (writeAt cur (positionOf Number st cur p) (Ref l) st1)
  ∧ arraysWithOrder (writeAt cur (positionOf Number st cur p) (Ref l) st1)
    = arraysWithOrder st.
Proof.
  intros [Hu Hcur] Hheap Hreg.
  split; [|by rewrite arraysWithOrder_writeAt].
  eapply extends_trans.
  { apply extends_heap_eq; [done|]. intros l0. by rewrite Hreg. }
  apply extends_writeAt.
  - rewrite Hheap. by eapply valueAt_is_Some.
  - rewrite (isArray_heap_eq st st1) by (by rewrite Hheap).
    unfold positionOf. destruct (type p); tauto.
  - right. by rewrite (valueAt_heap_eq st st1) by (by rewrite Hheap).
Qed.

(** A walk whose parts address the positions along which a value already
    stands, up to the end of the shorter of the two paths, throws
    [DuplicateKeyError] at the part where the shorter path ends: the last
    part of the walk finds a value, or a leaf is in the way of the walk. *)
Lemma forEachPart_meets parts1 parts2 value cur st w :
  follows Number st (Ref cur) parts1 w →
  (∀ b, w ≠ Inherited b) →
  Forall (λ p, fixedPart p = true) parts1 →
  parts1 ≠ [] → parts2 ≠ [] →
  (keyOf <$> parts2) `prefix_of` (keyOf <$> parts1)
  ∨ ((∃ x, w = Leaf x) ∧ (keyOf <$> parts1) `prefix_of` (keyOf <$> parts2)) →
  ∃ p, parts2 !! (min (length parts1) (length parts2) - 1) = Some p
    ∧ forEachPart Number parts2 value cur st
      = Throw (DuplicateKeyError (pathToPart p)).
Proof.
  revert parts2 cur st. induction parts1 as [|p1 r1 IH];
    intros parts2 cur st Hfollow Hown Hfixed Hne1 Hne2 Hmeet; [done|].
  destruct parts2 as [|p2 r2]; [done|].
  apply Forall_cons in Hfixed as [Hp1 Hfixed].
  rewrite !fmap_cons in Hmeet.
  assert (keyOf p1 = keyOf p2) as Hkey.
  { destruct Hmeet as [H|[_ H]]; by apply prefix_cons_inv_1 in H. }
  assert (fixedPart p2 = true) as Hp2 by (by rewrite <- (fixedPart_keyOf p1 p2)).
  destruct Hfollow as (cur' & u & [= <-] & Hstands & Hrest).
  apply (standsAt_keyOf _ _ _ p2) in Hstands; [|done].
  destruct (handlePathPart_standsAt p2 cur st u Hp2 Hstands)
    as (st1 & Hhandle & Hheap & Hreg).
  destruct r2 as [|q2 r2].
  { exists p2. split; [by destruct r1|].
    by rewrite (forEachPart_last Number _ _ _ _ _ _ _ Hhandle). }
  rewrite (forEachPart_next Number _ _ _ _ _ _ _ _ _ Hhandle).
  destruct u as [x|l|b].
  { destruct r1 as [|q1 r1]; [|by destruct Hrest as (? & ? & ? & _)].
    by exists p2. }
  2:{ destruct r1 as [|q1 r1]; [|by destruct Hrest as (? & ? & ? & _)].
      simpl in Hrest. subst w. by destruct (Hown b). }
  destruct r1 as [|q1 r1].
  { simpl in Hrest. subst w. destruct Hmeet as [H|[[x [=]] _]].
    apply prefix_length in H. simpl in H. lia. }
  destruct (IH (q2 :: r2) l
              (writeAt cur (positionOf Number st cur p2) (Ref l) st1) )
    as (p & Hp & Hthrow); [|done|done|done|done| |].
  - apply (follows_extends st); [|done|done|done].
    by apply standsAt_step.
  - destruct Hmeet as [H|[Hw H]]; [left|right; split; [done|]];
      by apply prefix_cons_inv_2 in H.
  - exists p. split; [|done].
    replace (length (p1 :: q1 :: r1) `min` length (p2 :: q2 :: r2) - 1)
      with (S (length (q1 :: r1) `min` length (q2 :: r2) - 1))
      by (simpl; lia).
    done.
Qed.

(** The loop over the entries, for an entry whose path meets the path of an
    entry walked before it. *)
Lemma forEntries_meets rm te pre entry1 mid entry2 post st s1 v1 s2 v2 :
  forEntries Number rm te (pre ++ entry1 :: mid) initialState = Ok st →
  walked Number rm te entry1 s1 v1 → walked Number rm te entry2 s2 v2 →
  Forall (λ p, fixedPart p = true) (extractPathParts s1) →
  (keyOf <$> extractPathParts s2) `prefix_of` (keyOf <$> extractPathParts s1)
  ∨ (keyOf <$> extractPathParts s1) `prefix_of` (keyOf <$> extractPathParts s2) →
  ∃ p,
    extractPathParts s2
      !! (min (length (extractPathParts s1)) (length (extractPathParts s2)) - 1)
    = Some p
    ∧ forEntries Number rm te (pre ++ entry1 :: mid ++ entry2 :: post)
        initialState
      = Throw (DuplicateKeyError (pathToPart p)).
Proof.
  intros Hloop (Hkept1 & Hte1 & Hparts1) (Hkept2 & Hte2 & Hparts2) Hfixed Hmeet.
  assert (follows Number st (Ref root) (extractPathParts s1) (Leaf v1))
    as Hfollow.
  { rewrite forEntries_app in Hloop.
    destruct (forEntries Number rm te pre initialState) as [st0| |?] eqn:Hpre;
      [|done..].
    apply forEntries_wellFormed in Hpre as [Hwf0 _];
      [|apply wellFormed_initialState].
    cbn [mbind Result_bind forEntries] in Hloop. rewrite Hkept1, Hte1 in Hloop.
    cbn [mbind Result_bind] in Hloop.
    destruct (forEachPart Number (extractPathParts s1) v1 root st0)
      as [st1| |?] eqn:Hwalk; [|done..].
    cbn [mbind Result_bind] in Hloop.
    assert (is_Some (heap st0 !! root)) as Hroot.
    { destruct (wf_root _ Hwf0) as [o Ho]. by eexists. }
    pose proof (forEachPart_follows _ _ _ _ _ Hwalk Hparts1 Hfixed Hwf0 Hroot)
      as Hfollow.
    apply forEachPart_wellFormed in Hwalk as (Hwf1 & _); [|done..].
    eapply follows_extends; [|done|done|exact Hfollow].
    by eapply forEntries_extends. }
  destruct (forEachPart_meets (extractPathParts s1) (extractPathParts s2) v2
              root st (Leaf v1) Hfollow ltac:(done) Hfixed Hparts1 Hparts2)
    as (p & Hp & Hthrow).
  { destruct Hmeet as [H|H]; [by left|right]. split; [by eexists|done]. }
  exists p. split; [done|].
  change (entry1 :: mid ++ entry2 :: post)
    with ((entry1 :: mid) ++ entry2 :: post).
  rewrite (assoc_L (++)), forEntries_app, Hloop.
  cbn [mbind Result_bind forEntries]. rewrite Hkept2, Hte2.
  cbn [mbind Result_bind]. by rewrite Hthrow.
Qed.

End MeetFacts.

(** ** Flat form data *)

Lemma extractPathParts_segment key :
  isSegment key → ¬ bracketLike key →
  extractPathParts key
  = [ {| path := key; type := object; default := EmptyObject;
         pathToPart := key |} ].
Proof.
  intros Hseg Hnb.
  pose proof (extractPathParts_grammar {| first := key; steps := [] |}) as H.
  unfold render, partsOf in H. simpl in H. rewrite append_nil_r in H.
  apply H. split; [done|constructor].
Qed.

Lemma heap_flatState m : heap (flatState m) !! root = Some (CObject (Leaf <$> m)).
Proof. apply lookup_singleton_eq. Qed.

Lemma flatState_empty : flatState ∅ = initialState.
Proof. unfold flatState, initialState. by rewrite fmap_empty. Qed.

Section FlatFacts.
Variable Number : FormDataEntryValue → number.

(** A one-segment path on a root that holds leaves only. *)
Lemma forEachPart_flat key p value m :
  type p = object → path p = key → pathToPart p = key →
  key ∉ inheritedNames →
  forEachPart Number [p] value root (flatState m)
  = match m !! key with
    | Some _ => Throw (DuplicateKeyError key)
    | None => Ok (flatState (<[key := value]> m))
    end.
Proof.
  intros Hty Hpath Hto Hown.
  assert (key ≠ "__proto__") as Hproto by (intros ->; apply Hown; by left).
  assert (key ∉ functionNames) as Hfun by (intros ?; apply Hown; by right).
  assert (getProperty (flatState m) root key = Leaf <$> m !! key) as Hget.
  { unfold getProperty, objectAt. rewrite heap_flatState, lookup_fmap.
    destruct (m !! key); [done|]. simpl. by rewrite !decide_False. }
  cbn [forEachPart]. rewrite handlePathPart_object by done.
  unfold isArray. rewrite heap_flatState, Hpath, Hto, Hget.
  cbn [mbind Result_bind]. destruct (m !! key) as [x|]; [done|]. simpl.
  unfold setProperty. rewrite decide_False by done.
  unfold setContainer, objectAt. rewrite heap_flatState.
  unfold flatState. simpl. by rewrite insert_singleton_eq, fmap_insert.
Qed.

Lemma forEntries_flat_cons key v rest m :
  plainKey key →
  forEntries Number false (defaultTransformEntry Number) ((key, v) :: rest)
    (flatState m)
  = match m !! key with
    | Some _ => Throw (DuplicateKeyError key)
    | None =>
        forEntries Number false (defaultTransformEntry Number) rest
          (flatState (<[key := leafOfEntryValue v]> m))
    end.
Proof.
  intros (Hseg & Hnb & Hplain & Hown). rewrite forEntries_cons_plain by done.
  rewrite extractPathParts_segment by done.
  rewrite (forEachPart_flat key) by done. by destruct (m !! key).
Qed.

(** Entries with distinct plain keys end up as the properties of the
    root. *)
Lemma forEntries_flat formData m :
  Forall plainKey formData.*1 → NoDup formData.*1 →
  (∀ key, key ∈ formData.*1 → m !! key = None) →
  forEntries Number false (defaultTransformEntry Number) formData (flatState m)
  = Ok (flatState (list_to_map (leafEntry <$> formData) ∪ m)).
Proof.
  revert m. induction formData as [|[key v] rest IH]; intros m Hplain Hnd Hfree.
  { simpl. by rewrite (left_id_L ∅ (∪)). }
  rewrite fmap_cons in Hplain, Hnd. simpl in Hplain, Hnd.
  apply Forall_cons in Hplain as [Hkey Hplain].
  apply NoDup_cons in Hnd as [Hnin Hnd].
  rewrite forEntries_flat_cons by done.
  rewrite Hfree by (rewrite fmap_cons; by left).
  rewrite IH; [|done|done|].
  - do 2 f_equal. rewrite fmap_cons. simpl.
    rewrite <- insert_union_l. symmetry. apply insert_union_r.
    apply not_elem_of_list_to_map_1.
    by rewrite <- list_fmap_compose.
  - intros key' Hin. rewrite lookup_insert_ne.
    + apply Hfree. rewrite fmap_cons. by right.
    + by intros ->.
Qed.

(** A plain key that comes again throws. *)
Lemma forEntries_flat_again pre key w post :
  Forall plainKey pre.*1 → NoDup pre.*1 → plainKey key → key ∈ pre.*1 →
  forEntries Number false (defaultTransformEntry Number)
    (pre ++ (key, w) :: post) initialState
  = Throw (DuplicateKeyError key).
Proof.
  intros Hplain Hnd Hkey Hin. rewrite forEntries_app, <- flatState_empty.
  rewrite forEntries_flat; [|done|done|by intros; apply lookup_empty].
  cbn [mbind Result_bind]. rewrite forEntries_flat_cons by done.
  rewrite (right_id_L ∅ (∪)).
  destruct (list_to_map (leafEntry <$> pre) !! key) eqn:Hlook; [done|].
  apply not_elem_of_list_to_map_2 in Hlook.
  by rewrite <- list_fmap_compose in Hlook.
Qed.

End FlatFacts.

Lemma Ok_inj {A} (a b : A) : Ok a = Ok b → a = b.
Proof. by intros [=]. Qed.

(** The tree of a root that holds leaves only. *)
Lemma resultOf_flatState m :
  wellFormed (flatState m) →
  resultOf (Ok (flatState m)) = Ok (Some (JObject (JLeaf <$> m))).
Proof.
  intros Hwf. destruct (resultOf_object _ Hwf) as [props Hprops].
  rewrite Hprops. do 3 f_equal.
  unfold resultOf in Hprops. cbn [mbind Result_bind] in Hprops.
  apply Ok_inj in Hprops. change (next (flatState m)) with 1 in Hprops.
  apply map_eq. intros key.
  pose proof (snapshot_object_lookup _ _ _ _ _ key (heap_flatState m) Hprops)
    as Hkey.
  rewrite !lookup_fmap in *. destruct (m !! key) as [x|]; simpl in *; [|done].
  destruct Hkey as (ju & [= <-] & ->). done.
Qed.

(** ** An array segment at the start of a path *)

Section RootFacts.
Variable Number : FormDataEntryValue → number.

(** The root is an object: an array part cannot address it. *)
Lemma forEachPart_array_at_root p rest value st :
  wellFormed st → type p = array →
  forEachPart Number (p :: rest) value root st
  = Throw (DuplicateKeyError (pathToPart p)).
Proof.
  intros Hwf Hty. apply kind_or_leaf_conflict. right. split; [done|].
  destruct (wf_root _ Hwf) as [o Ho]. unfold isArray. by rewrite Ho.
Qed.

End RootFacts.

(** A path that starts with an array segment has that segment as its first
    part: the opening bracket is passed over and the rest matches the first
    alternative. *)
Lemma extractPathParts_bracket_first d r :
  allChars isDigit d = true → startsStep r →
  ∃ rest,
    extractPathParts ("[" +:+ d +:+ "]" +:+ r)
    = {| path := d; type := array;
         default := if startsWith r "[" then EmptyArray else EmptyObject;
         pathToPart := "[" +:+ d +:+ "]" |} :: rest.
Proof.
  intros Hd Hr. unfold extractPathParts.
  change ("[" +:+ d +:+ "]" +:+ r) with (String "[" (d +:+ "]" +:+ r)).
  cbn [matchAll].
  assert (matchAt 0 (String "[" (d +:+ "]" +:+ r)) = None) as -> by done.
  pose proof (matchAt_bracket 1 d r Hd Hr) as Hm.
  rewrite <- append_assoc in *.
  rewrite (matchAll_hit _ (d +:+ "]") _ _ (ltac:(by destruct d)) Hm)
    by string_length.
  rewrite fmap_cons. eexists. f_equal.
  unfold toPathPart. cbn [groups nextType index match1].
  rewrite eqb_separatorOf. f_equal.
  change (String "[" ((d +:+ "]") +:+ r)) with (("[" +:+ d +:+ "]") +:+ r).
  apply substring_prefix'. string_length.
Qed.

(** ** What an error names *)

Section ErrorFacts.
Variable Number : FormDataEntryValue → number.

Lemma inObjectPrototype_Throw_part parts st e :
  inObjectPrototype parts st = Throw e →
  ∃ p, p ∈ parts ∧ e = DuplicateKeyError (pathToPart p).
Proof.
  destruct parts as [|p rest]; [done|]. simpl. intros H.
  exists p. split; [by left|]. destruct (type p); [|by injection H as <-].
  destruct (objectPrototypeMember (path p)); [|done]. by injection H as <-.
Qed.

(** The error of a walk carries the [pathToPart] of one of its parts, and a
    mixed-addressing error that of an array part. *)
Lemma forEachPart_Throw_part parts value cur st e :
  forEachPart Number parts value cur st = Throw e →
  ∃ p, p ∈ parts
    ∧ (e = DuplicateKeyError (pathToPart p)
       ∨ (e = MixedArrayError (pathToPart p) ∧ type p = array)).
Proof.
  revert cur st. induction parts as [|p rest IH]; intros cur st; [done|].
  assert (∀ cur' st', forEachPart Number rest value cur' st' = Throw e →
            ∃ p0, p0 ∈ p :: rest
              ∧ (e = DuplicateKeyError (pathToPart p0)
                 ∨ (e = MixedArrayError (pathToPart p0) ∧ type p0 = array)))
    as Hrest.
  { intros cur' st' (p0 & Hin & He)%IH. exists p0. split; [by right|done]. }
  assert (∀ e', e' = DuplicateKeyError (pathToPart p)
                ∨ (e' = MixedArrayError (pathToPart p) ∧ type p = array) →
            Throw e' = Throw (A := State) e →
            ∃ p0, p0 ∈ p :: rest
              ∧ (e = DuplicateKeyError (pathToPart p0)
                 ∨ (e = MixedArrayError (pathToPart p0) ∧ type p0 = array)))
    as Hhere.
  { intros e' He' [= <-]. exists p. split; [by left|done]. }
  destruct (handlePathPart Number p cur st) as [[[nv set] st1]|e'|key] eqn:H.
  2:{ rewrite (forEachPart_Throw_first Number _ _ _ _ _ _ H).
      apply Hhere. unfold handlePathPart in H.
      destruct (type p) eqn:Hty.
      - destruct (isArray st cur); [|done]. injection H as <-. by left.
      - destruct (negb (isArray st cur)); [injection H as <-; by left|].
        destruct (_ || _); [|done]. injection H as <-. by right. }
  2:{ simpl. by rewrite H. }
  destruct rest as [|q rest].
  { rewrite (forEachPart_last Number _ _ _ _ _ _ _ H).
    destruct nv; [|done]. apply Hhere. by left. }
  rewrite (forEachPart_next Number _ _ _ _ _ _ _ _ _ H).
  destruct nv as [[x|l|[name|]]|].
  - apply Hhere. by left.
  - apply Hrest.
  - apply Hhere. by left.
  - intros (p0 & Hin & He)%inObjectPrototype_Throw_part.
    exists p0. split; [by right|by left].
  - apply Hrest.
Qed.

(** What the loop over the entries throws: what the callback threw on an
    entry, or an error of the library that carries the [pathToPart] of a
    part of the path of an entry. *)
Lemma forEntries_Throw_part rm te formData st e :
  forEntries Number rm te formData st = Throw e →
  (∃ entry, entry ∈ formData ∧ rm && isEmptyString entry.2 = false
     ∧ te entry (defaultTransform Number) = Throw e)
  ∨ ∃ entry path value p,
      entry ∈ formData ∧ walked Number rm te entry path value
      ∧ p ∈ extractPathParts path
      ∧ (e = DuplicateKeyError (pathToPart p)
         ∨ (e = MixedArrayError (pathToPart p) ∧ type p = array)).
Proof.
  revert st. induction formData as [|entry rest IH]; intros st; [done|].
  simpl. intros H.
  assert (∀ st', forEntries Number rm te rest st' = Throw e →
    (∃ entry0, entry0 ∈ entry :: rest ∧ rm && isEmptyString entry0.2 = false
       ∧ te entry0 (defaultTransform Number) = Throw e)
    ∨ ∃ entry0 path value p,
        entry0 ∈ entry :: rest ∧ walked Number rm te entry0 path value
        ∧ p ∈ extractPathParts path
        ∧ (e = DuplicateKeyError (pathToPart p)
           ∨ (e = MixedArrayError (pathToPart p) ∧ type p = array))) as Hrest.
  { intros st' [(entry0 & Hin & Hte)|(entry0 & path & value & p & Hin & Hw)]%IH.
    - left. exists entry0. split; [by right|done].
    - right. exists entry0, path, value, p. split; [by right|done]. }
  destruct (rm && isEmptyString entry.2) eqn:Hkept; [by eapply Hrest|].
  destruct (te entry (defaultTransform Number)) as [[path value]|e'|key] eqn:Hte.
  2:{ injection H as <-. left. exists entry. split; [by left|done]. }
  2:{ done. }
  simpl in H.
  destruct (forEachPart Number (extractPathParts path) value root st)
    as [st'|e'|key] eqn:Hwalk; simpl in H; [by eapply Hrest| |done].
  injection H as <-. right.
  destruct (forEachPart_Throw_part _ _ _ _ _ Hwalk) as (p & Hp & He).
  exists entry, path, value, p. split; [by left|]. split; [|done].
  split; [done|]. split; [done|]. intros Hnil. rewrite Hnil in Hp.
  by apply elem_of_nil in Hp.
Qed.




End ErrorFacts.

(** ** A push before the end of a path *)

Section PushDescendFacts.
Variable Number : FormDataEntryValue → number.


End PushDescendFacts.

(** ** The type guard *)

Lemma isJsonObject_iff st val :
  isJsonObject st val = true
  ↔ (∃ l, val = Ref l ∧ isArray st l = false) ∨ val = Inherited ObjectPrototype.
Proof.
  unfold isJsonObject. destruct val as [[s|n|b| |f]|l|[name|]]; simpl;
    try (split; [done|by intros [(l & [=] & _)|[=]]]).
  - rewrite !andb_true_r. split.
    + intros H%negb_true_iff. left. by exists l.
    + intros [(l' & [= <-] & ->)|[=]]. done.
  - split; [by right|done].
Qed.

Lemma isLeafConflict_iff st nv :
  isLeafConflict st nv = true
  ↔ (∃ x, nv = Some (Leaf x))
    ∨ ∃ name, nv = Some (Inherited (BuiltinFunction name)).
Proof.
  destruct nv as [[x|l|[name|]]|]; simpl.
  - split; [left; by eexists|intros _]. by destruct x.
  - split; [|by intros [(x & [=])|(name & [=])]].
    unfold isJsonObject. simpl. rewrite !andb_true_r.
    by destruct (isArray st l).
  - split; [right; by eexists|done].
  - split; [done|by intros [(x & [=])|(name & [=])]].
  - split; [done|by intros [(x & [=])|(name & [=])]].
Qed.

(** ** Entries that address one array by index *)

Lemma pairsFrom_snd i slots : (pairsFrom i slots).*2 = omap id slots.
Proof.
  revert i. induction slots as [|[v|] slots IH]; intros i; simpl; [done|..].
  - by rewrite IH.
  - apply IH.
Qed.

Lemma elem_of_pairsFrom i slots j w :
  (j, w) ∈ pairsFrom i slots ↔ i ≤ j ∧ slots !! (j - i) = Some (Some w).
Proof.
  revert i. induction slots as [|[v|] slots IH]; intros i; simpl.
  - split; [by intros ?%elem_of_nil|by intros [_ ?]].
  - rewrite elem_of_cons, IH. split.
    + intros [[= -> ->]|[Hle Hlook]].
      * split; [done|]. by rewrite Nat.sub_diag.
      * split; [lia|]. by replace (j - i) with (S (j - S i)) by lia.
    + intros [Hle Hlook]. destruct (decide (j = i)) as [->|Hne].
      * rewrite Nat.sub_diag in Hlook. left. simpl in Hlook. congruence.
      * right. split; [lia|].
        by replace (j - i) with (S (j - S i)) in Hlook by lia.
  - rewrite IH. split.
    + intros [Hle Hlook]. split; [lia|].
      by replace (j - i) with (S (j - S i)) by lia.
    + intros [Hle Hlook]. destruct (decide (j = i)) as [->|Hne].
      * by rewrite Nat.sub_diag in Hlook.
      * split; [lia|].
        by replace (j - i) with (S (j - S i)) in Hlook by lia.
Qed.

Lemma pairsFrom_sorted i slots :
  StronglySorted (λ a b : nat * JsonLeafValue, a.1 < b.1) (pairsFrom i slots).
Proof.
  revert i. induction slots as [|[v|] slots IH]; intros i; simpl;
    [constructor| |apply IH].
  constructor; [apply IH|]. apply Forall_forall. intros [j w] Hin.
  apply elem_of_pairsFrom in Hin as [Hle _]. simpl. lia.
Qed.

Lemma StronglySorted_NoDup {A} (R : relation A) l :
  (∀ x, ¬ R x x) → StronglySorted R l → NoDup l.
Proof.
  intros Hirr. induction 1 as [|x l _ IH Hx]; constructor; [|done].
  intros Hin. eapply Forall_forall in Hx; [|done]. by apply Hirr in Hx.
Qed.

(** What a slot holds after a write. *)
Lemma lookup_writeLeaf slots x j w :
  writeLeaf slots x !! j = Some (Some w) ↔
  (j = slot x ∧ w = leafOf x) ∨ (j ≠ slot x ∧ slots !! j = Some (Some w)).
Proof.
  unfold writeLeaf. destruct (decide (slot x < length slots)) as [Hlt|Hge].
  - rewrite list_lookup_insert_Some. split.
    + intros [(<- & [= <-] & _)|[Hne Hlook]]; [by left|right]. by split.
    + intros [[-> ->]|[Hne Hlook]]; [by left|right]. by split.
  - destruct (decide (j < length slots)) as [Hj|Hj].
    + rewrite lookup_app_l by done. split.
      * intros Hlook. right. split; [lia|done].
      * intros [[-> _]|[_ Hlook]]; [lia|done].
    + rewrite lookup_app_r by lia.
      assert (slots !! j = None) as Hnone by (apply lookup_ge_None_2; lia).
      rewrite Hnone.
      destruct (decide (j - length slots < slot x - length slots)) as [Hin|Hout].
      * rewrite lookup_app_l by (by rewrite length_replicate).
        rewrite lookup_replicate_2 by done. split; [done|].
        intros [[-> _]|[_ [=]]]. lia.
      * rewrite lookup_app_r by (rewrite length_replicate; lia).
        rewrite length_replicate.
        destruct (decide (j = slot x)) as [->|Hne].
        -- rewrite Nat.sub_diag. simpl. split.
           ++ intros [= <-]. by left.
           ++ intros [[_ ->]|[? _]]; done.
        -- replace (j - length slots - (slot x - length slots))
             with (S (j - slot x - 1)) by lia.
           simpl. split; [done|]. intros [[-> _]|[_ [=]]]. done.
Qed.

(** What a slot holds after the writes of entries with distinct indices, on
    slots in which these indices are free. *)
Lemma lookup_foldl_writeLeaf xs slots j w :
  NoDup (slot <$> xs) →
  (∀ x w', x ∈ xs → slots !! slot x ≠ Some (Some w')) →
  foldl writeLeaf slots xs !! j = Some (Some w) ↔
  slots !! j = Some (Some w) ∨ ∃ x, x ∈ xs ∧ slot x = j ∧ w = leafOf x.
Proof.
  revert slots. induction xs as [|x xs IH]; intros slots Hnd Hfree; simpl.
  { split; [by left|]. intros [?|(x & Hin%elem_of_nil & _)]; done. }
  rewrite fmap_cons in Hnd. apply NoDup_cons in Hnd as [Hnin Hnd].
  rewrite IH; [|done|].
  2:{ intros y w' Hy. rewrite lookup_writeLeaf. intros [[Heq _]|[_ Hlook]].
      - apply Hnin. rewrite <- Heq. by apply list_elem_of_fmap_2.
      - eapply Hfree; [by right|done]. }
  rewrite lookup_writeLeaf. split.
  - intros [[[-> ->]|[_ Hlook]]|(y & Hy & Hslot & Hw)].
    + right. exists x. split; [by left|done].
    + by left.
    + right. exists y. split; [by right|done].
  - intros [Hlook|(y & [->|Hy]%elem_of_cons & <- & ->)].
    + left. right. split; [|done]. intros ->. eapply Hfree; [by left|done].
    + left. by left.
    + right. by exists y.
Qed.

#[local] Instance bySlot_trans : Transitive bySlot.
Proof. unfold bySlot. intros x y z. lia. Qed.

#[local] Instance bySlot_total : Total bySlot.
Proof. unfold bySlot. intros x y. lia. Qed.

Lemma StronglySorted_bySlot_strict xs :
  StronglySorted bySlot xs → NoDup (slot <$> xs) →
  StronglySorted (λ a b : nat * JsonLeafValue, a.1 < b.1)
    ((λ x, (slot x, leafOf x)) <$> xs).
Proof.
  induction 1 as [|x xs _ IH Hx]; intros Hnd; [constructor|].
  rewrite fmap_cons in *. apply NoDup_cons in Hnd as [Hnin Hnd].
  constructor; [by apply IH|].
  apply Forall_fmap, Forall_forall. intros y Hy. simpl.
  eapply Forall_forall in Hx; [|done]. unfold bySlot in Hx.
  assert (slot x ≠ slot y); [|lia].
  intros Heq. apply Hnin. rewrite Heq. by apply list_elem_of_fmap_2.
Qed.

(** The values of the slots that are set, in index order, are the values of
    the entries sorted by index. *)
Lemma omap_foldl_writeLeaf xs :
  NoDup (slot <$> xs) →
  omap id (foldl writeLeaf [] xs) = leafOf <$> merge_sort bySlot xs.
Proof.
  intros Hnd.
  pose proof (merge_sort_Permutation bySlot xs) as Hperm.
  assert (pairsFrom 0 (foldl writeLeaf [] xs)
          = (λ x, (slot x, leafOf x)) <$> merge_sort bySlot xs) as Hpairs.
  { apply (StronglySorted_unique_strong
             (λ a b : nat * JsonLeafValue, a.1 < b.1)).
    - intros a b _ _ Hab Hba. lia.
    - apply pairsFrom_sorted.
    - apply StronglySorted_bySlot_strict.
      + apply StronglySorted_merge_sort; apply _.
      + by rewrite Hperm.
    - apply NoDup_Permutation.
      + eapply StronglySorted_NoDup; [|apply pairsFrom_sorted].
        intros a. simpl. lia.
      + apply (NoDup_fmap_1 fst). rewrite <- list_fmap_compose.
        change (fst ∘ _) with slot. by rewrite Hperm.
      + intros [j w]. rewrite elem_of_pairsFrom, Nat.sub_0_r.
        rewrite lookup_foldl_writeLeaf; [|done|by intros x w' _].
        rewrite list_elem_of_fmap. setoid_rewrite Hperm. split.
        * intros [_ [[=]|(x & Hx & <- & ->)]]. by exists x.
        * intros (x & [= -> ->] & Hx). split; [lia|]. right. by exists x. }
  rewrite <- pairsFrom_snd with (i := 0), Hpairs, <- list_fmap_compose.
  done.
Qed.

Lemma NoDup_fmap_elem_inj {A B} (f : A → B) l x y :
  NoDup (f <$> l) → x ∈ l → y ∈ l → f x = f y → x = y.
Proof.
  induction l as [|z l IH]; [by intros _ ?%elem_of_nil|].
  rewrite fmap_cons. intros [Hnin Hnd]%NoDup_cons.
  intros [->|Hx]%elem_of_cons [->|Hy]%elem_of_cons Heq; [done|..].
  - destruct Hnin. rewrite Heq. by apply list_elem_of_fmap_2.
  - destruct Hnin. rewrite <- Heq. by apply list_elem_of_fmap_2.
  - by apply IH.
Qed.

(** Sorting by index does not depend on the order the entries come in. *)
Lemma merge_sort_bySlot_Permutation xs ys :
  NoDup (slot <$> xs) → xs ≡ₚ ys →
  merge_sort bySlot xs = merge_sort bySlot ys.
Proof.
  intros Hnd Hperm. apply (StronglySorted_unique_strong bySlot).
  - intros x y Hx Hy Hxy Hyx. unfold bySlot in *.
    rewrite merge_sort_Permutation in Hx, Hy. rewrite <- Hperm in Hy.
    apply (NoDup_fmap_elem_inj slot xs); [done..|lia].
  - apply StronglySorted_merge_sort; apply _.
  - apply StronglySorted_merge_sort; apply _.
  - by rewrite !merge_sort_Permutation.
Qed.

(** The tokens of [key[digits]]. *)
Lemma extractPathParts_indexed key d :
  isSegment key → ¬ bracketLike key → allChars isDigit d = true →
  extractPathParts (key +:+ "[" +:+ d +:+ "]")
  = [ {| path := key; type := object; default := EmptyArray; pathToPart := key |};
      {| path := d; type := array; default := EmptyObject;
         pathToPart := key +:+ "[" +:+ d +:+ "]" |} ].
Proof.
  intros Hseg Hnb Hd.
  pose proof (extractPathParts_grammar {| first := key; steps := [Bracket d] |})
    as H.
  unfold render, partsOf in H. simpl in H. rewrite !append_nil_r in H.
  apply H. split; [done|]. by repeat constructor.
Qed.

Lemma hasSigil_append key s : key ≠ "" → hasSigil (key +:+ s) = hasSigil key.
Proof. by destruct key. Qed.

Lemma fmap_writeLeaf slots x :
  leafSlot <$> writeLeaf slots x
  = elems (arraySet {| elems := leafSlot <$> slots; named := [] |}
             (Index (slot x)) (Leaf (leafOf x))).
Proof.
  unfold writeLeaf. simpl. rewrite length_fmap.
  destruct (decide (slot x < length slots)).
  - by rewrite list_fmap_insert.
  - by rewrite !fmap_app, fmap_replicate.
Qed.

(** Equality of heaps that hold the root and one array. *)
Ltac heap_eq :=
  let l := fresh "l" in
  apply map_eq; intros l;
  destruct (decide (l = 0)) as [->|];
    [|destruct (decide (l = 1)) as [->|]];
  repeat first
    [ rewrite lookup_insert_eq
    | rewrite lookup_insert_ne by done
    | rewrite lookup_singleton_eq
    | rewrite lookup_singleton_ne by done
    | rewrite lookup_empty ];
  try done.

Section IndexedFacts.
Variable Number : FormDataEntryValue → number.

Lemma heap_indexedState_root key slots :
  heap (indexedState key slots) !! root = Some (CObject {[ key := Ref 1 ]}).
Proof. apply lookup_insert_eq. Qed.

Lemma heap_indexedState_array key slots :
  heap (indexedState key slots) !! 1
  = Some (CArray {| elems := leafSlot <$> slots; named := [] |}).
Proof.
  cbn [heap indexedState]. by rewrite lookup_insert_ne, lookup_singleton_eq.
Qed.

Lemma arraySet_leaf slots x :
  arraySet {| elems := leafSlot <$> slots; named := [] |}
    (Index (slot x)) (Leaf (leafOf x))
  = {| elems := leafSlot <$> writeLeaf slots x; named := [] |}.
Proof. by rewrite fmap_writeLeaf. Qed.

(** An entry on the array it finds under [key], at an index that is free. *)
Lemma indexed_next key slots x :
  isSegment key → ¬ bracketLike key → key ∉ inheritedNames →
  indexedBy Number x →
  (∀ w, slots !! slot x ≠ Some (Some w)) →
  forEachPart Number (extractPathParts (indexedEntry key x).1) (leafOf x) root
    (indexedState key slots)
  = Ok (indexedState key (writeLeaf slots x)).
Proof.
  intros Hseg Hnb Hown (Hne & Hd & Hkey) Hfree. unfold indexedEntry. cbn [fst].
  rewrite extractPathParts_indexed by done.
  erewrite forEachPart_descend.
  2:{ rewrite handlePathPart_object by done. unfold isArray.
      rewrite heap_indexedState_root. cbn [path].
      rewrite getProperty_lookup by done. unfold objectAt.
      rewrite heap_indexedState_root. by rewrite lookup_singleton_eq. }
  assert (setProperty root key (Ref 1) (indexedState key slots)
          = indexedState key slots) as ->.
  { rewrite setProperty_own by done. unfold setContainer, objectAt.
    rewrite heap_indexedState_root. unfold indexedState. cbn [heap next
      arraysWithOrder]. f_equal. rewrite insert_singleton_eq. by heap_eq. }
  cbn [forEachPart].
  rewrite handlePathPart_index; [|done| |done].
  2:{ unfold isArray. by rewrite heap_indexedState_array. }
  cbn [arraysWithOrder indexedState path].
  rewrite (bool_decide_eq_false_2 (1 ∉ [1]))
    by (intros H; apply H, list_elem_of_singleton; reflexivity).
  cbn [andb mbind Result_bind]. rewrite Hkey.
  assert (arrayAt (indexedState key slots) 1
          = {| elems := leafSlot <$> slots; named := [] |}) as Hat.
  { unfold arrayAt. by rewrite heap_indexedState_array. }
  rewrite Hat. cbn [arrayGet elems].
  assert (mjoin ((leafSlot <$> slots) !! slot x) = None) as ->.
  { rewrite list_lookup_fmap. destruct (slots !! slot x) as [[w|]|] eqn:Hl;
      [|done..]. by destruct (Hfree w). }
  f_equal. unfold setElement, setContainer.
  assert (addOrdered 1 (indexedState key slots) = indexedState key slots) as ->.
  { unfold addOrdered. cbn [arraysWithOrder indexedState].
    by rewrite decide_True by (apply list_elem_of_singleton; reflexivity). }
  rewrite Hat, arraySet_leaf. unfold indexedState.
  cbn [heap next arraysWithOrder]. f_equal; try heap_eq.
Qed.

(** The first such entry: it creates the array. *)
Lemma indexed_first key x :
  isSegment key → ¬ bracketLike key → key ∉ inheritedNames →
  indexedBy Number x →
  forEachPart Number (extractPathParts (indexedEntry key x).1) (leafOf x) root
    initialState
  = Ok (indexedState key (writeLeaf [] x)).
Proof.
  intros Hseg Hnb Hown (Hne & Hd & Hkey). unfold indexedEntry. cbn [fst].
  rewrite extractPathParts_indexed by done.
  rewrite (forEachPart_next Number _ _ _ _ _ _ None (setProperty root key)
             initialState).
  2:{ rewrite handlePathPart_object by done.
      change (isArray initialState root) with false. cbn iota. cbn [path].
      by rewrite getProperty_lookup by done. }
  cbn [default alloc newContainer fst snd]. change (next initialState) with 1.
  rewrite setProperty_own by done.
  set (st := setContainer root _ _).
  assert (heap st !! (1 : loc) = Some (CArray emptyArray)) as Hone.
  { unfold st. cbn [heap setContainer next initialState].
    by rewrite lookup_insert_ne, lookup_insert_eq. }
  cbn [forEachPart].
  assert (arrayAt st 1 = emptyArray) as Hat.
  { unfold arrayAt. by rewrite Hone. }
  rewrite handlePathPart_index; [|done| |done].
  2:{ unfold isArray. by rewrite Hone. }
  rewrite Hat. cbn [elems emptyArray length].
  rewrite (bool_decide_eq_false_2 (0 < 0)) by lia.
  rewrite andb_false_r. cbn [mbind Result_bind path]. rewrite Hkey.
  rewrite arrayGet_emptyArray. f_equal.
  unfold setElement, setContainer.
  assert (arrayAt (addOrdered 1 st) 1 = emptyArray) as -> by exact Hat.
  pose proof (arraySet_leaf [] x) as Hset.
  change (arraySet emptyArray (Index (slot x)) (Leaf (leafOf x))
          = {| elems := leafSlot <$> writeLeaf [] x; named := [] |}) in Hset.
  rewrite Hset. unfold indexedState, addOrdered, st.
  cbn [heap next arraysWithOrder setContainer initialState].
  rewrite decide_False by apply not_elem_of_nil.
  change (objectAt _ root) with (∅ : gmap string JsonValue).
  rewrite insert_empty. f_equal; try heap_eq.
Qed.

Lemma forEntries_indexed_cons key x rest st :
  plainKey key →
  forEntries Number false (defaultTransformEntry Number)
    (indexedEntry key x :: rest) st
  = forEachPart Number (extractPathParts (indexedEntry key x).1) (leafOf x)
      root st
    ≫= forEntries Number false (defaultTransformEntry Number) rest.
Proof.
  intros ((Hne & _) & _ & Hplain & _). unfold indexedEntry.
  rewrite forEntries_cons_plain; [done|]. by rewrite hasSigil_append.
Qed.

(** Entries with distinct indices, on an array in which these indices are
    free: every entry is written at its index. *)
Lemma forEntries_indexed key slots xs :
  plainKey key → Forall (indexedBy Number) xs → NoDup (slot <$> xs) →
  (∀ x w, x ∈ xs → slots !! slot x ≠ Some (Some w)) →
  forEntries Number false (defaultTransformEntry Number)
    (indexedEntry key <$> xs) (indexedState key slots)
  = Ok (indexedState key (foldl writeLeaf slots xs)).
Proof.
  intros Hkey. revert slots.
  induction xs as [|x xs IH]; intros slots Hxs Hnd Hfree; [done|].
  rewrite fmap_cons in Hnd. apply NoDup_cons in Hnd as [Hnin Hnd].
  apply Forall_cons in Hxs as [Hx Hxs].
  rewrite fmap_cons, forEntries_indexed_cons by done.
  destruct Hkey as (Hseg & Hnb & Hplain & Hown) eqn:Hk. clear Hk.
  rewrite indexed_next; [|done..|].
  2:{ intros w. apply Hfree. by left. }
  cbn [mbind Result_bind foldl]. apply IH; [done|done|].
  intros y w Hy. rewrite lookup_writeLeaf. intros [[Heq _]|[_ Hlook]].
  - apply Hnin. rewrite <- Heq. by apply list_elem_of_fmap_2.
  - eapply Hfree; [by right|done].
Qed.

End IndexedFacts.

(** The compaction of such a state, and its tree. *)
Lemma flat0_leaves slots :
  flat0 (leafSlot <$> slots) = Leaf <$> omap id slots.
Proof.
  unfold flat0. induction slots as [|[v|] slots IH]; [done|..].
  - rewrite fmap_cons. cbn [omap list_omap leafSlot fmap option_fmap option_map id].
    rewrite fmap_cons. f_equal. exact IH.
  - rewrite fmap_cons. cbn [omap list_omap leafSlot fmap option_fmap option_map id].
    exact IH.
Qed.

Lemma squashAll_indexedState key slots :
  squashAll (indexedState key slots)
  = indexedState key (Some <$> omap id slots).
Proof.
  unfold squashAll. cbn [arraysWithOrder indexedState foldl]. unfold squash.
  cbn [heap indexedState]. rewrite lookup_insert_ne, lookup_singleton_eq by done.
  unfold setContainer, indexedState. cbn [heap next arraysWithOrder]. f_equal.
  heap_eq. do 3 f_equal. unfold compact. cbn [elems named].
  by rewrite flat0_leaves, <- !list_fmap_compose.
Qed.

Lemma snapshot_leaves fuel st (vs : list JsonLeafValue) :
  mapM (λ slot : option JsonValue,
          match slot with
          | Some w => j ← snapshot fuel st w; Some (Some j)
          | None => Some None
          end) (leafSlot <$> (Some <$> vs))
  = Some ((λ v, Some (JLeaf v)) <$> vs).
Proof.
  induction vs as [|v vs IH]; [done|].
  rewrite !fmap_cons. cbn [mapM leafSlot fmap option_fmap option_map].
  rewrite IH, snapshot_Leaf. done.
Qed.

Lemma resultOf_indexedState key vs :
  resultOf (Ok (indexedState key (Some <$> vs)))
  = Ok (Some (JObject {[ key := JArray ((λ v, Some (JLeaf v)) <$> vs) [] ]})).
Proof.
  unfold resultOf. cbn [mbind Result_bind]. do 2 f_equal.
  change (next _) with 2.
  rewrite (snapshot_object 1 _ _ {[ key := Ref 1 ]})
    by (cbn [heap indexedState]; by rewrite lookup_insert_eq).
  rewrite map_to_list_singleton. cbn [mapM fst snd].
  rewrite (snapshot_array 0 _ _
             {| elems := leafSlot <$> (Some <$> vs); named := [] |})
    by (cbn [heap indexedState];
        by rewrite lookup_insert_ne, lookup_singleton_eq).
  cbn [elems named]. rewrite snapshot_leaves. cbn.
  by rewrite insert_empty.
Qed.

(** ** The three outcomes of a parse *)

(** The [pathToPart] of a part is a prefix of the path, and is not empty. *)
Lemma pathToPart_prefix s p :
  p ∈ extractPathParts s → ∃ post, s = pathToPart p +:+ post ∧ pathToPart p ≠ "".
Proof.
  intros Hp.
  destruct (extractPathParts_elem _ _ Hp) as (pre & post & Hs & Hto & _ & _ & Hkey).
  exists post. split; [by rewrite Hto|]. rewrite Hto. unfold partText.
  destruct (type p); [|by destruct pre, (path p)].
  destruct Hkey as [Hne _]. by destruct pre, (path p).
Qed.

Section OutcomeFacts.
Variable Number : FormDataEntryValue → number.


(** What [parseFormData] throws: what the callback threw on an entry, or an
    error of the library whose key is the [pathToPart] of a part of the path
    of a walked entry. *)
Lemma parseFormData_Throw rm te formData e :
  parseFormData Number rm te formData = Throw e →
  (∃ entry, entry ∈ formData ∧ rm && isEmptyString entry.2 = false
     ∧ te entry (defaultTransform Number) = Throw e)
  ∨ ∃ entry s value p post,
      entry ∈ formData ∧ walked Number rm te entry s value
      ∧ p ∈ extractPathParts s
      ∧ s = pathToPart p +:+ post ∧ pathToPart p ≠ ""
      ∧ (e = DuplicateKeyError (pathToPart p)
         ∨ (e = MixedArrayError (pathToPart p) ∧ type p = array)).
Proof.
  unfold parseFormData.
  destruct (forEntries Number rm te formData initialState) as [st|e'|?] eqn:Hloop;
    [done| |done].
  intros [= ->].
  apply forEntries_Throw_part in Hloop
    as [?|(entry & s & value & p & Hin & Hwalked & Hp & He)]; [by left|right].
  destruct (pathToPart_prefix _ _ Hp) as (post & Hs & Hne).
  by exists entry, s, value, p, post.
Qed.


End OutcomeFacts.

(** ** Reading back the pushed state *)

Lemma snapshot_slots fuel st vs :
  mapM (λ slot : option JsonValue,
          match slot with
          | Some w => j ← snapshot fuel st w; Some (Some j)
          | None => Some None
          end) (slotOf <$> vs)
  = Some ((λ v, Some (JLeaf (leafOfEntryValue v))) <$> vs).
Proof.
  induction vs as [|v vs IH]; [done|].
  rewrite !fmap_cons. cbn [mapM]. rewrite IH. by destruct fuel.
Qed.

Lemma snapshot_pushedState vs :
  snapshot 2 (pushedState vs) (Ref root) = Some (pushedJson vs).
Proof.
  rewrite (snapshot_object 1 _ _ {[ "foo" := Ref 1 ]}) by done.
  rewrite map_to_list_singleton. cbn [mapM fst snd].
  rewrite (snapshot_array 0 _ _ {| elems := slotOf <$> vs; named := [] |}) by done.
  cbn [elems named]. rewrite snapshot_slots. reflexivity.
Qed.

(** * Main results *)




(** C2. For an array addressed during a parse: a part with the empty key
    (a push) on an array that an index has addressed before, that is an
    array of [arraysWithOrder], throws [MixedArrayError] with the
    [pathToPart] of that part; a part with an index on an array that is not
    in [arraysWithOrder] (it has only been pushed to) and is not empty
    throws it too. In particular [foo[]=a], [foo[0]=b] throws it with
    [foo[0]], and [foo[0]=a], [foo[]=b] throws it with [foo[]]. *)
Theorem mixed_addressing_conflict :
  (∀ Number p rest value cur st,
     type p = array → isArray st cur = true →
     (path p = "" ∧ cur ∈ arraysWithOrder st)
     ∨ (path p ≠ "" ∧ (cur ∉ arraysWithOrder st)
        ∧ 0 < length (elems (arrayAt st cur))) →
     forEachPart Number (p :: rest) value cur st
     = Throw (MixedArrayError (pathToPart p)))
  ∧ parseDefault false [("foo[]", Text "a"); ("foo[0]", Text "b")]
    = Throw (MixedArrayError "foo[0]")
  ∧ parseDefault false [("foo[0]", Text "a"); ("foo[]", Text "b")]
    = Throw (MixedArrayError "foo[]").
Proof.
  split; [|by vm_compute].
  intros Number p rest value cur st. apply mixed_addressing.
Qed.

(** The second entry of [foo[]=a], [foo[0]=b] at its part [[0]], and the
    second entry of [foo[0]=a], [foo[]=b] at its part [[]]. *)
Lemma mixed_addressing_conflict_witness :
  let index := {| path := "0"; type := array; default := EmptyObject;
                  pathToPart := "foo[0]" |} in
  let push := {| path := ""; type := array; default := EmptyObject;
                 pathToPart := "foo[]" |} in
  let pushed := pushedState [Text "a"] in
  let indexed :=
    {| heap := heap (pushedState [Text "a"]); next := 2; arraysWithOrder := [1] |} in
  forEntries NumberOfLiteral false (defaultTransformEntry NumberOfLiteral)
    [("foo[]", Text "a")] initialState = Ok pushed
  ∧ forEntries NumberOfLiteral false (defaultTransformEntry NumberOfLiteral)
      [("foo[0]", Text "a")] initialState = Ok indexed
  ∧ forEachPart NumberOfLiteral [index] (LString "b") 1 pushed
    = Throw (MixedArrayError "foo[0]")
  ∧ forEachPart NumberOfLiteral [push] (LString "b") 1 indexed
    = Throw (MixedArrayError "foo[]").
Proof.
  intros index push pushed indexed.
  split; [by vm_compute|]. split; [by vm_compute|]. split.
  - apply (proj1 mixed_addressing_conflict NumberOfLiteral index [] (LString "b")
             1 pushed); [reflexivity..|].
    right. split; [discriminate|]. split; [apply not_elem_of_nil|vm_compute; lia].
  - apply (proj1 mixed_addressing_conflict NumberOfLiteral push [] (LString "b")
             1 indexed); [reflexivity..|].
    left. split; [reflexivity|]. apply list_elem_of_singleton. reflexivity.
Defined.



(** C4. During the walk of an entry: a part whose kind differs from the kind
    of the current container (an object part on an array, an array part on
    an object) throws [DuplicateKeyError]; so does a part that is not the
    last one and whose position, once resolved, holds a leaf, be it a text,
    a number, a boolean, null or a [File]. The error carries the
    [pathToPart] of the part at which the conflict shows, which may be a
    prefix of the path of the entry. For instance [foo[]=a], [foo.bar=b]
    throws it with [foo.bar]. *)
Theorem structural_conflict :
  (∀ Number p rest value cur st,
     ((type p = object ∧ isArray st cur = true)
      ∨ (type p = array ∧ isArray st cur = false) →
      forEachPart Number (p :: rest) value cur st
      = Throw (DuplicateKeyError (pathToPart p)))
     ∧ (∀ x set st',
          handlePathPart Number p cur st = Ok (Some (Leaf x), set, st') →
          rest ≠ [] →
          valueAt st cur (positionOf Number st cur p) = Some (Leaf x)
          ∧ forEachPart Number (p :: rest) value cur st
            = Throw (DuplicateKeyError (pathToPart p))))
  ∧ parseDefault false [("foo[]", Text "a"); ("foo.bar", Text "b")]
    = Throw (DuplicateKeyError "foo.bar")
  ∧ parseDefault false [("foo", Text "a"); ("foo[]", Text "b")]
    = Throw (DuplicateKeyError "foo")
  ∧ parseDefault false [("-foo", Text "a"); ("foo.bar", Text "b")]
    = Throw (DuplicateKeyError "foo")
  ∧ parseDefault false
      [("foo.file", Blob {| fileBits := [""]; fileName := "test.txt" |});
       ("foo.file.test", Text "b")]
    = Throw (DuplicateKeyError "foo.file")
  ∧ parseDefault false [("foo[0].1", Text "a"); ("foo[0][1]", Text "b")]
    = Throw (DuplicateKeyError "foo[0][1]").
Proof.
  split; [|by vm_compute].
  intros Number p rest value cur st. apply kind_or_leaf_conflict.
Qed.

(** The part [bar] of [foo.bar] on the array of [foo[]=a], and the part
    [foo] of [foo.bar] on the leaf of [foo=a]. *)
Lemma structural_conflict_witness :
  let bar := {| path := "bar"; type := object; default := EmptyObject;
                pathToPart := "foo.bar" |} in
  let foo := {| path := "foo"; type := object; default := EmptyObject;
                pathToPart := "foo" |} in
  let st := {| heap := {[ root := CObject {[ "foo" := Leaf (LString "a") ]} ]};
               next := 1; arraysWithOrder := [] |} in
  forEachPart NumberOfLiteral [bar] (LString "b") 1 (pushedState [Text "a"])
  = Throw (DuplicateKeyError "foo.bar")
  ∧ forEachPart NumberOfLiteral [foo; bar] (LString "b") root st
    = Throw (DuplicateKeyError "foo").
Proof.
  intros bar foo st. split.
  - apply (proj1 (proj1 structural_conflict NumberOfLiteral bar [] (LString "b") 1
                    (pushedState [Text "a"]))).
    left. split; reflexivity.
  - apply (proj2 (proj1 structural_conflict NumberOfLiteral foo [bar] (LString "b")
                    root st)
             (LString "a") (setProperty root "foo") st eq_refl).
    discriminate.
Defined.

(** C5. The tokenizer on a path of the grammar one of whose segments is made
    of digits and a closing bracket: [a.0]] is the segment [a], a dot and
    the segment [0]], yet [extractPathParts] makes of [0]] an array part
    with the key [0], where the grammar has an object segment with the key
    [0]]; [parseFormData] then throws on the object [a] instead of writing
    that property. The same happens to the path []] alone. On the paths of
    the grammar without such a segment the tokenizer gives the segments of
    the grammar, see [extractPathParts_grammar]. *)
Theorem bracket_like_segment_is_array_part :
  let p := {| first := "a"; steps := [Dot "0]"] |} in
  render p = "a.0]"
  ∧ isSegment (first p) ∧ isSegment "0]"
  ∧ extractPathParts "a.0]"
    = [ {| path := "a"; type := object; default := EmptyObject; pathToPart := "a" |};
        {| path := "0"; type := array; default := EmptyObject; pathToPart := "a.0]" |} ]
  ∧ partsOf p
    = [ {| path := "a"; type := object; default := EmptyObject; pathToPart := "a" |};
        {| path := "0]"; type := object; default := EmptyObject; pathToPart := "a.0]" |} ]
  ∧ parseDefault false [("a.0]", Text "x")] = Throw (DuplicateKeyError "a.0]")
  ∧ extractPathParts "]"
    = [ {| path := ""; type := array; default := EmptyObject; pathToPart := "]" |} ]
  ∧ parseDefault false [("]", Text "x")] = Throw (DuplicateKeyError "]").
Proof. by vm_compute. Qed.

(** C6. The default transform: [+key] strips the sigil and gives the number
    [Number(value)], NaN included, and throws nothing; [&key] strips the
    sigil and gives the boolean that is true exactly when the value is the
    text [on] or [true] or its number is neither zero nor NaN; [-key] strips
    the sigil and gives null whatever the value; a path without sigil is
    unchanged and so is its value, a text staying that text and a [File]
    staying that [File]. For instance [+n=1] gives the number 1, [+m=abc]
    gives NaN, [&b=on] gives true, [&c=0] gives false and [-x=anything]
    gives null. *)
Theorem defaultTransform_sigils :
  (∀ Number key value,
     defaultTransform Number ("+" +:+ key, value) = (key, LNumber (Number value))
     ∧ (Number value = S754_nan →
        defaultTransformEntry Number ("+" +:+ key, value) (defaultTransform Number)
        = Ok (key, LNumber S754_nan))
     ∧ (∃ b : bool,
          defaultTransform Number ("&" +:+ key, value) = (key, LBoolean b)
          ∧ (b = true ↔ value = Text "on" ∨ value = Text "true"
                        ∨ nonZeroNumber (Number value)))
     ∧ defaultTransform Number ("-" +:+ key, value) = (key, LNull)
     ∧ (hasSigil key = false →
        defaultTransform Number (key, value) = (key, leafOfEntryValue value)
        ∧ ∀ f, defaultTransform Number (key, Blob f) = (key, LFile f)))
  ∧ parseDefault false
      [("+n", Text "1"); ("+m", Text "abc"); ("&b", Text "on"); ("&c", Text "0");
       ("-x", Text "anything")]
    = Ok (Some (JObject
        {[ "n" := JLeaf (LNumber (NumberOfNat 1));
           "m" := JLeaf (LNumber S754_nan);
           "b" := JLeaf (LBoolean true);
           "c" := JLeaf (LBoolean false);
           "x" := JLeaf LNull ]})).
Proof.
  split; [|by vm_compute].
  intros Number key value. apply defaultTransform_cases.
Qed.

(** A value whose number is NaN, under a key without sigil. *)
Lemma defaultTransform_sigils_witness :
  defaultTransformEntry NumberOfLiteral ("+" +:+ "n", Text "abc")
    (defaultTransform NumberOfLiteral) = Ok ("n", LNumber S754_nan)
  ∧ defaultTransform NumberOfLiteral ("n", Text "abc") = ("n", LString "abc").
Proof.
  destruct (proj1 defaultTransform_sigils NumberOfLiteral "n" (Text "abc"))
    as (_ & HNaN & _ & _ & Hplain).
  split.
  - apply HNaN. reflexivity.
  - apply Hplain. reflexivity.
Defined.

(** C7. A part with the empty key, on an array that no index has addressed,
    writes at the current length, that is it appends; so entries that only
    push into [foo[]] give the array of their values in input order, as
    [foo[]=x], [foo[]=y] and the reverse show. When the loop over the
    entries returns, an array outside of [arraysWithOrder] has no hole, and
    the compaction leaves it as it is. The number of entries is bounded as
    the length of [Array.from(formData)] is. *)
Theorem push_order_is_input_order :
  (∀ Number p value cur st a,
     type p = array → path p = "" →
     heap st !! cur = Some (CArray a) → cur ∉ arraysWithOrder st →
     (N.of_nat (length (elems a)) < maxArrayLength)%N →
     forEachPart Number [p] value cur st
     = Ok (setContainer cur
             (CArray {| elems := elems a ++ [Some (Leaf value)];
                        named := named a |}) st))
  ∧ (∀ Number v vs,
       (N.of_nat (length (v :: vs)) ≤ maxArrayLength)%N →
       resultOf (parseFormData Number false (defaultTransformEntry Number)
                   ((λ w, ("foo[]", w)) <$> v :: vs))
       = Ok (Some (JObject {[ "foo" :=
           JArray ((λ w, Some (JLeaf (leafOfEntryValue w))) <$> v :: vs) [] ]})))
  ∧ (∀ Number rm te formData st l a,
       forEntries Number rm te formData initialState = Ok st →
       heap st !! l = Some (CArray a) → l ∉ arraysWithOrder st →
       Forall is_Some (elems a)
       ∧ heap (squashAll st) !! l = Some (CArray a))
  ∧ parseDefault false [("foo[]", Text "x"); ("foo[]", Text "y")]
    = Ok (Some (JObject {[ "foo" := JArray [Some (JText "x"); Some (JText "y")] [] ]}))
  ∧ parseDefault false [("foo[]", Text "y"); ("foo[]", Text "x")]
    = Ok (Some (JObject {[ "foo" := JArray [Some (JText "y"); Some (JText "x")] [] ]})).
Proof.
  split; [|split; [|split; [|by vm_compute]]].
  - intros Number p value cur st a. apply push_appends.
  - intros Number v vs Hlen. unfold parseFormData.
    rewrite fmap_cons, forEntries_cons_plain by done.
    change (extractPathParts "foo[]") with fooParts.
    rewrite push_first. unfold mbind at 2, Result_bind at 2.
    rewrite forEntries_push by done.
    change (resultOf (Ok (pushedState ([v] ++ vs)))
            = Ok (Some (pushedJson (v :: vs)))).
    unfold resultOf. cbn [mbind Result_bind]. f_equal.
    apply snapshot_pushedState.
  - intros Number rm te formData st l a Hloop Hl Hnin.
    pose proof (forEntries_wellFormed _ _ _ _ _ _ Hloop wellFormed_initialState)
      as [Hwf _].
    split; [by eapply (wf_dense _ Hwf)|].
    by rewrite heap_squashAll, Hl, decide_False.
Qed.

(** Three pushes into [foo[]]; a fourth push, on the state they leave; and
    the array of [foo] in that state, which the compaction does not touch. *)
Lemma push_order_is_input_order_witness :
  let vs := [Text "x"; Text "y"; Text "z"] in
  let p := {| path := ""; type := array; default := EmptyObject;
              pathToPart := "foo[]" |} in
  (N.of_nat (length vs) ≤ maxArrayLength)%N
  ∧ resultOf (parseFormData NumberOfLiteral false
                (defaultTransformEntry NumberOfLiteral)
                [("foo[]", Text "x"); ("foo[]", Text "y"); ("foo[]", Text "z")])
    = Ok (Some (JObject {[ "foo" :=
        JArray [Some (JText "x"); Some (JText "y"); Some (JText "z")] [] ]}))
  ∧ forEachPart NumberOfLiteral [p] (LString "w") 1 (pushedState vs)
    = Ok (pushedState (vs ++ [Text "w"]))
  ∧ forEntries NumberOfLiteral false (defaultTransformEntry NumberOfLiteral)
      [("foo[]", Text "x"); ("foo[]", Text "y"); ("foo[]", Text "z")] initialState
    = Ok (pushedState vs)
  ∧ heap (squashAll (pushedState vs)) !! 1
    = Some (CArray {| elems := slotOf <$> vs; named := [] |}).
Proof.
  intros vs p. split; [by vm_compute|]. split.
  { apply (proj1 (proj2 push_order_is_input_order) NumberOfLiteral (Text "x")
             [Text "y"; Text "z"]).
    by vm_compute. }
  split.
  { etrans.
    - apply (proj1 push_order_is_input_order NumberOfLiteral p (LString "w") 1
               (pushedState vs) {| elems := slotOf <$> vs; named := [] |});
        [reflexivity|reflexivity|reflexivity|apply not_elem_of_nil|by vm_compute].
    - by vm_compute. }
  split; [by vm_compute|].
  apply (proj1 (proj2 (proj2 push_order_is_input_order)) NumberOfLiteral false
           (defaultTransformEntry NumberOfLiteral)
           [("foo[]", Text "x"); ("foo[]", Text "y"); ("foo[]", Text "z")]
           (pushedState vs) 1).
  - by vm_compute.
  - reflexivity.
  - apply not_elem_of_nil.
Defined.




(** C9. With [removeEmptyString] set, [parseFormData] returns what it returns
    without the option on the entries whose raw value is not the empty text:
    an entry with the empty text is dropped before [transformEntry] sees it
    and leaves no trace in the tree, whatever the other entries write next
    to it, and the compaction works on what the kept entries built. *)
Theorem removeEmptyString_skips :
  (∀ Number te formData,
     parseFormData Number true te formData
     = parseFormData Number false te (filter keptEntry formData))
  ∧ parseDefault true
      [("foo[1].foo", Text ""); ("foo[1].bar", Text "test2");
       ("foo[0].foo", Text "test3"); ("foo[0].baz", Text "4")]
    = Ok (Some (JObject {[ "foo" :=
        JArray [Some (JObject {[ "foo" := JText "test3"; "baz" := JText "4" ]});
                Some (JObject {[ "bar" := JText "test2" ]})] [] ]}))
  ∧ parseDefault true [("foo[0]", Text ""); ("foo[5]", Text "a"); ("bar", Text "")]
    = Ok (Some (JObject {[ "foo" := JArray [Some (JText "a")] [] ]})).
Proof.
  split; [|by vm_compute].
  intros Number te formData. apply parseFormData_removeEmptyString.
Qed.

(** C10. The empty path has no part, so the walk of an entry whose path is
    empty after the transform writes nothing and throws nothing: the parse
    gives what it gives without that entry. The keys [+], [&] and [-] alone
    and the empty key have the empty path under the default transform. *)
Theorem empty_path_discarded :
  (∀ Number rm te pre entry post value,
     te entry (defaultTransform Number) = Ok ("", value) →
     extractPathParts "" = []
     ∧ (∀ st, forEachPart Number (extractPathParts "") value root st = Ok st)
     ∧ parseFormData Number rm te (pre ++ entry :: post)
       = parseFormData Number rm te (pre ++ post))
  ∧ (∀ Number v,
       (defaultTransform Number ("+", v)).1 = ""
       ∧ (defaultTransform Number ("&", v)).1 = ""
       ∧ (defaultTransform Number ("-", v)).1 = ""
       ∧ (defaultTransform Number ("", v)).1 = "")
  ∧ parseDefault false [("a", Text "1"); ("+", Text "2"); ("-", Text "3")]
    = Ok (Some (JObject {[ "a" := JText "1" ]})).
Proof.
  split; [|split; [done|by vm_compute]].
  intros Number rm te pre entry post value. apply parseFormData_empty_path.
Qed.

Lemma empty_path_discarded_witness :
  parseFormData NumberOfLiteral false (defaultTransformEntry NumberOfLiteral)
    ([("a", Text "1")] ++ ("+", Text "2") :: [("b", Text "3")])
  = parseFormData NumberOfLiteral false (defaultTransformEntry NumberOfLiteral)
      ([("a", Text "1")] ++ [("b", Text "3")]).
Proof.
  refine (proj2 (proj2 (proj1 empty_path_discarded NumberOfLiteral false
            (defaultTransformEntry NumberOfLiteral) [("a", Text "1")]
            ("+", Text "2") [("b", Text "3")] (LNumber _) _))).
  reflexivity.
Defined.

(** * Further results *)

(** A decidable statement about concrete data, settled by evaluation. *)
Ltac by_evaluation := apply (bool_decide_unpack _); vm_compute; exact I.

(** X1. Every part [extractPathParts] gives, on any input whatever: the path
    is some text, then the text of the part (its key, for an array part its
    digits and a closing bracket), then the end or a separator;
    [pathToPart] is the path up to the end of that text; the default of the
    part is an array exactly when an opening bracket follows; the key of an
    object part is not empty and holds neither a dot nor an opening
    bracket, and the key of an array part is made of digits only. *)
Theorem tokenizer_part_shape :
  ∀ s p,
    p ∈ extractPathParts s →
    ∃ pre post,
      s = (pre +:+ partText p) +:+ post
      ∧ pathToPart p = pre +:+ partText p
      ∧ startsStep post
      ∧ default p = (if startsWith post "[" then EmptyArray else EmptyObject)
      ∧ match type p with
        | object => isSegment (path p)
        | array => allChars isDigit (path p) = true
        end.
Proof. intros s p. apply extractPathParts_elem. Qed.

(** The part [[0]] of the path [a[0].b]. *)
Lemma tokenizer_part_shape_witness :
  let p := {| path := "0"; type := array; default := EmptyObject;
              pathToPart := "a[0]" |} in
  p ∈ extractPathParts "a[0].b"
  ∧ ∃ pre post,
      "a[0].b" = (pre +:+ partText p) +:+ post
      ∧ pathToPart p = pre +:+ partText p
      ∧ startsStep post
      ∧ default p = (if startsWith post "[" then EmptyArray else EmptyObject)
      ∧ match type p with
        | object => isSegment (path p)
        | array => allChars isDigit (path p) = true
        end.
Proof.
  intros p.
  assert (p ∈ extractPathParts "a[0].b") as Hin.
  { apply (list_elem_of_lookup_2 _ 1). reflexivity. }
  split; [exact Hin|]. exact (tokenizer_part_shape "a[0].b" p Hin).
Defined.

(** X2. The parts of a path come in the order of the path: the
    [pathToPart] of a part is strictly longer than that of every part
    before it, so no two parts of a path have the same [pathToPart]; and a
    path has at most as many parts as characters. *)
Theorem pathToPart_grows :
  ∀ s,
    StronglySorted
      (λ p q, String.length (pathToPart p) < String.length (pathToPart q))
      (extractPathParts s)
    ∧ NoDup (pathToPart <$> extractPathParts s)
    ∧ length (extractPathParts s) ≤ String.length s.
Proof.
  intros s. pose proof (extractPathParts_sorted s) as Hsorted.
  split; [done|]. split.
  - apply (StronglySorted_NoDup (λ a b, String.length a < String.length b)).
    { intros a. lia. }
    by apply (StronglySorted_fmap_elem
                (λ p q, String.length (pathToPart p) < String.length (pathToPart q))).
  - unfold extractPathParts. rewrite length_fmap. apply length_matchAll.
Qed.

(** X3. A dot at the end of a path changes nothing: the path has the same
    parts with and without it, and under the default transform form data
    whose keys all get a dot at the end parses to the same outcome. For
    instance [a.b.=x] gives [{a: {b: x}}]. *)
Theorem trailing_dot_ignored :
  (∀ s, extractPathParts (s +:+ ".") = extractPathParts s)
  ∧ (∀ Number rm formData,
       parseFormData Number rm (defaultTransformEntry Number)
         ((λ entry, (entry.1 +:+ ".", entry.2)) <$> formData)
       = parseFormData Number rm (defaultTransformEntry Number) formData)
  ∧ parseDefault false [("a.b.", Text "x")]
    = Ok (Some (JObject {[ "a" := JObject {[ "b" := JText "x" ]} ]})).
Proof.
  split; [apply extractPathParts_dot|]. split; [|by vm_compute].
  intros Number rm formData. unfold parseFormData. by rewrite forEntries_dot.
Qed.

(** X4. The type guard [isJsonObject] holds exactly of an object that is
    no array: a container of the tree that is not an array, or
    [Object.prototype]; [null] and a [File], although of type [object], are
    not objects for it, and neither is a function. So the test
    [parseFormData] makes before it descends through a part that is not the
    last one (the value is defined, is no object and no array) holds
    exactly when the value read at the part is a leaf or a function that
    the object inherits from [Object.prototype], and then the walk throws
    [DuplicateKeyError] with the [pathToPart] of the part. When it does not
    hold, the walk goes on with the next part: in the container read, in a
    fresh default when nothing was read, and in [Object.prototype] when the
    part [__proto__] has read it. For instance [-foo=a], [foo.bar=b] throws
    with [foo], and [toString.a=x] throws with [toString]. *)
Theorem isJsonObject_guard :
  (∀ st val,
     isJsonObject st val = true
     ↔ (∃ l, val = Ref l ∧ isArray st l = false) ∨ val = Inherited ObjectPrototype)
  ∧ (∀ st nv,
       isLeafConflict st nv = true
       ↔ (∃ x, nv = Some (Leaf x))
         ∨ ∃ name, nv = Some (Inherited (BuiltinFunction name)))
  ∧ (∀ Number p q rest value cur st nv set st',
       handlePathPart Number p cur st = Ok (nv, set, st') →
       forEachPart Number (p :: q :: rest) value cur st
       = match nv with
         | Some (Leaf _) | Some (Inherited (BuiltinFunction _)) =>
             Throw (DuplicateKeyError (pathToPart p))
         | Some (Ref l) =>
             forEachPart Number (q :: rest) value l (set (Ref l) st')
         | Some (Inherited ObjectPrototype) =>
             inObjectPrototype (q :: rest) (set (Inherited ObjectPrototype) st')
         | None =>
             forEachPart Number (q :: rest) value (alloc (default p) st').1
               (set (Ref (alloc (default p) st').1) (alloc (default p) st').2)
         end)
  ∧ parseDefault false [("-foo", Text "a"); ("foo.bar", Text "b")]
    = Throw (DuplicateKeyError "foo")
  ∧ parseDefault false [("toString.a", Text "x")]
    = Throw (DuplicateKeyError "toString")
  ∧ parseDefault false [("a.b", Text "x"); ("a.valueOf.c", Text "y")]
    = Throw (DuplicateKeyError "a.valueOf")
  ∧ parseDefault false [("a.b", Text "x"); ("a.c.d", Text "y")]
    = Ok (Some (JObject {[ "a" :=
        JObject {[ "b" := JText "x"; "c" := JObject {[ "d" := JText "y" ]} ]} ]})).
Proof.
  split; [apply isJsonObject_iff|]. split; [apply isLeafConflict_iff|].
  split; [|by vm_compute].
  intros Number p q rest value cur st nv set st'. apply forEachPart_next.
Qed.

(** The part [foo] of [foo.bar] on a root in which [foo] is [null], and the
    part [toString] of [toString.a] on the empty root. *)
Lemma isJsonObject_guard_witness :
  let foo := {| path := "foo"; type := object; default := EmptyObject;
                pathToPart := "foo" |} in
  let bar := {| path := "bar"; type := object; default := EmptyObject;
                pathToPart := "foo.bar" |} in
  let toString := {| path := "toString"; type := object; default := EmptyObject;
                     pathToPart := "toString" |} in
  let st := {| heap := {[ root := CObject {[ "foo" := Leaf LNull ]} ]};
               next := 1; arraysWithOrder := [] |} in
  isJsonObject st (Leaf LNull) = false
  ∧ forEachPart NumberOfLiteral [foo; bar] (LString "b") root st
    = Throw (DuplicateKeyError "foo")
  ∧ forEachPart NumberOfLiteral [toString; bar] (LString "x") root initialState
    = Throw (DuplicateKeyError "toString").
Proof.
  intros foo bar toString st. split; [reflexivity|]. split.
  - exact (proj1 (proj2 (proj2 isJsonObject_guard)) NumberOfLiteral foo bar []
             (LString "b") root st (Some (Leaf LNull)) (setProperty root "foo") st
             eq_refl).
  - exact (proj1 (proj2 (proj2 isJsonObject_guard)) NumberOfLiteral toString bar []
             (LString "x") root initialState
             (Some (Inherited (BuiltinFunction "toString")))
             (setProperty root "toString") initialState eq_refl).
Defined.

(** X5. The root is an object, so an entry whose path begins with an array
    part is always rejected: whatever came before, the walk of such an
    entry throws [DuplicateKeyError] with the [pathToPart] of that first
    part. A path that starts with an opening bracket, digits and a closing
    bracket has such a first part. For instance [[0]=x] throws it with
    [[0]]. *)
Theorem array_segment_first_rejected :
  (∀ Number rm te pre entry post st s value p rest,
     forEntries Number rm te pre initialState = Ok st →
     rm && isEmptyString entry.2 = false →
     te entry (defaultTransform Number) = Ok (s, value) →
     extractPathParts s = p :: rest → type p = array →
     parseFormData Number rm te (pre ++ entry :: post)
     = Throw (DuplicateKeyError (pathToPart p)))
  ∧ (∀ d r,
       allChars isDigit d = true → startsStep r →
       ∃ rest,
         extractPathParts ("[" +:+ d +:+ "]" +:+ r)
         = {| path := d; type := array;
              default := if startsWith r "[" then EmptyArray else EmptyObject;
              pathToPart := "[" +:+ d +:+ "]" |} :: rest)
  ∧ parseDefault false [("a", Text "y"); ("[0]", Text "x")]
    = Throw (DuplicateKeyError "[0]").
Proof.
  split; [|split; [apply extractPathParts_bracket_first|by vm_compute]].
  intros Number rm te pre entry post st s value p rest Hpre Hkept Hte Hparts Hty.
  eapply parseFormData_walk_throws; [done..|]. rewrite Hparts.
  apply forEachPart_array_at_root; [|done].
  by apply (forEntries_wellFormed _ _ _ _ _ _ Hpre wellFormed_initialState).
Qed.

(** The entry [[0].b=x] after the entry [a=y]. *)
Lemma array_segment_first_rejected_witness :
  parseFormData NumberOfLiteral false (defaultTransformEntry NumberOfLiteral)
    ([("a", Text "y")] ++ ("[0].b", Text "x") :: [])
  = Throw (DuplicateKeyError "[0]")
  ∧ ∃ rest,
      extractPathParts ("[" +:+ "0" +:+ "]" +:+ ".b")
      = {| path := "0"; type := array; default := EmptyObject;
           pathToPart := "[0]" |} :: rest.
Proof.
  split.
  - refine (proj1 array_segment_first_rejected NumberOfLiteral false
              (defaultTransformEntry NumberOfLiteral) [("a", Text "y")]
              ("[0].b", Text "x") [] _ "[0].b" (LString "x")
              {| path := "0"; type := array; default := EmptyObject;
                 pathToPart := "[0]" |} _ _ _ _ _ _);
      [by vm_compute|reflexivity|reflexivity|reflexivity|reflexivity].
  - apply (proj1 (proj2 array_segment_first_rejected) "0" ".b");
      [reflexivity|].
    right. exists "b". by left.
Defined.

(** X6. What [parseFormData] throws is what the callback threw on an entry,
    or an error of the library that names a part of the path of an entry it
    has walked: the key of the error is the [pathToPart] of that part, a
    prefix of the path that is not empty, and for [MixedArrayError] the
    part is an array part. *)
Theorem error_names_a_part :
  ∀ Number rm te formData e,
    parseFormData Number rm te formData = Throw e →
    (∃ entry, entry ∈ formData ∧ rm && isEmptyString entry.2 = false
       ∧ te entry (defaultTransform Number) = Throw e)
    ∨ ∃ entry s value p post,
        entry ∈ formData ∧ walked Number rm te entry s value
        ∧ p ∈ extractPathParts s
        ∧ s = pathToPart p +:+ post ∧ pathToPart p ≠ ""
        ∧ (e = DuplicateKeyError (pathToPart p)
           ∨ (e = MixedArrayError (pathToPart p) ∧ type p = array)).
Proof.
  intros Number rm te formData e. apply parseFormData_Throw.
Qed.

(** The entries [foo[]=a], [foo.bar.baz=b]: the error names the part [bar]
    of the second entry. *)
Lemma error_names_a_part_witness :
  let formData := [("foo[]", Text "a"); ("foo.bar.baz", Text "b")] in
  parseFormData NumberOfLiteral false (defaultTransformEntry NumberOfLiteral)
    formData = Throw (DuplicateKeyError "foo.bar")
  ∧ ((∃ entry, entry ∈ formData ∧ false && isEmptyString entry.2 = false
        ∧ defaultTransformEntry NumberOfLiteral entry
            (defaultTransform NumberOfLiteral)
          = Throw (DuplicateKeyError "foo.bar"))
     ∨ ∃ entry s value p post,
         entry ∈ formData
         ∧ walked NumberOfLiteral false (defaultTransformEntry NumberOfLiteral)
             entry s value
         ∧ p ∈ extractPathParts s
         ∧ s = pathToPart p +:+ post ∧ pathToPart p ≠ ""
         ∧ (DuplicateKeyError "foo.bar" = DuplicateKeyError (pathToPart p)
            ∨ (DuplicateKeyError "foo.bar" = MixedArrayError (pathToPart p)
               ∧ type p = array))).
Proof.
  intros formData.
  assert (parseFormData NumberOfLiteral false
            (defaultTransformEntry NumberOfLiteral) formData
          = Throw (DuplicateKeyError "foo.bar")) as Hthrow by (by vm_compute).
  split; [exact Hthrow|].
  exact (error_names_a_part NumberOfLiteral false
           (defaultTransformEntry NumberOfLiteral) formData _ Hthrow).
Defined.

(** X7. The loop over the entries only adds to the tree: when it has
    returned a state for a prefix of the form data and returns one for the
    whole, every container of the first state is in the second and is of
    the same kind, every property of an object and every key of an array
    that held a value holds the same value, and the arrays an index has
    addressed are still known as such. An entry never overwrites or removes
    what an earlier entry wrote. *)
Theorem entries_only_add :
  ∀ Number rm te pre post st0 st,
    forEntries Number rm te pre initialState = Ok st0 →
    forEntries Number rm te (pre ++ post) initialState = Ok st →
    extends st0 st.
Proof.
  intros Number rm te pre post st0 st Hpre Hall.
  rewrite forEntries_app, Hpre in Hall. cbn [mbind Result_bind] in Hall.
  eapply forEntries_extends; [exact Hall|].
  by apply (forEntries_wellFormed _ _ _ _ _ _ Hpre wellFormed_initialState).
Qed.

(** The entries [a.b=1] and then [a.c=2], [d[]=3]: the property [b] of the
    object of [a] is kept. *)
Lemma entries_only_add_witness :
  let pre := [("a.b", Text "1")] in
  let post := [("a.c", Text "2"); ("d[]", Text "3")] in
  ∃ st0 st,
    forEntries NumberOfLiteral false (defaultTransformEntry NumberOfLiteral)
      pre initialState = Ok st0
    ∧ forEntries NumberOfLiteral false (defaultTransformEntry NumberOfLiteral)
        (pre ++ post) initialState = Ok st
    ∧ valueAt st0 1 (PropertyOf "b") = Some (Leaf (LString "1"))
    ∧ valueAt st 1 (PropertyOf "b") = Some (Leaf (LString "1")).
Proof.
  intros pre post. eexists _, _.
  match goal with |- ?A ∧ _ => assert A as Hpre by (by vm_compute) end.
  split; [exact Hpre|].
  match goal with |- ?A ∧ _ => assert A as Hall by (by vm_compute) end.
  split; [exact Hall|].
  match goal with |- ?A ∧ _ => assert A as Hb by (by vm_compute) end.
  split; [exact Hb|].
  exact (proj1 (proj2 (entries_only_add NumberOfLiteral false
           (defaultTransformEntry NumberOfLiteral) pre post _ _ Hpre Hall))
           1 (PropertyOf "b") _ Hb).
Defined.

(** X8. No value is lost: when [parseFormData] returns, the result can be
    read back as a tree, and for every entry that was walked (kept by
    [removeEmptyString], with a path that has a part) the value of the
    entry is found in that tree by following the parts of its path, the
    property of that name at an object part and some element at an array
    part; when the path has object parts only, the value is what is found
    there, and nothing else. This is stated for form data whose object keys
    leave out the names inherited from [Object.prototype]. *)
Theorem every_entry_is_in_the_result :
  ∀ Number rm te formData st entry s value,
    ownKeysOnly Number te formData →
    parseFormData Number rm te formData = Ok st →
    entry ∈ formData → walked Number rm te entry s value →
    ∃ j, resultOf (Ok st) = Ok (Some j)
      ∧ JLeaf value ∈ valuesAt (extractPathParts s) j
      ∧ (Forall (λ p, type p = object) (extractPathParts s) →
         valuesAt (extractPathParts s) j = [JLeaf value]).
Proof.
  intros Number rm te formData st entry s value _ Hparse Hin Hwalked.
  unfold parseFormData in Hparse.
  destruct (forEntries Number rm te formData initialState) as [st0| |?] eqn:Hloop;
    [|done..].
  injection Hparse as <-.
  pose proof (forEntries_wellFormed _ _ _ _ _ _ Hloop wellFormed_initialState)
    as [Hwf _].
  pose proof (forEntries_reaches _ _ _ _ _ _ _ _ _ Hloop wellFormed_initialState
                Hin Hwalked) as Hreach.
  apply reaches_squashAll in Hreach.
  destruct (resultOf_total _ (wellFormed_squashAll _ Hwf)) as [j Hj].
  exists j. split; [done|]. apply Ok_inj in Hj.
  destruct (snapshot_reaches _ _ _ _ _ _ Hj Hreach) as (fuel' & j' & Hj' & Hfound).
  rewrite snapshot_Leaf in Hj'. injection Hj' as <-.
  split; [done|]. intros Hobjects. by apply valuesAt_objects.
Qed.

(** The entry [a[5].b=x] among others: the index 5 becomes the position 1
    of the compacted array, where the value is found. *)
Lemma every_entry_is_in_the_result_witness :
  let formData := [("a[5].b", Text "x"); ("a[2].b", Text "y"); ("c", Text "z")] in
  ∃ st j,
    parseFormData NumberOfLiteral false (defaultTransformEntry NumberOfLiteral)
      formData = Ok st
    ∧ resultOf (Ok st) = Ok (Some j)
    ∧ JLeaf (LString "x") ∈ valuesAt (extractPathParts "a[5].b") j.
Proof.
  intros formData. eexists.
  match goal with
  | |- ∃ j, ?A ∧ _ => assert A as Hparse by (by vm_compute)
  end.
  assert (ownKeysOnly NumberOfLiteral (defaultTransformEntry NumberOfLiteral)
            formData) as Hown.
  { unfold ownKeysOnly. repeat (constructor; [by vm_compute|]). constructor. }
  assert (walked NumberOfLiteral false (defaultTransformEntry NumberOfLiteral)
            ("a[5].b", Text "x") "a[5].b" (LString "x")) as Hwalked.
  { split; [reflexivity|]. split; [reflexivity|]. intros H. by vm_compute in H. }
  destruct (every_entry_is_in_the_result NumberOfLiteral false
              (defaultTransformEntry NumberOfLiteral) formData _
              ("a[5].b", Text "x") "a[5].b" (LString "x") Hown Hparse
              (list_elem_of_lookup_2 formData 0 _ eq_refl) Hwalked)
    as (j & Hj & Hfound & _).
  exists j. by repeat split.
Defined.



(** X10. No array of the result has a hole: when [parseFormData] returns
    and the result is read back as a tree, every array found in that tree,
    at any depth and whether it was written by index or by push, has a
    value in each of its slots. *)
Theorem result_arrays_have_no_hole :
  ∀ Number rm te formData st j parts items others,
    parseFormData Number rm te formData = Ok st →
    resultOf (Ok st) = Ok (Some j) →
    JArray items others ∈ valuesAt parts j →
    Forall is_Some items.
Proof.
  intros Number rm te formData st j parts items others Hparse Hj Hfound.
  unfold parseFormData in Hparse.
  destruct (forEntries Number rm te formData initialState) as [st0| |?] eqn:Hloop;
    [|done..].
  injection Hparse as <-.
  pose proof (forEntries_wellFormed _ _ _ _ _ _ Hloop wellFormed_initialState)
    as [Hwf _].
  apply Ok_inj in Hj.
  destruct (valuesAt_snapshot _ _ _ _ _ _ Hj Hfound) as (fuel' & w & Hw & _).
  destruct w as [y|l|b]; [by rewrite snapshot_Leaf in Hw| |by destruct fuel'].
  destruct (snapshot_Ref_inv _ _ _ _ Hw) as (fuel'' & c & -> & Hc & Hshape).
  destruct c as [o|a]; [by destruct Hshape|].
  eapply snapshot_array_dense; [exact Hc| |exact Hw].
  by eapply dense_squashAll.
Qed.

(** The array of [a[7].b[3]=x], [a[2].b[]=y]: the outer array is written at
    the indices 7 and 2 and has two elements in the result. *)
Lemma result_arrays_have_no_hole_witness :
  let formData := [("a[7].b[3]", Text "x"); ("a[2].b[]", Text "y")] in
  ∃ items others,
    JArray items others
    ∈ valuesAt (extractPathParts "a")
        (JObject {[ "a" :=
           JArray [Some (JObject {[ "b" := JArray [Some (JText "y")] [] ]});
                   Some (JObject {[ "b" := JArray [Some (JText "x")] [] ]})]
                  [] ]})
    ∧ length items = 2 ∧ Forall is_Some items.
Proof.
  intros formData. eexists _, _.
  match goal with
  | |- ?A ∧ _ =>
      assert A as Hfound by (apply (list_elem_of_lookup_2 _ 0); by vm_compute)
  end.
  split; [exact Hfound|]. split; [reflexivity|].
  refine (result_arrays_have_no_hole NumberOfLiteral false
            (defaultTransformEntry NumberOfLiteral) formData _ _ _ _ _ _ _
            Hfound); by vm_compute.
Defined.

(** X11. Flat form data: entries whose keys are plain (one segment, no
    sigil, not a name inherited from [Object.prototype]) and pairwise
    distinct parse, with the default transform, to the object that has
    exactly these keys, each with the value of its entry as it came, a text
    or a [File], so that the order of the entries does not matter; and a
    plain key that comes a second time throws [DuplicateKeyError] with that
    key. *)
Theorem flat_form_data :
  (∀ Number formData,
     Forall plainKey formData.*1 → NoDup formData.*1 →
     resultOf (parseFormData Number false (defaultTransformEntry Number) formData)
     = Ok (Some (JObject (JLeaf <$> list_to_map (leafEntry <$> formData))))
     ∧ ∀ formData',
         formData ≡ₚ formData' →
         resultOf (parseFormData Number false (defaultTransformEntry Number)
                     formData')
         = resultOf (parseFormData Number false (defaultTransformEntry Number)
                       formData))
  ∧ (∀ Number pre key w post,
       Forall plainKey pre.*1 → NoDup pre.*1 → plainKey key → key ∈ pre.*1 →
       parseFormData Number false (defaultTransformEntry Number)
         (pre ++ (key, w) :: post)
       = Throw (DuplicateKeyError key)).
Proof.
  assert (∀ Number formData,
            Forall plainKey formData.*1 → NoDup formData.*1 →
            resultOf (parseFormData Number false (defaultTransformEntry Number)
                        formData)
            = Ok (Some (JObject (JLeaf <$> list_to_map (leafEntry <$> formData)))))
    as Hflat.
  { intros Number formData Hplain Hnd. unfold parseFormData.
    pose proof (forEntries_flat Number formData ∅ Hplain Hnd
                  (λ key _, lookup_empty key)) as Hloop.
    rewrite flatState_empty, (right_id_L ∅ (∪)) in Hloop.
    rewrite Hloop. cbn [mbind Result_bind].
    change (squashAll (flatState ?m)) with (flatState m).
    apply resultOf_flatState.
    by apply (forEntries_wellFormed _ _ _ _ _ _ Hloop wellFormed_initialState). }
  split.
  - intros Number formData Hplain Hnd. split; [by apply Hflat|].
    intros formData' Hperm.
    rewrite !Hflat; [|done|done|by rewrite <- Hperm|by rewrite <- Hperm].
    do 4 f_equal. symmetry. apply list_to_map_proper.
    + by rewrite <- list_fmap_compose.
    + by rewrite Hperm.
  - intros Number pre key w post Hplain Hnd Hkey Hin. unfold parseFormData.
    by rewrite forEntries_flat_again.
Qed.

(** The form data [name=Ann], [file=(a file)], [0]x=1], and the same with
    [name] once more. *)
Lemma flat_form_data_witness :
  let f := {| fileBits := ["abc"]; fileName := "a.txt" |} in
  let formData := [("name", Text "Ann"); ("file", Blob f); ("0]x", Text "1")] in
  resultOf (parseFormData NumberOfLiteral false
              (defaultTransformEntry NumberOfLiteral) formData)
  = Ok (Some (JObject {[ "name" := JText "Ann"; "file" := JLeaf (LFile f);
                         "0]x" := JText "1" ]}))
  ∧ parseFormData NumberOfLiteral false (defaultTransformEntry NumberOfLiteral)
      (formData ++ ("name", Text "Bob") :: [])
    = Throw (DuplicateKeyError "name").
Proof.
  intros f formData.
  assert (Forall plainKey formData.*1) as Hplain by by_evaluation.
  assert (NoDup formData.*1) as Hnd by by_evaluation.
  split.
  - etrans;
      [exact (proj1 (proj1 flat_form_data NumberOfLiteral formData Hplain Hnd))|].
    by vm_compute.
  - apply (proj2 flat_form_data NumberOfLiteral formData "name" (Text "Bob") []
             Hplain Hnd); [by_evaluation|by left].
Defined.



(** X13. Entries that address one array by index: form data made of entries
    [key[d]=v], for a plain key and digits that [Number] reads as pairwise
    distinct array indices, parses with the default transform to the object
    whose only property [key] is the array of the values in ascending order
    of their indices, whatever gaps the indices leave; the order in which
    the entries come does not matter. *)
Theorem indexed_entries_are_sorted :
  ∀ Number key xs,
    plainKey key → xs ≠ [] →
    Forall (indexedBy Number) xs → NoDup (slot <$> xs) →
    resultOf (parseFormData Number false (defaultTransformEntry Number)
                (indexedEntry key <$> xs))
    = Ok (Some (JObject {[ key :=
        JArray ((λ x, Some (JLeaf (leafOf x))) <$> merge_sort bySlot xs) [] ]}))
    ∧ ∀ ys,
        xs ≡ₚ ys →
        resultOf (parseFormData Number false (defaultTransformEntry Number)
                    (indexedEntry key <$> ys))
        = resultOf (parseFormData Number false (defaultTransformEntry Number)
                      (indexedEntry key <$> xs)).
Proof.
  assert (∀ Number key xs,
    plainKey key → xs ≠ [] →
    Forall (indexedBy Number) xs → NoDup (slot <$> xs) →
    resultOf (parseFormData Number false (defaultTransformEntry Number)
                (indexedEntry key <$> xs))
    = Ok (Some (JObject {[ key :=
        JArray ((λ x, Some (JLeaf (leafOf x))) <$> merge_sort bySlot xs) [] ]})))
    as Hsorted; [|intros Number key xs Hkey Hne Hxs Hnd; split; [by apply Hsorted|]].
  2:{ intros ys Hperm. rewrite !Hsorted; try done.
      - by rewrite (merge_sort_bySlot_Permutation xs ys).
      - intros ->. by apply Permutation_nil_r in Hperm.
      - by rewrite <- Hperm.
      - by rewrite <- Hperm. }
  intros Number key xs Hkey Hne Hxs Hnd.
  destruct xs as [|x xs]; [done|]. clear Hne.
  pose proof Hkey as (Hseg & Hnb & _ & Hown).
  apply Forall_cons in Hxs as [Hx Hxs].
  pose proof Hnd as Hnd'. rewrite fmap_cons in Hnd'.
  apply NoDup_cons in Hnd' as [Hnin Hnd'].
  unfold parseFormData.
  rewrite fmap_cons, forEntries_indexed_cons by done.
  rewrite indexed_first by done. cbn [mbind Result_bind].
  rewrite forEntries_indexed; [|done..|].
  2:{ intros y w Hy. rewrite lookup_writeLeaf. intros [[Heq _]|[_ Hlook]].
      - apply Hnin. rewrite <- Heq. by apply list_elem_of_fmap_2.
      - by rewrite lookup_nil in Hlook. }
  cbn [mbind Result_bind]. rewrite squashAll_indexedState, resultOf_indexedState.
  change (foldl writeLeaf (writeLeaf [] x) xs) with (foldl writeLeaf [] (x :: xs)).
  rewrite omap_foldl_writeLeaf by done. by rewrite <- list_fmap_compose.
Qed.

(** The entries [foo[21]=b], [foo[3]=c], [foo[0]=a]. *)
Lemma indexed_entries_are_sorted_witness :
  parseDefault false
    [("foo[21]", Text "b"); ("foo[3]", Text "c"); ("foo[0]", Text "a")]
  = Ok (Some (JObject {[ "foo" :=
      JArray [Some (JText "a"); Some (JText "c"); Some (JText "b")] [] ]})).
Proof.
  etrans.
  - refine (proj1 (indexed_entries_are_sorted NumberOfLiteral "foo"
             [ {| digits := "21"; slot := 21; content := Text "b" |};
               {| digits := "3"; slot := 3; content := Text "c" |};
               {| digits := "0"; slot := 0; content := Text "a" |} ] _ _ _ _)).
    + by_evaluation.
    + discriminate.
    + by_evaluation.
    + by_evaluation.
  - by vm_compute.
Defined.

(** X14. Paths put together with a separator. The parts of a path, a dot
    and more text are the parts of the path followed by the parts of the
    text, each with the path and the dot in front of its [pathToPart]: the
    text after a dot is read as a path of its own. The same holds with an
    opening bracket in place of the dot, except that the part that ends
    with the path, if there is one, now has an array as its default. For
    instance the parts of [a.b[0].c] are those of [a.b], with [b] expecting
    an array, and those of [0].c]. *)
Theorem paths_compose :
  (∀ s t,
     extractPathParts (s +:+ "." +:+ t)
     = extractPathParts s ++ (prefixPart (s +:+ ".") <$> extractPathParts t))
  ∧ (∀ s t,
       extractPathParts (s +:+ "[" +:+ t)
       = (followedBy "[" s <$> extractPathParts s)
         ++ (prefixPart (s +:+ "[") <$> extractPathParts t))
  ∧ extractPathParts ("a.b" +:+ "[" +:+ "0].c")
    = [ {| path := "a"; type := object; default := EmptyObject; pathToPart := "a" |};
        {| path := "b"; type := object; default := EmptyArray; pathToPart := "a.b" |};
        {| path := "0"; type := array; default := EmptyObject; pathToPart := "a.b[0]" |};
        {| path := "c"; type := object; default := EmptyObject;
           pathToPart := "a.b[0].c" |} ].
Proof.
  split; [apply extractPathParts_dot_app|]. split; [|by vm_compute].
  intros s t. apply (extractPathParts_sep "[" s t). by right.
Qed.

(** X15. The [pathToPart] of a part is the path so far, and it reads as
    such: tokenizing the [pathToPart] of the part at position [i] of a path
    gives the parts of the path before that position, unchanged, and then
    the part itself, as the last part of its path (with an object as
    default, since nothing follows it). So the key an error carries can be
    read again as the path of the container or value at which the error
    showed. *)
Theorem pathToPart_reads_as_a_path :
  ∀ s i p,
    extractPathParts s !! i = Some p →
    extractPathParts (pathToPart p)
    = take i (extractPathParts s) ++ [asLast p].
Proof. intros s i p. apply extractPathParts_pathToPart. Qed.

(** The part [b] of [a[0].b[1].c]: its [pathToPart] is [a[0].b], whose
    parts are [a], [[0]] and [b], the last one with an object as default
    where the part of the longer path has an array. *)
Lemma pathToPart_reads_as_a_path_witness :
  let p := {| path := "b"; type := object; default := EmptyArray;
              pathToPart := "a[0].b" |} in
  extractPathParts "a[0].b[1].c" !! 2 = Some p
  ∧ extractPathParts "a[0].b"
    = [ {| path := "a"; type := object; default := EmptyArray; pathToPart := "a" |};
        {| path := "0"; type := array; default := EmptyObject; pathToPart := "a[0]" |};
        {| path := "b"; type := object; default := EmptyObject;
           pathToPart := "a[0].b" |} ].
Proof.
  intros p.
  assert (extractPathParts "a[0].b[1].c" !! 2 = Some p) as Hp by reflexivity.
  split; [exact Hp|].
  exact (pathToPart_reads_as_a_path "a[0].b[1].c" 2 p Hp).
Defined.

(** X16. Two entries that meet. Take an entry whose path has no push part
    (every array part has digits), and a later entry of the form data whose
    parts address the same keys, part by part, up to the end of the shorter
    of the two paths: the same path, a path that goes on from it, or a path
    that ends on the way. When the form data up to the later entry is
    parsed without error, whatever the entries in between, [parseFormData]
    throws [DuplicateKeyError] at the later entry, with the [pathToPart] of
    the part of the later path at which the shorter path ends. This is
    stated for form data whose object keys leave out the names inherited
    from [Object.prototype]. *)
Theorem entries_that_meet_conflict :
  ∀ Number rm te pre entry1 mid entry2 post st s1 v1 s2 v2,
    ownKeysOnly Number te (pre ++ entry1 :: mid ++ [entry2]) →
    parseFormData Number rm te (pre ++ entry1 :: mid) = Ok st →
    walked Number rm te entry1 s1 v1 → walked Number rm te entry2 s2 v2 →
    Forall (λ p, fixedPart p = true) (extractPathParts s1) →
    (keyOf <$> extractPathParts s2) `prefix_of` (keyOf <$> extractPathParts s1)
    ∨ (keyOf <$> extractPathParts s1) `prefix_of` (keyOf <$> extractPathParts s2) →
    ∃ p,
      extractPathParts s2
        !! (min (length (extractPathParts s1)) (length (extractPathParts s2)) - 1)
      = Some p
      ∧ parseFormData Number rm te (pre ++ entry1 :: mid ++ entry2 :: post)
        = Throw (DuplicateKeyError (pathToPart p)).
Proof.
  intros Number rm te pre entry1 mid entry2 post st s1 v1 s2 v2 _ Hparse
    Hwalked1 Hwalked2 Hfixed Hmeet.
  unfold parseFormData in Hparse |- *.
  destruct (forEntries Number rm te (pre ++ entry1 :: mid) initialState)
    as [st0| |?] eqn:Hloop; [|done..].
  destruct (forEntries_meets Number rm te pre entry1 mid entry2 post st0
              s1 v1 s2 v2 Hloop Hwalked1 Hwalked2 Hfixed Hmeet)
    as (p & Hp & Hthrow).
  exists p. split; [done|]. by rewrite Hthrow.
Qed.

(** The entries [a.b[2]=1] and, two entries later, [a.b=3]: the second path
    ends at the array of the first, and the error names [a.b]. *)
Lemma entries_that_meet_conflict_witness :
  parseFormData NumberOfLiteral false (defaultTransformEntry NumberOfLiteral)
    [("x", Text "0"); ("a.b[2]", Text "1"); ("c[]", Text "2");
     ("a.b", Text "3"); ("d", Text "4")]
  = Throw (DuplicateKeyError "a.b").
Proof.
  set (te := defaultTransformEntry NumberOfLiteral).
  assert (ownKeysOnly NumberOfLiteral te
            ([("x", Text "0")] ++ ("a.b[2]", Text "1") :: [("c[]", Text "2")]
             ++ [("a.b", Text "3")])) as Hown.
  { unfold ownKeysOnly. repeat (constructor; [by vm_compute|]). constructor. }
  assert (∃ st, parseFormData NumberOfLiteral false te
                  ([("x", Text "0")] ++ ("a.b[2]", Text "1") :: [("c[]", Text "2")])
                = Ok st) as [st Hparse].
  { eexists. by vm_compute. }
  assert (walked NumberOfLiteral false te ("a.b[2]", Text "1") "a.b[2]"
            (LString "1")) as Hwalked1.
  { split; [reflexivity|]. split; [reflexivity|]. intros H. by vm_compute in H. }
  assert (walked NumberOfLiteral false te ("a.b", Text "3") "a.b" (LString "3"))
    as Hwalked2.
  { split; [reflexivity|]. split; [reflexivity|]. intros H. by vm_compute in H. }
  assert (Forall (λ p, fixedPart p = true) (extractPathParts "a.b[2]"))
    as Hfixed.
  { repeat (constructor; [by vm_compute|]). constructor. }
  assert ((keyOf <$> extractPathParts "a.b")
          `prefix_of` (keyOf <$> extractPathParts "a.b[2]")) as Hmeet.
  { exists [(array, "2")]. by vm_compute. }
  destruct (entries_that_meet_conflict NumberOfLiteral false te
              [("x", Text "0")] ("a.b[2]", Text "1") [("c[]", Text "2")]
              ("a.b", Text "3") [("d", Text "4")] st "a.b[2]" (LString "1")
              "a.b" (LString "3") Hown Hparse Hwalked1 Hwalked2 Hfixed
              (or_introl Hmeet)) as (p & Hp & Hthrow).
  vm_compute in Hp. injection Hp as <-. exact Hthrow.
Defined.
